(** * basin-coding: base-N binary-to-text range coder

    A shallow embedding of [src/basin_coding.js] and the properties of its
    encoder and decoder.

    Modelling conventions.
    - A JavaScript string is the list of its UTF-16 code units ([list Z]);
      [s.length], [s.charCodeAt(i)] and [s[i]] all work on code units.
    - Numbers are [Z]. The interval never leaves [0, 2^40) and a byte is
      below 2^8, so every sum, difference and product the program forms is
      an integer below 2^53 and exact as a double. [x % y] is [Z.rem x y],
      [Math.floor(x / y)] is [x / y] for [y > 0], and
      [Math.ceil(n * (1 / 256))] is the ceiling of [n / 256], scaling by a
      power of two being exact. The one rounded operation is the quotient
      in [decode]; while the accumulator lies in the interval it is below
      2^8, it lies at least [1 / y > 2^-41] under the next integer when it
      is not one itself, and doubles of that size are at most 2^-45 apart,
      so its floor is the floor of the exact quotient.
    - The [Map] used as decoding table is a [gmap Z Z] from code unit to
      digit value.
    - A thrown [Error] is a value: [inl] of a constructor, [None] where
      [encode] appends [undefined], [Threw] in [decode].
    - [decode] is a generator; its model collects what it yields and ends in
      a normal return, in a thrown error, or never (no result for any fuel). *)

From Stdlib Require Import ZArith Lia String Ascii.
From stdpp Require Import base option list gmap.

Local Open Scope Z_scope.

(** ** Constants *)

Definition codeUnits (s : string) : list Z :=
  map (fun c => Z.of_nat (nat_of_ascii c)) (list_ascii_of_string s).

Definition DEFAULT_ALPHABET : list Z :=
  codeUnits
    ("0123456789abcdefghijklmnopqrstuvwxyzABCDEFGHIJKLMNOPQRSTUVWXYZ"
     ++ "!@#$%^*()-=;,./_+{}|:?~")%string.

Definition MIN_ALPHABET_SIZE : Z := 2.
Definition MAX_ALPHABET_SIZE : Z := 256.

(** [s.length] *)
Definition jsLength (s : list Z) : Z := Z.of_nat (length s).

(** [s[k]] and [s.charCodeAt(k)] for an integer [k]: nothing out of range. *)
Definition charAt (s : list Z) (k : Z) : option Z :=
  if 0 <=? k then s !! Z.to_nat k else None.

(** [Math.ceil(n * (1 / 256))] *)
Definition ceil256 (n : Z) : Z := - ((- n) / 256).

(** ** calculateParams *)

Record Params := mkParams {
  msdDivisor : Z;
  secondMsdDivisor : Z;
  maxDigitsToEmit : Z;
  maxDigitsToDecode : Z
}.

(** [while (msdDivisor <= 0x100_0000_0000) { msdDivisor *= base; ++maxDigitsToDecode }] *)
Fixpoint msdLoop (fuel : nat) (base msdDiv maxDecode : Z) : option (Z * Z) :=
  if msdDiv <=? 0x10000000000 then
    match fuel with
    | O => None
    | S fuel' => msdLoop fuel' base (msdDiv * base) (maxDecode + 1)
    end
  else Some (msdDiv, maxDecode).

(** [while (tmp < 0x100) { tmp *= base; ++maxDigitsToEmit }] *)
Fixpoint emitLoop (fuel : nat) (base tmp maxEmit : Z) : option Z :=
  if tmp <? 0x100 then
    match fuel with
    | O => None
    | S fuel' => emitLoop fuel' base (tmp * base) (maxEmit + 1)
    end
  else Some maxEmit.

(** Both loops stop within 41 rounds for every base of at least 2 and never
    stop for a base below 2; [None] stands for the second case. *)
Definition loopFuel : nat := 64.

Definition calculateParams (base : Z) : option Params :=
  match msdLoop loopFuel base 1 0 with
  | None => None
  | Some (m, maxDecode0) =>
    let msdDiv := m / (base * base) in
    let secondMsdDiv := msdDiv / base in
    let maxDecode := maxDecode0 - 1 in
    match emitLoop loopFuel base 1 1 with
    | None => None
    | Some maxEmit => Some (mkParams msdDiv secondMsdDiv maxEmit maxDecode)
    end
  end.

(** ** Configuration: the two constructors *)

Inductive ConfigError := AlphabetTooShort | AlphabetTooLong.

Record Encoder := mkEncoder { encodingTable : list Z }.

Definition newEncoder (alphabet : list Z) : ConfigError + Encoder :=
  if jsLength alphabet <? MIN_ALPHABET_SIZE then inl AlphabetTooShort
  else if jsLength alphabet >? MAX_ALPHABET_SIZE then inl AlphabetTooLong
  else inr (mkEncoder alphabet).

Record Decoder := mkDecoder { decodingTable : gmap Z Z }.

(** [for (let i = alphabet.length; i--;) table.set(alphabet.charCodeAt(i), i)]:
    the counter runs from [length - 1] down to [0]. *)
Fixpoint buildTable (alphabet : list Z) (i : nat) (table : gmap Z Z) : gmap Z Z :=
  match i with
  | O => table
  | S i' =>
    match alphabet !! i' with
    | Some c => buildTable alphabet i' (<[c := Z.of_nat i']> table)
    | None => buildTable alphabet i' table
    end
  end.

Definition newDecoder (alphabet : list Z) : ConfigError + Decoder :=
  if jsLength alphabet <? MIN_ALPHABET_SIZE then inl AlphabetTooShort
  else if jsLength alphabet >? MAX_ALPHABET_SIZE then inl AlphabetTooLong
  else inr (mkDecoder (buildTable alphabet (length alphabet) ∅)).

(** ** Encoder *)

(** [StringBuilder.add]: appending [undefined] throws (a [TypeError] on
    [string.length]); chunking has no effect on the text built. *)
Definition add (result : list Z) (str : option Z) : option (list Z) :=
  match str with
  | Some ch => Some (result ++ [ch])
  | None => None
  end.

Record EncState := mkEnc {
  result : list Z;
  bytesEncoded : Z;
  enc_lo : Z;
  enc_hi : Z;
  digitsToAdd : nat;
  digitsToAddHiMsd : Z
}.

(** The digit loop of [encode], [for (let _ = maxDigitsToEmit; _--;)], with
    [n] rounds left. *)
Fixpoint encodeDigits (table : list Z) (base : Z) (P : Params) (n : nat)
    (st : EncState) : option EncState :=
  match n with
  | O => Some st
  | S n' =>
    let lo := enc_lo st in
    let hi := enc_hi st in
    let loMsd := lo / msdDivisor P in
    let hiMsd := hi / msdDivisor P in
    if hiMsd - loMsd =? 1 then
      if (Z.rem (lo / secondMsdDivisor P) base =? base - 1)
         && (Z.rem (hi / secondMsdDivisor P) base =? 0)
      then
        encodeDigits table base P n'
          (mkEnc (result st) (bytesEncoded st)
             (loMsd * msdDivisor P + Z.rem lo (secondMsdDivisor P) * base)
             (hiMsd * msdDivisor P + Z.rem hi (secondMsdDivisor P) * base)
             (S (digitsToAdd st)) hiMsd)
      else Some st
    else if loMsd =? hiMsd then
      match add (result st) (charAt table hiMsd) with
      | None => None
      | Some r1 =>
        let r2 :=
          match digitsToAdd st with
          | O => Some r1
          | S _ =>
            match charAt table
                    (if hiMsd =? digitsToAddHiMsd st then 0 else base - 1) with
            | Some charToAdd => Some (r1 ++ replicate (digitsToAdd st) charToAdd)
            | None => None
            end
          end in
        match r2 with
        | None => None
        | Some r =>
          encodeDigits table base P n'
            (mkEnc r (bytesEncoded st)
               (Z.rem lo (msdDivisor P) * base)
               (Z.rem hi (msdDivisor P) * base)
               O (digitsToAddHiMsd st))
        end
      end
    else Some st
  end.

(** One round of [for (const byte of bytes)]. *)
Definition encodeByte (table : list Z) (base : Z) (P : Params)
    (st : EncState) (byte : Z) : option EncState :=
  let lo := enc_lo st in
  let hi := enc_hi st in
  let nextLo := lo + ceil256 ((hi - lo + 1) * byte) in
  let nextHi := lo + (ceil256 ((hi - lo + 1) * (byte + 1)) - 1) in
  match encodeDigits table base P (Z.to_nat (maxDigitsToEmit P))
          (mkEnc (result st) (bytesEncoded st) nextLo nextHi
             (digitsToAdd st) (digitsToAddHiMsd st)) with
  | None => None
  | Some st' =>
    Some (mkEnc (result st') (bytesEncoded st' + 1) (enc_lo st') (enc_hi st')
            (digitsToAdd st') (digitsToAddHiMsd st'))
  end.

Fixpoint encodeBytes (table : list Z) (base : Z) (P : Params)
    (st : EncState) (bytes : list Z) : option EncState :=
  match bytes with
  | [] => Some st
  | byte :: rest =>
    match encodeByte table base P st byte with
    | None => None
    | Some st' => encodeBytes table base P st' rest
    end
  end.

Definition encInit (P : Params) (base : Z) : EncState :=
  mkEnc [] 0 0 (msdDivisor P * base - 1) O 0.

(** What [encode] appends after the loop over the bytes. *)
Definition encodeFinish (table : list Z) (P : Params) (st : EncState)
    : option (list Z) :=
  match add (result st) (charAt table (enc_hi st / msdDivisor P)) with
  | None => None
  | Some r1 =>
    let r2 :=
      match digitsToAdd st with
      | O => Some r1
      | S _ =>
        match charAt table 0 with
        | Some charToAdd => Some (r1 ++ replicate (digitsToAdd st) charToAdd)
        | None => None
        end
      end in
    match r2 with
    | None => None
    | Some r => add r (charAt table (Z.rem (bytesEncoded st) 2))
    end
  end.

(** [Encoder.encode]: [None] when the call throws or does not return. *)
Definition encode (enc : Encoder) (bytes : list Z) : option (list Z) :=
  let table := encodingTable enc in
  let base := jsLength table in
  match calculateParams base with
  | None => None
  | Some P =>
    match encodeBytes table base P (encInit P base) bytes with
    | None => None
    | Some st => encodeFinish table P st
    end
  end.

(** ** Decoder *)

(** [isWhitespace]: the code units of space, line feed, carriage return,
    tab, vertical tab, form feed, U+00A0, U+2028 and U+2029. *)
Definition whitespaceUnits : list Z :=
  [32; 10; 13; 9; 11; 12; 0xA0; 0x2028; 0x2029].

Definition isWhitespace (ch : Z) : bool := bool_decide (ch ∈ whitespaceUnits).

Record DecState := mkDec {
  yielded : list Z;
  bytesDecoded : Z;
  dec_lo : Z;
  dec_hi : Z;
  dec_i : Z;
  digitsToDecode : Z;
  requestedDigits : Z;
  requestedDigitsKeepMsd : Z;
  isLastDigit : bool
}.

(** How a run of the generator ends, with everything it yielded before. *)
Inductive Outcome :=
| Returned (bytes : list Z)
| Threw (bytes : list Z).

(** The digit loop of [decode] after a byte, with [n] rounds left; it only
    moves the interval and counts the digits to read. *)
Fixpoint decodeDigits (base : Z) (P : Params) (n : nat) (st : DecState)
    : DecState :=
  match n with
  | O => st
  | S n' =>
    let lo := dec_lo st in
    let hi := dec_hi st in
    let loMsd := lo / msdDivisor P in
    let hiMsd := hi / msdDivisor P in
    if hiMsd - loMsd =? 1 then
      if (Z.rem (lo / secondMsdDivisor P) base =? base - 1)
         && (Z.rem (hi / secondMsdDivisor P) base =? 0)
      then
        decodeDigits base P n'
          (mkDec (yielded st) (bytesDecoded st)
             (loMsd * msdDivisor P + Z.rem lo (secondMsdDivisor P) * base)
             (hiMsd * msdDivisor P + Z.rem hi (secondMsdDivisor P) * base)
             (dec_i st) (digitsToDecode st)
             (requestedDigits st + 1) (requestedDigitsKeepMsd st + 1)
             (isLastDigit st))
      else st
    else if loMsd =? hiMsd then
      decodeDigits base P n'
        (mkDec (yielded st) (bytesDecoded st)
           (Z.rem lo (msdDivisor P) * base)
           (Z.rem hi (msdDivisor P) * base)
           (dec_i st) (digitsToDecode st)
           (requestedDigits st + 1) (requestedDigitsKeepMsd st)
           (isLastDigit st))
    else st
  end.

(** What one turn of the loops does: go on with a new state, or stop. *)
Inductive Step :=
| Continue (st : DecState)
| Stop (o : Outcome).

(** The body of [while (requestedDigits > 0)], once a digit is known. *)
Definition takeDigit (base : Z) (P : Params) (st : DecState) (digit : Z)
    (last : bool) : DecState :=
  let i := dec_i st + 1 in
  if requestedDigits st =? requestedDigitsKeepMsd st then
    let digitsToDecodeMsd := digitsToDecode st / msdDivisor P in
    mkDec (yielded st) (bytesDecoded st) (dec_lo st) (dec_hi st) i
      (digitsToDecodeMsd * msdDivisor P
       + Z.rem (digitsToDecode st) (secondMsdDivisor P) * base + digit)
      (requestedDigits st - 1) (requestedDigitsKeepMsd st - 1) last
  else
    mkDec (yielded st) (bytesDecoded st) (dec_lo st) (dec_hi st) i
      (Z.rem (digitsToDecode st) (msdDivisor P) * base + digit)
      (requestedDigits st - 1) (requestedDigitsKeepMsd st) last.

(** One turn: a round of the inner [while] when digits are requested,
    otherwise the rest of a round of [while (true)]. A whitespace character
    that is no symbol of the alphabet takes the [continue], which goes back
    to the test of the inner loop with every variable as it was. *)
Definition decodeStep (encodedText : list Z) (table : gmap Z Z)
    (endIndex lengthParity base : Z) (P : Params) (st : DecState) : Step :=
  if requestedDigits st >? 0 then
    if dec_i st <? endIndex then
      match charAt encodedText (dec_i st) with
      | None => Stop (Threw (yielded st))
      | Some charCode =>
        match table !! charCode with
        | None =>
          if isWhitespace charCode then Continue st
          else Stop (Threw (yielded st))
        | Some digit => Continue (takeDigit base P st digit (isLastDigit st))
        end
      end
    else
      Continue
        (takeDigit base P st 0
           (if dec_i st - endIndex =? maxDigitsToDecode P - 2 then true
            else isLastDigit st))
  else
    let lo := dec_lo st in
    let hi := dec_hi st in
    let byte := (256 * (digitsToDecode st - lo)) / (hi - lo + 1) in
    if isLastDigit st then
      if negb (Z.rem (bytesDecoded st) 2 =? lengthParity)
      then Stop (Returned (yielded st ++ [byte]))
      else Stop (Returned (yielded st))
    else
      let nextLo := lo + ceil256 ((hi - lo + 1) * byte) in
      let nextHi := lo + (ceil256 ((hi - lo + 1) * (byte + 1)) - 1) in
      let st' :=
        decodeDigits base P (Z.to_nat (maxDigitsToEmit P))
          (mkDec (yielded st ++ [byte]) (bytesDecoded st) nextLo nextHi
             (dec_i st) (digitsToDecode st) (requestedDigits st)
             (requestedDigitsKeepMsd st) (isLastDigit st)) in
      Continue
        (mkDec (yielded st') (bytesDecoded st' + 1) (dec_lo st') (dec_hi st')
           (dec_i st') (digitsToDecode st') (requestedDigits st')
           (requestedDigitsKeepMsd st') (isLastDigit st')).

(** [fuel] turns of the loops: [None] when the run has not ended by then. *)
Fixpoint decodeRun (fuel : nat) (encodedText : list Z) (table : gmap Z Z)
    (endIndex lengthParity base : Z) (P : Params) (st : DecState)
    : option Outcome :=
  match fuel with
  | O => None
  | S fuel' =>
    match decodeStep encodedText table endIndex lengthParity base P st with
    | Stop o => Some o
    | Continue st' =>
      decodeRun fuel' encodedText table endIndex lengthParity base P st'
    end
  end.

Definition decInit (P : Params) (base : Z) : DecState :=
  mkDec [] 0 0 (msdDivisor P * base - 1) 0 0 (maxDigitsToDecode P) 0 false.

(** The generator function [decode(encodedText, decodingTable)], run to its
    end: [None] when it has not ended after [fuel] turns of its loops (for
    [calculateParams], when it would not return at all). *)
Definition decode (fuel : nat) (encodedText : list Z) (table : gmap Z Z)
    : option Outcome :=
  let endIndex := jsLength encodedText - 1 in
  if endIndex <? 0 then Some (Threw [])
  else
    match charAt encodedText endIndex with
    | None => Some (Threw [])
    | Some endCode =>
      match table !! endCode with
      | None => Some (Threw [])
      | Some lengthParity =>
        if lengthParity >? 1 then Some (Threw [])
        else
          let base := Z.of_nat (size table) in
          match calculateParams base with
          | None => None
          | Some P =>
            decodeRun fuel encodedText table endIndex lengthParity base P
              (decInit P base)
          end
      end
    end.

(** [Decoder.decode] *)
Definition decoderDecode (fuel : nat) (dec : Decoder) (encodedText : list Z)
    : option Outcome :=
  decode fuel encodedText (decodingTable dec).

(** ** What [calculateParams] guarantees

    The facts about the four constants that the coder relies on, as a
    decidable check; it is run on every base from 2 to 256 below. *)

Definition paramsOk (base : Z) (P : Params) : bool :=
  (msdDivisor P =? secondMsdDivisor P * base)
  && (65536 <=? secondMsdDivisor P)
  && (msdDivisor P * base <=? 0x10000000000)
  && (2 <=? maxDigitsToEmit P)
  && (256 <=? base ^ (maxDigitsToEmit P - 1))
  && (base ^ (maxDigitsToEmit P - 2) <? 256)
  && ((base ^ (maxDigitsToEmit P - 1) =? 256)
      || (289 <=? base ^ (maxDigitsToEmit P - 1)))
  && (msdDivisor P mod base ^ maxDigitsToEmit P =? 0)
  && (5 <=? maxDigitsToDecode P)
  && (msdDivisor P =? base ^ (maxDigitsToDecode P - 1)).

Definition checkBase (base : Z) : bool :=
  match calculateParams base with
  | Some P => paramsOk base P
  | None => false
  end.

Record GoodParams (base : Z) (P : Params) : Prop := mkGood {
  gp_base : 2 <= base <= 256;
  gp_M : msdDivisor P = secondMsdDivisor P * base;
  gp_S : 65536 <= secondMsdDivisor P;
  gp_top : msdDivisor P * base <= 0x10000000000;
  gp_E : 2 <= maxDigitsToEmit P;
  gp_pow : 256 <= base ^ (maxDigitsToEmit P - 1);
  gp_powmin : base ^ (maxDigitsToEmit P - 2) < 256;
  gp_gap : base ^ (maxDigitsToEmit P - 1) = 256
           \/ 289 <= base ^ (maxDigitsToEmit P - 1);
  gp_div : msdDivisor P mod base ^ maxDigitsToEmit P = 0;
  gp_N : 5 <= maxDigitsToDecode P;
  gp_Mpow : msdDivisor P = base ^ (maxDigitsToDecode P - 1)
}.

(** ** The interval engine that [encode] and [decode] share

    Both functions narrow the interval by a byte and then run the same digit
    loop on it; the loop is written twice in the source, and once here, to
    state what the two copies have in common. *)

Definition narrowLo (lo hi byte : Z) : Z :=
  lo + ceil256 ((hi - lo + 1) * byte).

Definition narrowHi (lo hi byte : Z) : Z :=
  lo + (ceil256 ((hi - lo + 1) * (byte + 1)) - 1).

(** A round of the digit loop settles the leading digit, defers the digit
    after it, or leaves the loop. *)
Inductive Action := Settle | Defer.

Definition action (base : Z) (P : Params) (lo hi : Z) : option Action :=
  let loMsd := lo / msdDivisor P in
  let hiMsd := hi / msdDivisor P in
  if hiMsd - loMsd =? 1 then
    if (Z.rem (lo / secondMsdDivisor P) base =? base - 1)
       && (Z.rem (hi / secondMsdDivisor P) base =? 0)
    then Some Defer else None
  else if loMsd =? hiMsd then Some Settle else None.

Definition settleV (base : Z) (P : Params) (v : Z) : Z :=
  Z.rem v (msdDivisor P) * base.

Definition deferV (base : Z) (P : Params) (v : Z) : Z :=
  v / msdDivisor P * msdDivisor P + Z.rem v (secondMsdDivisor P) * base.

Definition moveV (base : Z) (P : Params) (a : Action) (v : Z) : Z :=
  match a with
  | Settle => settleV base P v
  | Defer => deferV base P v
  end.

(** [n] rounds of the digit loop on the interval alone: the actions taken
    and the interval left. *)
Fixpoint renorm (base : Z) (P : Params) (n : nat) (lo hi : Z)
    : list Action * (Z * Z) :=
  match n with
  | O => ([], (lo, hi))
  | S n' =>
    match action base P lo hi with
    | None => ([], (lo, hi))
    | Some a =>
      let '(acts, r) := renorm base P n' (moveV base P a lo) (moveV base P a hi) in
      (a :: acts, r)
    end
  end.

(** The invariant of the interval state. *)
Definition IntervalOk (base : Z) (P : Params) (lo hi : Z) : Prop :=
  0 <= lo /\ lo <= hi /\ hi <= msdDivisor P * base - 1.

(** Between two bytes the interval is wider than one second digit. *)
Definition Wide (P : Params) (lo hi : Z) : Prop :=
  secondMsdDivisor P + 1 <= hi - lo.

(** ** The encoder on digit values

    [encode] reads its table only to append what it read, so the text is
    the image of a list of digit values; this is the encoder computing that
    list, with the same variables. *)

Record Core := mkCore {
  c_lo : Z;
  c_hi : Z;
  c_pending : nat;    (* digitsToAdd *)
  c_ref : Z           (* digitsToAddHiMsd *)
}.

Definition coreEmit (base : Z) (P : Params) (c : Core) (a : Action) : list Z :=
  match a with
  | Settle =>
    (c_hi c / msdDivisor P)
      :: replicate (c_pending c)
           (if c_hi c / msdDivisor P =? c_ref c then 0 else base - 1)
  | Defer => []
  end.

Definition coreMove (base : Z) (P : Params) (c : Core) (a : Action) : Core :=
  match a with
  | Settle =>
    mkCore (settleV base P (c_lo c)) (settleV base P (c_hi c)) O (c_ref c)
  | Defer =>
    mkCore (deferV base P (c_lo c)) (deferV base P (c_hi c))
      (S (c_pending c)) (c_hi c / msdDivisor P)
  end.

Fixpoint coreDigits (base : Z) (P : Params) (n : nat) (c : Core)
    : list Z * Core :=
  match n with
  | O => ([], c)
  | S n' =>
    match action base P (c_lo c) (c_hi c) with
    | None => ([], c)
    | Some a =>
      let '(out, c') := coreDigits base P n' (coreMove base P c a) in
      (coreEmit base P c a ++ out, c')
    end
  end.

Definition coreNarrow (c : Core) (byte : Z) : Core :=
  mkCore (narrowLo (c_lo c) (c_hi c) byte) (narrowHi (c_lo c) (c_hi c) byte)
    (c_pending c) (c_ref c).

Definition coreByte (base : Z) (P : Params) (c : Core) (byte : Z)
    : list Z * Core :=
  coreDigits base P (Z.to_nat (maxDigitsToEmit P)) (coreNarrow c byte).

Fixpoint coreBytes (base : Z) (P : Params) (c : Core) (bytes : list Z)
    : list Z * Core :=
  match bytes with
  | [] => ([], c)
  | byte :: rest =>
    let '(out1, c1) := coreByte base P c byte in
    let '(out2, c2) := coreBytes base P c1 rest in
    (out1 ++ out2, c2)
  end.

Definition coreInit (P : Params) (base : Z) : Core :=
  mkCore 0 (msdDivisor P * base - 1) O 0.

(** The digits appended after the last byte, without the parity digit. *)
Definition coreFinish (P : Params) (c : Core) : list Z :=
  (c_hi c / msdDivisor P) :: replicate (c_pending c) 0.

Definition encodeIndices (base : Z) (P : Params) (bytes : list Z) : list Z :=
  let '(out, c) := coreBytes base P (coreInit P base) bytes in
  out ++ coreFinish P c ++ [Z.rem (jsLength bytes) 2].

(** The symbol of a digit value; the default stands for no symbol. *)
Definition symbolAt (table : list Z) (k : Z) : Z :=
  default (-1) (charAt table k).

Definition isByte (x : Z) : Prop := 0 <= x <= 255.

Definition inBase (base k : Z) : Prop := 0 <= k < base.

(** The encoder's interval between two bytes. *)
Definition CoreOk (base : Z) (P : Params) (c : Core) : Prop :=
  IntervalOk base P (c_lo c) (c_hi c) /\ Wide P (c_lo c) (c_hi c).

(** The encoder state with a given text, byte count and digit-level state. *)
Definition encOf (r : list Z) (n : Z) (c : Core) : EncState :=
  mkEnc r n (c_lo c) (c_hi c) (c_pending c) (c_ref c).

(** ** Digit streams

    The decoder keeps a window of [maxDigitsToDecode] digits of the text:
    the leading digit, then the digits after the deferred ones. Past the
    end of the text the digits are zero. *)

(** The number written by a list of digits, most significant first. *)
Definition num (base : Z) (l : list Z) : Z :=
  fold_left (fun a d => a * base + d) l 0.

(** The first [n] digits of a stream that goes on with zeros. *)
Definition padTake (n : nat) (l : list Z) : list Z :=
  take n (l ++ replicate n 0).

(** The digit at position [k] of such a stream. *)
Definition digitAt (l : list Z) (k : nat) : Z := nth k l 0.

Definition window (base : Z) (P : Params) (F : list Z) (p : nat) : Z :=
  hd 0 F * msdDivisor P
  + num base (padTake (Z.to_nat (maxDigitsToDecode P) - 1) (drop (S p) F)).

(** What the encoder in state [c] still appends for the bytes [R], without
    the parity digit. *)
Definition future (base : Z) (P : Params) (c : Core) (R : list Z) : list Z :=
  (coreBytes base P c R).1 ++ coreFinish P (coreBytes base P c R).2.

(** With digits deferred, the leading digits of the interval are one apart
    around the digit recorded. *)
Definition PendingOk (P : Params) (c : Core) : Prop :=
  (0 < c_pending c)%nat ->
  c_ref c - 1 <= c_lo c / msdDivisor P /\ c_hi c / msdDivisor P <= c_ref c.

(** A stream agrees with a state: its window lies in the interval, and the
    digits it has at the deferred places are the ones its leading digit
    calls for. *)
Definition Fits (base : Z) (P : Params) (c : Core) (F : list Z) : Prop :=
  Forall (inBase base) F
  /\ (c_pending c + 1 <= length F)%nat
  /\ c_lo c <= window base P F (c_pending c) <= c_hi c
  /\ ((0 < c_pending c)%nat ->
      (hd 0 F = c_ref c
       /\ take (c_pending c) (drop 1 F) = replicate (c_pending c) 0)
      \/ (hd 0 F = c_ref c - 1
          /\ take (c_pending c) (drop 1 F) = replicate (c_pending c) (base - 1))).

(** The state between two bytes, as the round trip needs it: the leading
    digits differ, or the low end is a multiple of [msdDivisor]. *)
Definition Boundary (base : Z) (P : Params) (c : Core) : Prop :=
  CoreOk base P c
  /\ (c_lo c / msdDivisor P < c_hi c / msdDivisor P
      \/ (c_lo c mod msdDivisor P = 0 /\ c_pending c = O))
  /\ ((0 < c_pending c)%nat ->
      c_lo c / msdDivisor P = c_ref c - 1 /\ c_hi c / msdDivisor P = c_ref c).

(** ** The decoder on digit values

    For a text whose characters before the last have the digit values [T],
    a round of the inner loop of [decode] takes the digit at the cursor, or
    a zero past the end, and raises the flag at one fixed place past it. *)

Definition readOne (T : list Z) (endIndex base : Z) (P : Params)
    (st : DecState) : DecState :=
  takeDigit base P st (digitAt T (Z.to_nat (dec_i st)))
    (isLastDigit st || (dec_i st - endIndex =? maxDigitsToDecode P - 2)).

Fixpoint readMany (T : list Z) (endIndex base : Z) (P : Params) (n : nat)
    (st : DecState) : DecState :=
  match n with
  | O => st
  | S n' => readMany T endIndex base P n' (readOne T endIndex base P st)
  end.

(** Where the window stands in the text: [o] digits are behind it and [p]
    digits after its leading one are skipped. *)
Definition posMove (a : Action) (op : nat * nat) : nat * nat :=
  match a with
  | Settle => (op.1 + op.2 + 1, O)%nat
  | Defer => (op.1, S op.2)
  end.

Definition posMoves (acts : list Action) (op : nat * nat) : nat * nat :=
  fold_left (fun x a => posMove a x) acts op.

Fixpoint defers (acts : list Action) : nat :=
  match acts with
  | [] => O
  | Settle :: r => defers r
  | Defer :: r => S (defers r)
  end.

(** The decoder's accumulator, cursor and flag at such a place. *)
Definition AtPos (T : list Z) (base : Z) (P : Params) (o p : nat)
    (st : DecState) : Prop :=
  digitsToDecode st = window base P (drop o T) p
  /\ dec_i st = Z.of_nat (o + p) + maxDigitsToDecode P
  /\ isLastDigit st = bool_decide (o + p + 1 = length T)%nat.

(** [k] turns of the loops of [decode] from a state, when none of them ends
    the run: the states a call passes through. *)
Fixpoint decodeIter (k : nat) (encodedText : list Z) (table : gmap Z Z)
    (endIndex lengthParity base : Z) (P : Params) (st : DecState)
    : option DecState :=
  match k with
  | O => Some st
  | S k' =>
    match decodeStep encodedText table endIndex lengthParity base P st with
    | Stop _ => None
    | Continue st' =>
      decodeIter k' encodedText table endIndex lengthParity base P st'
    end
  end.

(** The decoder state after narrowing by the byte it has computed, before
    the digit loop. *)
Definition decodeNarrowed (st : DecState) : DecState :=
  let lo := dec_lo st in
  let hi := dec_hi st in
  let byte := (256 * (digitsToDecode st - lo)) / (hi - lo + 1) in
  mkDec (yielded st ++ [byte]) (bytesDecoded st)
    (lo + ceil256 ((hi - lo + 1) * byte))
    (lo + (ceil256 ((hi - lo + 1) * (byte + 1)) - 1))
    (dec_i st) (digitsToDecode st) (requestedDigits st)
    (requestedDigitsKeepMsd st) (isLastDigit st).

(** The encoder state after narrowing by a byte, before the digit loop. *)
Definition encodeNarrowed (st : EncState) (byte : Z) : EncState :=
  let lo := enc_lo st in
  let hi := enc_hi st in
  mkEnc (result st) (bytesEncoded st)
    (lo + ceil256 ((hi - lo + 1) * byte))
    (lo + (ceil256 ((hi - lo + 1) * (byte + 1)) - 1))
    (digitsToAdd st) (digitsToAddHiMsd st).

(** As the specification words it: the smallest number of digits whose
    power of the base reaches 256. *)
Definition smallestDigitCount (base k : Z) : Prop :=
  0 <= k /\ 256 <= base ^ k /\ forall j, 0 <= j < k -> base ^ j < 256.

(** As the specification words it: the largest index at which a symbol
    occurs in the alphabet. *)
Definition lastIndexOf (alphabet : list Z) (s : Z) (i : nat) : Prop :=
  alphabet !! i = Some s
  /\ forall k, alphabet !! k = Some s -> (k <= i)%nat.

(** The smallest index at which a symbol occurs in the alphabet. *)
Definition firstIndexOf (alphabet : list Z) (s : Z) (i : nat) : Prop :=
  alphabet !! i = Some s
  /\ forall k, alphabet !! k = Some s -> (i <= k)%nat.

(** The table of the alphabet "01" and the constants of base 2. *)
Definition binaryTable : gmap Z Z := buildTable (codeUnits "01") 2 ∅.

Definition binaryParams : Params := mkParams 549755813888 274877906944 9 40.

(** The end of a round of [while (true)]: [++bytesDecoded]. *)
Definition countByte (st : DecState) : DecState :=
  mkDec (yielded st) (bytesDecoded st + 1) (dec_lo st) (dec_hi st) (dec_i st)
    (digitsToDecode st) (requestedDigits st) (requestedDigitsKeepMsd st)
    (isLastDigit st).

(** The decoder's interval between two bytes. *)
Definition DecOk (base : Z) (P : Params) (st : DecState) : Prop :=
  IntervalOk base P (dec_lo st) (dec_hi st) /\ Wide P (dec_lo st) (dec_hi st).

(** Everything a run has yielded when it ends. *)
Definition outcomeBytes (o : Outcome) : list Z :=
  match o with
  | Returned bytes => bytes
  | Threw bytes => bytes
  end.

(** ** StringBuilder

    The text under construction: the chunks closed so far, the strings of
    the open chunk and their total length. A string is added to the open
    chunk, after the chunk is closed when it holds 1024 code units or more. *)

Record StringBuilder := mkStringBuilder {
  chunks : list (list Z);
  currChunk : list (list Z);
  currChunkLength : Z
}.

Definition StringBuilder_new : StringBuilder := mkStringBuilder [] [] 0.

(** [StringBuilder.add] of a string; [join("")] is [concat]. *)
Definition StringBuilder_add (sb : StringBuilder) (str : list Z)
    : StringBuilder :=
  let sb1 :=
    if currChunkLength sb >=? 1024
    then mkStringBuilder (chunks sb ++ [concat (currChunk sb)]) [] 0
    else sb in
  mkStringBuilder (chunks sb1) (currChunk sb1 ++ [str])
    (currChunkLength sb1 + jsLength str).

(** [StringBuilder.toString] *)
Definition StringBuilder_toString (sb : StringBuilder) : list Z :=
  concat (chunks sb ++ currChunk sb).

Lemma checkBase_all : forallb checkBase (seqZ 2 255) = true.
Proof. vm_compute. reflexivity. Qed.

Lemma calculateParams_ok base :
  2 <= base <= 256 ->
  exists P, calculateParams base = Some P /\ paramsOk base P = true.
Proof.
  intros Hb.
  pose proof checkBase_all as H.
  rewrite forallb_forall in H.
  specialize (H base).
  assert (Hin : In base (seqZ 2 255)).
  { apply list_elem_of_In, elem_of_seqZ. lia. }
  apply H in Hin. unfold checkBase in Hin.
  destruct (calculateParams base) as [P|]; [|discriminate].
  exists P. split; [reflexivity | exact Hin].
Qed.

Lemma paramsOk_good base P :
  2 <= base <= 256 -> paramsOk base P = true -> GoodParams base P.
Proof.
  intros Hb H. unfold paramsOk in H.
  repeat (apply andb_prop in H; destruct H as [H ?]).
  constructor; lia.
Qed.

Lemma calculateParams_good base :
  2 <= base <= 256 ->
  exists P, calculateParams base = Some P /\ GoodParams base P.
Proof.
  intros Hb. destruct (calculateParams_ok base Hb) as (P & HP & Hok).
  exists P. split; [exact HP | apply paramsOk_good; assumption].
Qed.

(** ** Arithmetic of the interval *)

(** Linear and non-linear arithmetic after [/] and [mod] are replaced by
    their defining equations. *)
Ltac dlia := Z.div_mod_to_equations; lia.

Lemma ceil256_bounds n : n <= 256 * ceil256 n < n + 256.
Proof. unfold ceil256. dlia. Qed.

(** Dropping the last digit of two numbers keeps their order. *)
Lemma scaled_le_l b L A d : 0 < b -> d < b -> L * b <= A * b + d -> L <= A.
Proof.
  intros Hb Hd H.
  assert (L * b < (A + 1) * b) by (rewrite Z.mul_add_distr_r; lia).
  assert (L < A + 1) by (apply (Z.mul_lt_mono_pos_r b); assumption).
  lia.
Qed.

Lemma scaled_le_r b A H d : 0 < b -> 0 <= d -> A * b + d <= H * b -> A <= H.
Proof.
  intros Hb Hd Hle.
  assert (A * b <= H * b) by lia.
  apply (Z.mul_le_mono_pos_r _ _ b); assumption.
Qed.

Section Arith.
Context {base : Z} {P : Params} (G : GoodParams base P).
Local Abbreviation M := (msdDivisor P).
Local Abbreviation S2 := (secondMsdDivisor P).

Lemma M_pos : 131072 <= M.
Proof.
  pose proof (gp_M _ _ G). pose proof (gp_S _ _ G).
  pose proof (gp_base _ _ G). nia.
Qed.

Lemma S2_pos : 0 < S2.
Proof. pose proof (gp_S _ _ G). lia. Qed.

Lemma base_pos : 0 < base.
Proof. pose proof (gp_base _ _ G). lia. Qed.

Lemma msd_split v :
  v / S2 = v / M * base + (v / S2) mod base.
Proof.
  pose proof S2_pos. pose proof base_pos.
  rewrite (gp_M _ _ G).
  rewrite <- Z.div_div by lia.
  pose proof (Z.div_mod (v / S2) base). lia.
Qed.

Lemma split3 v :
  v = v / M * M + (v / S2) mod base * S2 + v mod S2.
Proof.
  pose proof S2_pos.
  pose proof (Z.div_mod v S2).
  pose proof (msd_split v). rewrite (gp_M _ _ G) at 2. nia.
Qed.

Lemma mod_M_split v :
  v mod M = (v / S2) mod base * S2 + v mod S2.
Proof.
  pose proof M_pos.
  pose proof (Z.div_mod v M). pose proof (split3 v). lia.
Qed.
End Arith.

(** ** The interval engine: narrowing and the digit loop *)

Section Engine.
Context {base : Z} {P : Params} (G : GoodParams base P).
Local Abbreviation M := (msdDivisor P).
Local Abbreviation S2 := (secondMsdDivisor P).

Lemma narrow_facts lo hi byte :
  lo <= hi -> 0 <= byte <= 255 ->
  lo <= narrowLo lo hi byte
  /\ narrowHi lo hi byte <= hi
  /\ hi - lo - 510 <= 256 * (narrowHi lo hi byte - narrowLo lo hi byte)
  /\ 256 * (narrowHi lo hi byte - narrowLo lo hi byte) <= hi - lo.
Proof.
  intros Hle Hb. unfold narrowLo, narrowHi.
  set (W := hi - lo + 1).
  assert (HW : 1 <= W) by (unfold W; lia).
  replace (W * (byte + 1)) with (W * byte + W) by ring.
  assert (Ha : 0 <= W * byte <= 255 * W) by nia.
  pose proof (ceil256_bounds (W * byte)).
  pose proof (ceil256_bounds (W * byte + W)).
  unfold W in *. lia.
Qed.

Lemma narrow_ok lo hi byte :
  IntervalOk base P lo hi -> 510 <= hi - lo -> 0 <= byte <= 255 ->
  IntervalOk base P (narrowLo lo hi byte) (narrowHi lo hi byte).
Proof.
  intros (H0 & Hle & Hhi) Hw Hb.
  destruct (narrow_facts lo hi byte Hle Hb) as (H1 & H2 & H3 & H4).
  unfold IntervalOk. lia.
Qed.

Lemma rem_mod v m : 0 <= v -> 0 < m -> Z.rem v m = v mod m.
Proof. intros. apply Z.rem_mod_nonneg; lia. Qed.

(** What the test of the loop says about the two leading digits. *)
Lemma action_settle lo hi :
  0 <= lo -> lo <= hi ->
  action base P lo hi = Some Settle -> lo / M = hi / M.
Proof.
  unfold action. intros H0 Hle H.
  destruct (hi / M - lo / M =? 1); [destruct (_ && _); discriminate|].
  destruct (lo / M =? hi / M) eqn:E; [lia | discriminate].
Qed.

Lemma action_defer lo hi :
  0 <= lo -> lo <= hi ->
  action base P lo hi = Some Defer ->
  hi / M = lo / M + 1
  /\ (lo / S2) mod base = base - 1 /\ (hi / S2) mod base = 0.
Proof.
  unfold action. intros H0 Hle H.
  pose proof (S2_pos G). pose proof (base_pos G).
  destruct (hi / M - lo / M =? 1) eqn:E1.
  - destruct (_ && _) eqn:E2; [|discriminate].
    apply andb_prop in E2. destruct E2 as [E2 E3].
    rewrite rem_mod in E2, E3 by (try apply Z.div_pos; lia).
    lia.
  - destruct (lo / M =? hi / M); discriminate.
Qed.

Lemma action_none lo hi :
  0 <= lo -> lo <= hi ->
  action base P lo hi = None ->
  lo / M < hi / M /\ S2 + 1 <= hi - lo.
Proof.
  unfold action. intros H0 Hle H.
  pose proof (S2_pos G). pose proof (base_pos G). pose proof (M_pos G).
  pose proof (split3 G lo) as Hl. pose proof (split3 G hi) as Hh.
  pose proof (Z.mod_pos_bound lo S2 ltac:(lia)).
  pose proof (Z.mod_pos_bound hi S2 ltac:(lia)).
  pose proof (Z.mod_pos_bound (lo / S2) base ltac:(lia)).
  pose proof (Z.mod_pos_bound (hi / S2) base ltac:(lia)).
  assert (lo / M <= hi / M) by (apply Z.div_le_mono; lia).
  pose proof (gp_M _ _ G) as HM.
  destruct (hi / M - lo / M =? 1) eqn:E1.
  - destruct (_ && _) eqn:E2; [discriminate|].
    rewrite !rem_mod in E2 by (try apply Z.div_pos; lia).
    split; [lia|].
    apply andb_false_iff in E2.
    assert (hi / M = lo / M + 1) by lia.
    destruct E2 as [E2|E2]; nia.
  - destruct (lo / M =? hi / M) eqn:E3; [discriminate|].
    split; [lia|]. nia.
Qed.

Lemma settle_facts lo hi :
  IntervalOk base P lo hi -> lo / M = hi / M ->
  IntervalOk base P (settleV base P lo) (settleV base P hi)
  /\ settleV base P hi - settleV base P lo = (hi - lo) * base
  /\ settleV base P hi <= M * base - base.
Proof.
  intros (H0 & Hle & Hhi) Heq. unfold settleV, IntervalOk.
  pose proof (M_pos G). pose proof (base_pos G).
  rewrite !rem_mod by lia.
  pose proof (Z.div_mod lo M ltac:(lia)).
  pose proof (Z.div_mod hi M ltac:(lia)).
  pose proof (Z.mod_pos_bound lo M ltac:(lia)).
  pose proof (Z.mod_pos_bound hi M ltac:(lia)).
  assert (hi mod M - lo mod M = hi - lo) by lia.
  repeat split; nia.
Qed.

Lemma defer_facts lo hi :
  IntervalOk base P lo hi ->
  hi / M = lo / M + 1 ->
  (lo / S2) mod base = base - 1 -> (hi / S2) mod base = 0 ->
  IntervalOk base P (deferV base P lo) (deferV base P hi)
  /\ deferV base P hi - deferV base P lo = (hi - lo) * base
  /\ deferV base P lo / M = lo / M
  /\ deferV base P hi / M = hi / M.
Proof.
  intros (H0 & Hle & Hhi) Hmsd Hl2 Hh2. unfold deferV, IntervalOk.
  pose proof (M_pos G). pose proof (base_pos G). pose proof (S2_pos G).
  pose proof (gp_M _ _ G) as HM.
  rewrite !rem_mod by lia.
  pose proof (split3 G lo) as Hl. pose proof (split3 G hi) as Hh.
  rewrite Hl2 in Hl. rewrite Hh2 in Hh. rewrite Hmsd in *.
  pose proof (Z.mod_pos_bound lo S2 ltac:(lia)) as Bl.
  pose proof (Z.mod_pos_bound hi S2 ltac:(lia)) as Bh.
  assert (Hlm0 : 0 <= lo / M) by (apply Z.div_pos; lia).
  set (lm := lo / M) in *. set (l0 := lo mod S2) in *.
  set (h0 := hi mod S2) in *.
  assert (Hl0 : 0 <= l0 * base <= M - base).
  { split; [apply Z.mul_nonneg_nonneg; lia|].
    rewrite HM. replace (S2 * base - base) with ((S2 - 1) * base) by ring.
    apply Z.mul_le_mono_nonneg_r; lia. }
  assert (Hh0 : 0 <= h0 * base <= M - base).
  { split; [apply Z.mul_nonneg_nonneg; lia|].
    rewrite HM. replace (S2 * base - base) with ((S2 - 1) * base) by ring.
    apply Z.mul_le_mono_nonneg_r; lia. }
  assert (Hlmb : lm + 1 <= base - 1).
  { assert (lm + 1 < base); [|lia].
    apply (Z.mul_lt_mono_pos_r M); [lia|].
    assert (0 <= 0 * S2) by lia. lia. }
  assert (HlmM : 0 <= lm * M) by (apply Z.mul_nonneg_nonneg; lia).
  assert (HhmM : (lm + 1) * M <= (base - 1) * M)
    by (apply Z.mul_le_mono_nonneg_r; lia).
  assert (Hq1 : (lm * M + l0 * base) / M = lm).
  { symmetry. apply (Z.div_unique_pos _ _ _ (l0 * base)); lia. }
  assert (Hq2 : ((lm + 1) * M + h0 * base) / M = lm + 1).
  { symmetry. apply (Z.div_unique_pos _ _ _ (h0 * base)); lia. }
  rewrite Hq1, Hq2.
  assert (Hwd : (lm + 1) * M + h0 * base - (lm * M + l0 * base)
                = (hi - lo) * base).
  { rewrite Hl, Hh, HM. ring. }
  repeat split; try lia.
Qed.

Lemma move_facts a lo hi :
  IntervalOk base P lo hi -> action base P lo hi = Some a ->
  IntervalOk base P (moveV base P a lo) (moveV base P a hi)
  /\ moveV base P a hi - moveV base P a lo = (hi - lo) * base.
Proof.
  intros Hok Ha. pose proof Hok as (H0 & Hle & Hhi).
  destruct a; simpl.
  - apply action_settle in Ha; try lia.
    destruct (settle_facts lo hi Hok Ha) as (? & ? & ?). auto.
  - apply action_defer in Ha; try lia. destruct Ha as (? & ? & ?).
    destruct (defer_facts lo hi Hok) as (? & ? & ?); auto.
Qed.

(** Every interval the digit loop passes through is in bounds. *)
Lemma renorm_ok n lo hi :
  IntervalOk base P lo hi ->
  IntervalOk base P (renorm base P n lo hi).2.1 (renorm base P n lo hi).2.2.
Proof.
  revert lo hi. induction n as [|n IH]; intros lo hi Hok; simpl; [exact Hok|].
  destruct (action base P lo hi) as [a|] eqn:Ha; [|exact Hok].
  destruct (move_facts a lo hi Hok Ha) as (Hok' & _).
  specialize (IH _ _ Hok').
  destruct (renorm base P n (moveV base P a lo) (moveV base P a hi)) as [acts r].
  exact IH.
Qed.

(** The loop multiplies the width by [base] in each round it takes, and
    it leaves early only on an interval that is wide. *)
Lemma renorm_width n lo hi :
  IntervalOk base P lo hi ->
  let r := renorm base P n lo hi in
  r.2.2 - r.2.1 = (hi - lo) * base ^ Z.of_nat (length r.1)
  /\ (length r.1 <= n)%nat
  /\ (length r.1 = n \/ Wide P r.2.1 r.2.2).
Proof.
  revert lo hi. induction n as [|n IH]; intros lo hi Hok; simpl.
  - repeat split; [lia | lia | left; reflexivity].
  - destruct (action base P lo hi) as [a|] eqn:Ha.
    + destruct (move_facts a lo hi Hok Ha) as (Hok' & Hw).
      specialize (IH _ _ Hok').
      destruct (renorm base P n (moveV base P a lo) (moveV base P a hi))
        as [acts r]. simpl in *.
      destruct IH as (IH1 & IH2 & IH3).
      repeat split.
      * rewrite IH1, Hw.
        replace (Z.of_nat (S (length acts))) with (Z.succ (Z.of_nat (length acts))) by lia.
        rewrite Z.pow_succ_r by lia. ring.
      * lia.
      * destruct IH3; [left; lia | right; assumption].
    + simpl. destruct Hok as (H0 & Hle & Hhi).
      apply action_none in Ha; try lia.
      repeat split; [lia | lia | right; unfold Wide; lia].
Qed.

Lemma pow_rounds : 256 * base <= base ^ Z.of_nat (Z.to_nat (maxDigitsToEmit P)).
Proof.
  pose proof (gp_E _ _ G). pose proof (gp_pow _ _ G). pose proof (base_pos G).
  rewrite Z2Nat.id by lia.
  replace (maxDigitsToEmit P) with (Z.succ (maxDigitsToEmit P - 1)) by lia.
  rewrite Z.pow_succ_r by lia. nia.
Qed.

(** A byte step: narrowing, then the digit loop, keeps the interval in
    bounds and wide. *)
Lemma byte_step_ok lo hi byte :
  IntervalOk base P lo hi -> Wide P lo hi -> 0 <= byte <= 255 ->
  let r := renorm base P (Z.to_nat (maxDigitsToEmit P))
             (narrowLo lo hi byte) (narrowHi lo hi byte) in
  IntervalOk base P r.2.1 r.2.2 /\ Wide P r.2.1 r.2.2.
Proof.
  intros Hok Hw Hb r.
  pose proof (gp_S _ _ G) as HS. unfold Wide in Hw.
  assert (Hok0 : IntervalOk base P (narrowLo lo hi byte) (narrowHi lo hi byte))
    by (apply narrow_ok; auto; lia).
  split; [apply renorm_ok; exact Hok0|].
  destruct (renorm_width (Z.to_nat (maxDigitsToEmit P)) _ _ Hok0)
    as (Hwd & _ & [Hfull|Hwide]); fold r in Hwd |- *; [|exact Hwide].
  unfold Wide. rewrite Hwd. fold r in Hfull. rewrite Hfull.
  destruct Hok as (H0 & Hle & Hhi).
  destruct (narrow_facts lo hi byte Hle Hb) as (_ & _ & H3 & _).
  pose proof pow_rounds. pose proof (gp_base _ _ G).
  set (d := narrowHi lo hi byte - narrowLo lo hi byte) in *.
  assert (255 <= d) by lia.
  nia.
Qed.
End Engine.

(** ** The encoder and its digit values *)

Lemma charAt_symbolAt table k :
  0 <= k < jsLength table -> charAt table k = Some (symbolAt table k).
Proof.
  intros Hk. unfold symbolAt, charAt, jsLength in *.
  destruct (0 <=? k) eqn:E; [|lia].
  destruct (lookup_lt_is_Some_2 table (Z.to_nat k)) as [c Hc]; [lia|].
  rewrite Hc. reflexivity.
Qed.

Lemma symbolAt_elem table k :
  0 <= k < jsLength table -> symbolAt table k ∈ table.
Proof.
  intros Hk. pose proof (charAt_symbolAt table k Hk) as H.
  unfold charAt in H. destruct (0 <=? k); [|discriminate].
  eapply list_elem_of_lookup_2. exact H.
Qed.

Section EncodeCore.
Context {base : Z} {P : Params} (G : GoodParams base P).
Local Abbreviation M := (msdDivisor P).
Local Abbreviation S2 := (secondMsdDivisor P).

Lemma coreDigits_renorm n c :
  let r := renorm base P n (c_lo c) (c_hi c) in
  c_lo (coreDigits base P n c).2 = r.2.1
  /\ c_hi (coreDigits base P n c).2 = r.2.2.
Proof.
  revert c. induction n as [|n IH]; intros c; simpl; [auto|].
  destruct (action base P (c_lo c) (c_hi c)) as [a|] eqn:Ha; simpl; [|auto].
  specialize (IH (coreMove base P c a)).
  destruct (coreDigits base P n (coreMove base P c a)) as [out c'].
  replace (c_lo (coreMove base P c a)) with (moveV base P a (c_lo c)) in IH
    by (destruct a; reflexivity).
  replace (c_hi (coreMove base P c a)) with (moveV base P a (c_hi c)) in IH
    by (destruct a; reflexivity).
  destruct (renorm base P n _ _) as [acts r]. simpl in *. exact IH.
Qed.

Lemma msd_inBase lo hi :
  IntervalOk base P lo hi -> inBase base (hi / M).
Proof.
  intros (H0 & Hle & Hhi). pose proof (M_pos G). pose proof (base_pos G).
  split; [apply Z.div_pos; lia|].
  apply Z.div_lt_upper_bound; lia.
Qed.

Lemma coreEmit_inBase c a :
  IntervalOk base P (c_lo c) (c_hi c) ->
  Forall (inBase base) (coreEmit base P c a).
Proof.
  intros Hok. pose proof (gp_base _ _ G).
  destruct a; simpl; [|constructor].
  constructor; [eapply msd_inBase; eauto|].
  apply Forall_replicate. unfold inBase. destruct (_ =? _); lia.
Qed.

Lemma coreMove_ok c a :
  IntervalOk base P (c_lo c) (c_hi c) ->
  action base P (c_lo c) (c_hi c) = Some a ->
  IntervalOk base P (c_lo (coreMove base P c a)) (c_hi (coreMove base P c a)).
Proof.
  intros Hok Ha. destruct (move_facts G a _ _ Hok Ha) as [H _].
  destruct a; exact H.
Qed.

Lemma coreDigits_inBase n c :
  IntervalOk base P (c_lo c) (c_hi c) ->
  Forall (inBase base) (coreDigits base P n c).1.
Proof.
  revert c. induction n as [|n IH]; intros c Hok; simpl; [constructor|].
  destruct (action base P (c_lo c) (c_hi c)) as [a|] eqn:Ha; simpl; [|constructor].
  specialize (IH _ (coreMove_ok c a Hok Ha)).
  destruct (coreDigits base P n (coreMove base P c a)) as [out c'].
  simpl in *. apply Forall_app. split; [apply coreEmit_inBase; exact Hok | exact IH].
Qed.

Lemma coreInit_ok : CoreOk base P (coreInit P base).
Proof.
  pose proof (M_pos G). pose proof (gp_base _ _ G). pose proof (gp_M _ _ G).
  pose proof (gp_S _ _ G).
  unfold CoreOk, IntervalOk, Wide, coreInit. simpl. nia.
Qed.

Lemma coreNarrow_ok c byte :
  CoreOk base P c -> isByte byte ->
  IntervalOk base P (c_lo (coreNarrow c byte)) (c_hi (coreNarrow c byte)).
Proof.
  intros [Hok Hw] Hb. pose proof (gp_S _ _ G). unfold Wide in Hw.
  apply narrow_ok; auto. lia.
Qed.

Lemma coreByte_ok c byte :
  CoreOk base P c -> isByte byte ->
  CoreOk base P (coreByte base P c byte).2 /\ Forall (inBase base) (coreByte base P c byte).1.
Proof.
  intros Hc Hb. pose proof Hc as [Hok Hw]. unfold coreByte.
  split.
  - destruct (coreDigits_renorm (Z.to_nat (maxDigitsToEmit P)) (coreNarrow c byte))
      as [E1 E2].
    unfold CoreOk. rewrite E1, E2.
    apply (byte_step_ok G); assumption.
  - apply coreDigits_inBase. apply coreNarrow_ok; assumption.
Qed.

Lemma coreBytes_ok bytes : forall c,
  CoreOk base P c -> Forall isByte bytes ->
  CoreOk base P (coreBytes base P c bytes).2 /\ Forall (inBase base) (coreBytes base P c bytes).1.
Proof.
  induction bytes as [|x rest IH]; intros c Hc Hb; simpl.
  - split; [exact Hc | constructor].
  - inversion Hb as [|? ? Hx Hrest]; subst.
    destruct (coreByte_ok c x Hc Hx) as [Hc1 Ho1].
    destruct (coreByte base P c x) as [out1 c1]. simpl in *.
    specialize (IH c1 Hc1 Hrest).
    destruct (coreBytes base P c1 rest) as [out2 c2]. simpl in *.
    destruct IH as [Hc2 Ho2]. split; [exact Hc2|].
    apply Forall_app; auto.
Qed.

Lemma coreFinish_inBase c :
  CoreOk base P c -> Forall (inBase base) (coreFinish P c).
Proof.
  intros [Hok _]. pose proof (gp_base _ _ G). unfold coreFinish.
  constructor; [eapply msd_inBase; eauto|].
  apply Forall_replicate. unfold inBase. lia.
Qed.

Lemma encodeIndices_inBase bytes :
  Forall isByte bytes -> Forall (inBase base) (encodeIndices base P bytes).
Proof.
  intros Hb. unfold encodeIndices.
  destruct (coreBytes_ok bytes _ coreInit_ok Hb) as [Hc Ho].
  destruct (coreBytes base P (coreInit P base) bytes) as [out c].
  cbn [fst snd] in *.
  apply Forall_app. split; [exact Ho|].
  apply Forall_app. split; [apply coreFinish_inBase; exact Hc|].
  constructor; [|constructor].
  pose proof (gp_base _ _ G). unfold inBase, jsLength.
  rewrite Z.rem_mod_nonneg by lia.
  pose proof (Z.mod_pos_bound (Z.of_nat (length bytes)) 2 ltac:(lia)). lia.
Qed.
End EncodeCore.

(** ** [encode] computes the image of [encodeIndices] *)

Section EncodeRefine.
Context {base : Z} {P : Params} (G : GoodParams base P).
Context (table : list Z) (Htable : jsLength table = base).
Local Abbreviation M := (msdDivisor P).

Lemma encodeDigits_core n : forall r k c,
  IntervalOk base P (c_lo c) (c_hi c) ->
  encodeDigits table base P n (encOf r k c)
  = Some (encOf (r ++ (symbolAt table <$> (coreDigits base P n c).1)) k
            (coreDigits base P n c).2).
Proof.
  induction n as [|n IH]; intros r k c Hok.
  - simpl. rewrite app_nil_r. destruct c; reflexivity.
  - pose proof (gp_base _ _ G) as Hb.
    cbn [encodeDigits coreDigits]. unfold action.
    cbn [encOf enc_lo enc_hi result bytesEncoded digitsToAdd digitsToAddHiMsd].
    destruct (c_hi c / M - c_lo c / M =? 1) eqn:E1.
    + destruct (_ && _) eqn:E2.
      * pose proof (coreMove_ok G c Defer Hok) as Hok'.
        unfold action in Hok'. rewrite E1, E2 in Hok'.
        specialize (Hok' eq_refl).
        specialize (IH r k (coreMove base P c Defer) Hok').
        match goal with
        | |- context [encodeDigits table base P n ?st] =>
          change st with (encOf r k (coreMove base P c Defer))
        end.
        rewrite IH.
        destruct (coreDigits base P n (coreMove base P c Defer)) as [out c'].
        reflexivity.
      * simpl. rewrite app_nil_r. destruct c; reflexivity.
    + destruct (c_lo c / M =? c_hi c / M) eqn:E3.
      * pose proof (coreMove_ok G c Settle Hok) as Hok'.
        unfold action in Hok'. rewrite E1, E3 in Hok'.
        specialize (Hok' eq_refl).
        rewrite (charAt_symbolAt table (c_hi c / M))
          by (rewrite Htable; eapply (msd_inBase G); eauto).
        cbn [add].
        set (ch := if c_hi c / M =? c_ref c then 0 else base - 1).
        assert (Hch : charAt table ch = Some (symbolAt table ch)).
        { apply charAt_symbolAt. rewrite Htable. unfold ch.
          destruct (c_hi c / M =? c_ref c); lia. }
        set (r' := (r ++ [symbolAt table (c_hi c / M)])
                   ++ replicate (c_pending c) (symbolAt table ch)).
        assert (Hr2 :
          match c_pending c with
          | O => Some (r ++ [symbolAt table (c_hi c / M)])
          | S _ =>
            match charAt table ch with
            | Some charToAdd =>
              Some ((r ++ [symbolAt table (c_hi c / M)])
                    ++ replicate (c_pending c) charToAdd)
            | None => None
            end
          end = Some r').
        { unfold r'. rewrite Hch.
          destruct (c_pending c); [simpl; rewrite app_nil_r|]; reflexivity. }
        rewrite Hr2.
        specialize (IH r' k (coreMove base P c Settle) Hok').
        match goal with
        | |- context [encodeDigits table base P n ?st] =>
          change st with (encOf r' k (coreMove base P c Settle))
        end.
        rewrite IH.
        destruct (coreDigits base P n (coreMove base P c Settle)) as [out c'].
        cbn [fst snd coreEmit]. fold ch.
        f_equal. f_equal. unfold r'.
        rewrite fmap_app, fmap_cons, fmap_replicate.
        rewrite <- !app_assoc. reflexivity.
      * simpl. rewrite app_nil_r. destruct c; reflexivity.
Qed.

Lemma encodeByte_core r k c byte :
  CoreOk base P c -> isByte byte ->
  encodeByte table base P (encOf r k c) byte
  = Some (encOf (r ++ (symbolAt table <$> (coreByte base P c byte).1)) (k + 1)
            (coreByte base P c byte).2).
Proof.
  intros Hc Hb. unfold encodeByte.
  cbn [encOf enc_lo enc_hi result bytesEncoded digitsToAdd digitsToAddHiMsd].
  pose proof (encodeDigits_core (Z.to_nat (maxDigitsToEmit P)) r k
                (coreNarrow c byte) (coreNarrow_ok G c byte Hc Hb)) as H.
  match goal with
  | |- context [encodeDigits table base P _ ?st] =>
    change st with (encOf r k (coreNarrow c byte))
  end.
  rewrite H. reflexivity.
Qed.

Lemma encodeBytes_core bytes : forall r k c,
  CoreOk base P c -> Forall isByte bytes ->
  encodeBytes table base P (encOf r k c) bytes
  = Some (encOf (r ++ (symbolAt table <$> (coreBytes base P c bytes).1))
            (k + jsLength bytes) (coreBytes base P c bytes).2).
Proof.
  induction bytes as [|x rest IH]; intros r k c Hc Hb.
  - cbn [encodeBytes coreBytes fst snd fmap list_fmap]. rewrite app_nil_r.
    unfold jsLength. cbn [length].
    replace (k + Z.of_nat 0) with k by lia. reflexivity.
  - apply Forall_cons in Hb as [Hx Hrest].
    cbn [encodeBytes coreBytes].
    rewrite (encodeByte_core r k c x Hc Hx).
    destruct (coreByte_ok G c x Hc Hx) as [Hc1 _].
    destruct (coreByte base P c x) as [out1 c1]. cbn [fst snd] in *.
    rewrite (IH _ _ c1 Hc1 Hrest).
    destruct (coreBytes base P c1 rest) as [out2 c2]. cbn [fst snd].
    rewrite fmap_app, app_assoc.
    unfold jsLength. cbn [length].
    replace (k + 1 + Z.of_nat (length rest)) with (k + Z.of_nat (S (length rest))) by lia.
    reflexivity.
Qed.

Lemma encodeFinish_core r c k :
  CoreOk base P c -> 0 <= k ->
  encodeFinish table P (encOf r k c)
  = Some (r ++ (symbolAt table <$> (coreFinish P c ++ [Z.rem k 2]))).
Proof.
  intros [Hok _] Hk. pose proof (gp_base _ _ G) as Hb.
  unfold encodeFinish, coreFinish.
  cbn [encOf enc_lo enc_hi result bytesEncoded digitsToAdd digitsToAddHiMsd].
  rewrite (charAt_symbolAt table (c_hi c / M))
    by (rewrite Htable; eapply (msd_inBase G); eauto).
  cbn [add].
  assert (H0 : charAt table 0 = Some (symbolAt table 0))
    by (apply charAt_symbolAt; lia).
  assert (Hp : charAt table (Z.rem k 2) = Some (symbolAt table (Z.rem k 2))).
  { apply charAt_symbolAt. rewrite Z.rem_mod_nonneg by lia.
    pose proof (Z.mod_pos_bound k 2 ltac:(lia)). lia. }
  rewrite Hp, H0.
  assert (Hr2 :
    match c_pending c with
    | O => Some (r ++ [symbolAt table (c_hi c / M)])
    | S _ => Some ((r ++ [symbolAt table (c_hi c / M)])
                   ++ replicate (c_pending c) (symbolAt table 0))
    end = Some ((r ++ [symbolAt table (c_hi c / M)])
                ++ replicate (c_pending c) (symbolAt table 0))).
  { destruct (c_pending c); [simpl; rewrite app_nil_r|]; reflexivity. }
  rewrite Hr2. cbn [add]. f_equal.
  rewrite fmap_app, fmap_cons, fmap_replicate. cbn [fmap list_fmap].
  rewrite <- !app_assoc. reflexivity.
Qed.
End EncodeRefine.

(** [encode] on a configured alphabet and on bytes returns the symbols of
    [encodeIndices]. *)
Lemma encode_indices alphabet bytes :
  2 <= jsLength alphabet <= 256 -> Forall isByte bytes ->
  exists P,
    calculateParams (jsLength alphabet) = Some P
    /\ GoodParams (jsLength alphabet) P
    /\ encode (mkEncoder alphabet) bytes
       = Some (symbolAt alphabet <$> (encodeIndices (jsLength alphabet) P bytes)).
Proof.
  intros Hlen Hb.
  destruct (calculateParams_good _ Hlen) as (P & HP & G).
  exists P. split; [exact HP|]. split; [exact G|].
  unfold encode. cbn [encodingTable]. rewrite HP.
  change (encInit P (jsLength alphabet))
    with (encOf [] 0 (coreInit P (jsLength alphabet))).
  rewrite (encodeBytes_core G alphabet eq_refl bytes [] 0 _ (coreInit_ok G) Hb).
  destruct (coreBytes_ok G bytes _ (coreInit_ok G) Hb) as [Hc _].
  unfold encodeIndices.
  destruct (coreBytes (jsLength alphabet) P (coreInit P (jsLength alphabet)) bytes)
    as [out c]. cbn [fst snd] in *.
  rewrite (encodeFinish_core G alphabet eq_refl _ c _ Hc) by (unfold jsLength; lia).
  rewrite app_nil_l, Z.add_0_l, !fmap_app. reflexivity.
Qed.

(** ** Numbers written by digit lists *)

Section Digits.
Context (base : Z) (Hbase : 2 <= base).

Lemma num_snoc l d : num base (l ++ [d]) = num base l * base + d.
Proof. unfold num. rewrite fold_left_app. reflexivity. Qed.

Lemma num_nil : num base [] = 0.
Proof. reflexivity. Qed.

Lemma num_bounds l :
  Forall (inBase base) l -> 0 <= num base l < base ^ Z.of_nat (length l).
Proof.
  induction l as [|d l IH] using rev_ind; intros H.
  - simpl. unfold num. simpl. lia.
  - apply Forall_app in H as [Hl Hd]. apply Forall_inv in Hd.
    specialize (IH Hl). rewrite num_snoc, length_app. simpl.
    replace (Z.of_nat (length l + 1)) with (Z.succ (Z.of_nat (length l))) by lia.
    rewrite Z.pow_succ_r by lia. unfold inBase in Hd.
    set (pw := base ^ Z.of_nat (length l)) in *.
    assert ((num base l + 1) * base <= pw * base)
      by (apply Z.mul_le_mono_nonneg_r; lia).
    assert (0 <= num base l * base) by (apply Z.mul_nonneg_nonneg; lia).
    lia.
Qed.

Lemma num_cons d l :
  num base (d :: l) = d * base ^ Z.of_nat (length l) + num base l.
Proof.
  induction l as [|e l IH] using rev_ind.
  - unfold num. simpl. lia.
  - rewrite app_comm_cons, !num_snoc, IH, length_app. simpl.
    replace (Z.of_nat (length l + 1)) with (Z.succ (Z.of_nat (length l))) by lia.
    rewrite Z.pow_succ_r by lia. ring.
Qed.

Lemma length_padTake n l : length (padTake n l) = n.
Proof.
  unfold padTake. rewrite length_take, length_app, length_replicate. lia.
Qed.

Lemma padTake_nil n : padTake n [] = replicate n 0.
Proof. unfold padTake. simpl. apply take_ge. rewrite length_replicate. lia. Qed.

Lemma padTake_cons n d l : padTake (S n) (d :: l) = d :: padTake n l.
Proof.
  unfold padTake. simpl. f_equal.
  rewrite (replicate_cons_app n 0), app_assoc.
  rewrite take_app_le; [reflexivity|].
  rewrite length_app, length_replicate. lia.
Qed.

Lemma padTake_S_hd n l : padTake (S n) l = hd 0 l :: padTake n (drop 1 l).
Proof.
  destruct l as [|d l].
  - rewrite !padTake_nil. reflexivity.
  - rewrite padTake_cons. simpl. rewrite drop_0. reflexivity.
Qed.

Lemma digitAt_nil k : digitAt [] k = 0.
Proof. unfold digitAt. destruct k; reflexivity. Qed.

Lemma padTake_S_snoc n l : padTake (S n) l = padTake n l ++ [digitAt l n].
Proof.
  revert l. induction n as [|n IH]; intros l.
  - destruct l as [|d l]; reflexivity.
  - destruct l as [|d l].
    + rewrite !padTake_nil. rewrite digitAt_nil.
      rewrite <- replicate_S_end. reflexivity.
    + rewrite !padTake_cons, IH. reflexivity.
Qed.

Lemma padTake_inBase n l :
  Forall (inBase base) l -> Forall (inBase base) (padTake n l).
Proof.
  intros H. unfold padTake. apply Forall_take. apply Forall_app. split; [exact H|].
  apply Forall_replicate. unfold inBase. lia.
Qed.

Lemma digitAt_inBase l k :
  Forall (inBase base) l -> inBase base (digitAt l k).
Proof.
  intros H. unfold digitAt.
  destruct (nth_in_or_default k l 0) as [Hin|Hd].
  - rewrite Forall_forall in H. apply H. apply list_elem_of_In. exact Hin.
  - rewrite Hd. unfold inBase. lia.
Qed.

Lemma digitAt_drop l j k : digitAt (drop j l) k = digitAt l (j + k).
Proof.
  unfold digitAt. revert l. induction j as [|j IH]; intros l.
  - rewrite drop_0. reflexivity.
  - destruct l as [|d l]; [destruct k; reflexivity|]. simpl. apply IH.
Qed.

Lemma hd_drop l j : hd 0 (drop j l) = digitAt l j.
Proof.
  unfold digitAt. revert l. induction j as [|j IH]; intros l.
  - rewrite drop_0. destruct l; reflexivity.
  - destruct l as [|d l]; [reflexivity|]. simpl. apply IH.
Qed.
End Digits.

(** ** The window of a stream *)

Section Window.
Context {base : Z} {P : Params} (G : GoodParams base P).
Local Abbreviation M := (msdDivisor P).
Local Abbreviation S2 := (secondMsdDivisor P).
Local Abbreviation N := (Z.to_nat (maxDigitsToDecode P)).

Lemma N_ge : (5 <= N)%nat.
Proof. pose proof (gp_N _ _ G). lia. Qed.

Lemma M_pow : M = base ^ Z.of_nat (N - 1).
Proof.
  pose proof (gp_N _ _ G). rewrite (gp_Mpow _ _ G). f_equal. lia.
Qed.

Lemma S2_pow : S2 = base ^ Z.of_nat (N - 2).
Proof.
  pose proof N_ge. pose proof (gp_M _ _ G) as HM. pose proof (base_pos G).
  rewrite M_pow in HM.
  replace (Z.of_nat (N - 1)) with (Z.succ (Z.of_nat (N - 2))) in HM by lia.
  rewrite Z.pow_succ_r in HM by lia. nia.
Qed.

Lemma window_zero F : window base P F 0 = num base (padTake N F).
Proof.
  pose proof N_ge. unfold window.
  replace N with (S (N - 1)) at 2 by lia.
  rewrite padTake_S_hd, num_cons, length_padTake, <- M_pow. reflexivity.
Qed.

(** The window without its last digit, and that digit. *)
Lemma window_zero_split F :
  Forall (inBase base) F ->
  window base P F 0
  = num base (padTake (N - 1) F) * base + digitAt F (N - 1)
  /\ 0 <= num base (padTake (N - 1) F) < M
  /\ inBase base (digitAt F (N - 1)).
Proof.
  intros HF. pose proof N_ge. pose proof (gp_base _ _ G) as Hb.
  rewrite window_zero.
  replace N with (S (N - 1)) at 1 by lia.
  rewrite padTake_S_snoc, num_snoc.
  split; [reflexivity|]. split.
  - pose proof (num_bounds base ltac:(lia) (padTake (N - 1) F)
                  (padTake_inBase base ltac:(lia) _ _ HF)) as Hn.
    rewrite length_padTake, <- M_pow in Hn. exact Hn.
  - apply digitAt_inBase; [lia | exact HF].
Qed.

Lemma window_after_prefix pre F p :
  length pre = S p ->
  window base P (pre ++ F) p = hd 0 pre * M + num base (padTake (N - 1) F).
Proof.
  intros Hlen. unfold window.
  rewrite drop_app_length' by (symmetry; exact Hlen).
  destruct pre; [discriminate|]. reflexivity.
Qed.

(** The window with [p] and with [p + 1] deferred digits skipped. *)
Lemma window_split F p :
  Forall (inBase base) F ->
  exists A,
    0 <= A < S2
    /\ window base P F p = hd 0 F * M + digitAt F (S p) * S2 + A
    /\ window base P F (S p) = hd 0 F * M + A * base + digitAt F (p + N).
Proof.
  intros HF. pose proof N_ge. pose proof (gp_base _ _ G) as Hb.
  exists (num base (padTake (N - 2) (drop (S (S p)) F))).
  split; [|split].
  - pose proof (num_bounds base ltac:(lia) (padTake (N - 2) (drop (S (S p)) F))) as Hn.
    rewrite length_padTake, <- S2_pow in Hn. apply Hn.
    apply padTake_inBase; [lia|]. apply Forall_drop. exact HF.
  - unfold window.
    replace (N - 1)%nat with (S (N - 2)) by lia.
    rewrite padTake_S_hd, num_cons, length_padTake, <- S2_pow.
    rewrite hd_drop, drop_drop.
    replace (S p + 1)%nat with (S (S p)) by lia. ring.
  - unfold window.
    replace (N - 1)%nat with (S (N - 2)) by lia.
    rewrite padTake_S_snoc, num_snoc, digitAt_drop.
    replace (S (S p) + (N - 2))%nat with (p + N)%nat by lia. ring.
Qed.

Lemma window_bounds F p :
  Forall (inBase base) F ->
  0 <= num base (padTake (N - 1) (drop (S p) F)) < M.
Proof.
  intros HF. pose proof (gp_base _ _ G) as Hb.
  pose proof (num_bounds base ltac:(lia) (padTake (N - 1) (drop (S p) F))) as Hn.
  rewrite length_padTake, <- M_pow in Hn. apply Hn.
  apply padTake_inBase; [lia|]. apply Forall_drop. exact HF.
Qed.

Lemma window_div F p :
  Forall (inBase base) F -> window base P F p / M = hd 0 F.
Proof.
  intros HF. pose proof (window_bounds F p HF). pose proof (M_pos G).
  unfold window. symmetry.
  apply (Z.div_unique _ _ _ (num base (padTake (N - 1) (drop (S p) F)))); lia.
Qed.

Lemma window_mod F p :
  Forall (inBase base) F ->
  window base P F p mod M = num base (padTake (N - 1) (drop (S p) F)).
Proof.
  intros HF. pose proof (window_bounds F p HF). pose proof (M_pos G).
  unfold window. symmetry.
  apply (Z.mod_unique _ _ (hd 0 F)); lia.
Qed.

(** Reading a digit after a settled one: the window moves past the
    leading digit and the deferred ones. *)
Lemma window_shift F p :
  Forall (inBase base) F ->
  window base P F p mod M * base + digitAt F (p + N)
  = window base P (drop (S p) F) 0.
Proof.
  intros HF. pose proof N_ge.
  rewrite window_mod by exact HF. rewrite window_zero.
  replace N with (S (N - 1)) at 3 by lia.
  rewrite padTake_S_snoc, num_snoc, digitAt_drop.
  replace (S p + (N - 1))%nat with (p + N)%nat by lia. reflexivity.
Qed.

(** Reading a digit after a deferred one: the leading digit stays and one
    more digit is skipped. *)
Lemma window_keep F p :
  Forall (inBase base) F ->
  window base P F p / M * M + window base P F p mod S2 * base
    + digitAt F (p + N)
  = window base P F (S p).
Proof.
  intros HF. pose proof (S2_pos G). pose proof (gp_M _ _ G) as HM.
  rewrite window_div by exact HF.
  destruct (window_split F p HF) as (A & HA & E1 & E2).
  rewrite E2. f_equal. f_equal. f_equal.
  rewrite E1. symmetry.
  apply (Z.mod_unique _ _ (hd 0 F * base + digitAt F (S p))); [lia|].
  rewrite HM. ring.
Qed.
End Window.

(** ** The text the encoder goes on to write lies in its interval *)

Lemma num_replicate_zero base n : num base (replicate n 0) = 0.
Proof.
  induction n as [|n IH]; [reflexivity|].
  rewrite replicate_S_end, num_snoc, IH. lia.
Qed.

Lemma take_replicate_digit (l : list Z) p v :
  take (S p) l = replicate (S p) v ->
  digitAt l p = v /\ take p l = replicate p v.
Proof.
  intros H. split.
  - assert (Hl : take (S p) l !! p = Some v).
    { rewrite H. apply lookup_replicate_2. lia. }
    rewrite lookup_take_lt in Hl by lia.
    unfold digitAt. apply nth_lookup_Some with (d := 0) in Hl. exact Hl.
  - assert (Ht : take p (take (S p) l) = take p l).
    { rewrite take_take. f_equal. lia. }
    rewrite <- Ht, H, take_replicate. f_equal. lia.
Qed.

Section FitsSteps.
Context {base : Z} {P : Params} (G : GoodParams base P).
Local Abbreviation M := (msdDivisor P).
Local Abbreviation S2 := (secondMsdDivisor P).
Local Abbreviation N := (Z.to_nat (maxDigitsToDecode P)).

Lemma fits_final c : Boundary base P c -> Fits base P c (coreFinish P c).
Proof.
  intros (Hc & Hnorm & Hpend). pose proof Hc as [(H0 & Hle & Hhi) Hw].
  pose proof (M_pos G).
  unfold Fits, coreFinish. split; [|split; [|split]].
  - apply (coreFinish_inBase G c Hc).
  - simpl. rewrite length_replicate. lia.
  - unfold window. rewrite drop_ge by (simpl; rewrite length_replicate; lia).
    rewrite padTake_nil, num_replicate_zero. cbn [hd].
    assert (Hd : c_lo c / M <= c_hi c / M) by (apply Z.div_le_mono; lia).
    pose proof (Z.div_mod (c_lo c) M ltac:(lia)).
    pose proof (Z.div_mod (c_hi c) M ltac:(lia)).
    pose proof (Z.mod_pos_bound (c_lo c) M ltac:(lia)).
    pose proof (Z.mod_pos_bound (c_hi c) M ltac:(lia)).
    rewrite (Z.mul_comm (c_hi c / M) M).
    destruct Hnorm as [Hn|[Hn _]].
    + assert (M * (c_lo c / M + 1) <= M * (c_hi c / M))
        by (apply Z.mul_le_mono_nonneg_l; lia).
      lia.
    + assert (M * (c_lo c / M) <= M * (c_hi c / M))
        by (apply Z.mul_le_mono_nonneg_l; lia).
      lia.
  - intros Hp. left. destruct (Hpend Hp) as [_ Hr]. cbn [hd].
    split; [exact Hr|].
    cbn [drop]. rewrite drop_0.
    apply take_ge. rewrite length_replicate. lia.
Qed.

Lemma pending_move c a :
  IntervalOk base P (c_lo c) (c_hi c) ->
  action base P (c_lo c) (c_hi c) = Some a ->
  PendingOk P (coreMove base P c a).
Proof.
  intros Hok Ha Hp. pose proof Hok as (H0 & Hle & Hhi).
  destruct a; simpl in *; [lia|].
  apply (action_defer G) in Ha; try lia. destruct Ha as (Ha1 & Ha2 & Ha3).
  destruct (defer_facts G _ _ Hok Ha1 Ha2 Ha3) as (_ & _ & E1 & E2).
  rewrite E1, E2. lia.
Qed.

Lemma fits_settle c F' :
  IntervalOk base P (c_lo c) (c_hi c) -> PendingOk P c ->
  action base P (c_lo c) (c_hi c) = Some Settle ->
  Fits base P (coreMove base P c Settle) F' ->
  Fits base P c (coreEmit base P c Settle ++ F').
Proof.
  intros Hok Hpend Ha (HF & Hlen & Hwin & _).
  pose proof Hok as (H0 & Hle & Hhi). pose proof (M_pos G).
  pose proof (gp_base _ _ G) as Hb.
  apply action_settle in Ha; try lia.
  cbn [coreMove c_lo c_hi c_pending] in Hwin.
  assert (Hemit : length (coreEmit base P c Settle) = S (c_pending c))
    by (simpl; rewrite length_replicate; reflexivity).
  split; [|split; [|split]].
  - apply Forall_app. split; [apply (coreEmit_inBase G); exact Hok | exact HF].
  - rewrite length_app, Hemit. lia.
  - rewrite (window_after_prefix _ _ (c_pending c) Hemit). cbn [coreEmit hd].
    destruct (window_zero_split G F' HF) as (E & HA & Hd).
    rewrite E in Hwin. unfold settleV in Hwin.
    rewrite !(rem_mod) in Hwin by lia.
    set (A := num base (padTake (N - 1) F')) in *.
    pose proof (Z.div_mod (c_lo c) M ltac:(lia)).
    pose proof (Z.div_mod (c_hi c) M ltac:(lia)).
    unfold inBase in Hd. destruct Hwin as [Hw1 Hw2].
    apply scaled_le_l in Hw1; [|lia|lia].
    apply scaled_le_r in Hw2; [|lia|lia].
    rewrite <- Ha in *. lia.
  - intros Hp. destruct (Hpend Hp) as [Hp1 Hp2]. cbn [coreEmit].
    cbn [app hd drop]. rewrite drop_0.
    rewrite take_app_length' by (rewrite length_replicate; reflexivity).
    destruct (c_hi c / M =? c_ref c) eqn:E; [left | right]; split; auto; lia.
Qed.

Lemma fits_defer c F :
  IntervalOk base P (c_lo c) (c_hi c) -> PendingOk P c ->
  action base P (c_lo c) (c_hi c) = Some Defer ->
  Fits base P (coreMove base P c Defer) F ->
  Fits base P c F.
Proof.
  intros Hok Hpend Ha (HF & Hlen & Hwin & Hpd).
  pose proof Hok as (H0 & Hle & Hhi). pose proof (M_pos G).
  pose proof (S2_pos G). pose proof (gp_base _ _ G) as Hb.
  pose proof (gp_M _ _ G) as HM.
  apply (action_defer G) in Ha; try lia. destruct Ha as (Ha1 & Ha2 & Ha3).
  cbn [coreMove c_lo c_hi c_pending c_ref] in Hwin, Hlen, Hpd.
  specialize (Hpd ltac:(lia)).
  destruct (window_split G F (c_pending c) HF) as (A & HA & E1 & E2).
  pose proof (digitAt_inBase base ltac:(lia) F (c_pending c + N) HF) as Hd.
  unfold inBase in Hd.
  rewrite E2 in Hwin. unfold deferV in Hwin. rewrite !rem_mod in Hwin by lia.
  pose proof (split3 G (c_lo c)) as Hl. pose proof (split3 G (c_hi c)) as Hh.
  rewrite Ha2 in Hl. rewrite Ha3 in Hh.
  pose proof (Z.mod_pos_bound (c_lo c) S2 ltac:(lia)).
  pose proof (Z.mod_pos_bound (c_hi c) S2 ltac:(lia)).
  assert (Hdig : (hd 0 F = c_hi c / M /\ digitAt F (S (c_pending c)) = 0
                  /\ take (c_pending c) (drop 1 F) = replicate (c_pending c) 0)
                 \/ (hd 0 F = c_hi c / M - 1
                     /\ digitAt F (S (c_pending c)) = base - 1
                     /\ take (c_pending c) (drop 1 F)
                        = replicate (c_pending c) (base - 1))).
  { destruct Hpd as [[Hh1 Ht]|[Hh1 Ht]];
      apply take_replicate_digit in Ht; destruct Ht as [Ht1 Ht2];
      rewrite digitAt_drop in Ht1; [left | right]; auto. }
  split; [exact HF|]. split; [lia|]. split.
  - rewrite E1. rewrite Ha1 in *. destruct Hwin as [Hw1 Hw2].
    assert (HSb : (base - 1) * S2 = M - S2) by (rewrite HM; ring).
    destruct Hdig as [(Hh1 & Hd1 & _)|(Hh1 & Hd1 & _)];
      rewrite Hh1, Hd1 in *.
    + assert (A <= c_hi c mod S2)
        by (apply (scaled_le_r base _ _ (digitAt F (c_pending c + N))); lia).
      lia.
    + assert (c_lo c mod S2 <= A)
        by (apply (scaled_le_l base _ _ (digitAt F (c_pending c + N))); lia).
      replace (c_lo c / M + 1 - 1) with (c_lo c / M) by lia. lia.
  - intros Hp. destruct (Hpend Hp) as [Hp1 Hp2].
    assert (c_ref c = c_hi c / M) by lia.
    destruct Hdig as [(Hh1 & _ & Ht)|(Hh1 & _ & Ht)]; [left | right];
      split; auto; lia.
Qed.

Lemma fits_digits n : forall c F',
  IntervalOk base P (c_lo c) (c_hi c) -> PendingOk P c ->
  Fits base P (coreDigits base P n c).2 F' ->
  Fits base P c ((coreDigits base P n c).1 ++ F').
Proof.
  induction n as [|n IH]; intros c F' Hok Hpend HF; simpl in *; [exact HF|].
  destruct (action base P (c_lo c) (c_hi c)) as [a|] eqn:Ha; [|exact HF].
  pose proof (coreMove_ok G c a Hok Ha) as Hok'.
  pose proof (pending_move c a Hok Ha) as Hpend'.
  specialize (IH (coreMove base P c a) F' Hok' Hpend').
  destruct (coreDigits base P n (coreMove base P c a)) as [out c'].
  cbn [fst snd] in *. specialize (IH HF).
  destruct a.
  - rewrite <- app_assoc. apply fits_settle; assumption.
  - cbn [coreEmit app]. apply fits_defer; assumption.
Qed.

Lemma fits_narrow c byte F :
  c_lo c <= c_hi c -> isByte byte ->
  Fits base P (coreNarrow c byte) F -> Fits base P c F.
Proof.
  intros Hle Hb (HF & Hlen & Hwin & Hpd).
  destruct (narrow_facts (c_lo c) (c_hi c) byte Hle Hb) as (H1 & H2 & _).
  cbn [coreNarrow c_lo c_hi c_pending c_ref] in *.
  repeat split; auto; lia.
Qed.

Lemma pending_narrow c byte :
  Boundary base P c -> isByte byte -> PendingOk P (coreNarrow c byte).
Proof.
  intros (Hc & _ & Hpend) Hb Hp. pose proof Hc as [(H0 & Hle & Hhi) Hw].
  cbn [coreNarrow c_lo c_hi c_pending c_ref] in *.
  destruct (Hpend Hp) as [E1 E2]. pose proof (M_pos G).
  pose proof (gp_S _ _ G). unfold Wide in Hw.
  destruct (narrow_facts (c_lo c) (c_hi c) byte Hle Hb) as (N1 & N2 & N3 & _).
  assert (c_lo c / M <= narrowLo (c_lo c) (c_hi c) byte / M)
    by (apply Z.div_le_mono; lia).
  assert (narrowHi (c_lo c) (c_hi c) byte / M <= c_hi c / M)
    by (apply Z.div_le_mono; lia).
  lia.
Qed.
End FitsSteps.

(** ** The state between two bytes *)

Lemma divide_mod_r q a m : (q | a) -> (q | m) -> (q | a mod m).
Proof.
  intros Ha Hm. destruct (Z.eq_dec m 0) as [->|Hm0].
  - rewrite Z.mod_0_r. exact Ha.
  - rewrite Z.mod_eq by exact Hm0.
    apply Z.divide_sub_r; [exact Ha|]. apply Z.divide_mul_l. exact Hm.
Qed.

(** After a full run of settled digits from an interval that was wide, the
    two ends either differ in their leading digit or the low end has
    nothing below it. *)
Lemma norm_arith base S2 M BK BE Q lo hi d0 m :
  2 <= base -> M = S2 * base -> 65536 <= S2 ->
  BK = 256 \/ 289 <= BK -> BE = base * BK -> M = BE * Q ->
  (BE | lo) -> (BE | hi) -> hi - lo = d0 * BE -> S2 - 509 <= 256 * d0 ->
  M * m <= lo -> lo <= hi -> hi < M * (m + 1) ->
  lo = M * m.
Proof.
  intros Hb HM HS Hgap HBE HMQ [u Hu] [v Hv] Hw Hd Hm1 Hle Hm2.
  assert (HBEpos : 0 < BE) by (destruct Hgap; nia).
  assert (HSQ : S2 = BK * Q).
  { apply (Z.mul_cancel_r _ _ base); [lia|]. rewrite <- HM, HMQ, HBE. ring. }
  assert (HQ : 0 < Q) by (destruct Hgap; nia).
  subst lo hi.
  assert (Hvu : v - u = d0).
  { apply (Z.mul_cancel_r _ _ BE); [lia|]. rewrite <- Hw. ring. }
  assert (Hu1 : Q * m <= u).
  { apply (Z.mul_le_mono_pos_l _ _ BE); [lia|].
    rewrite Z.mul_assoc, <- HMQ. lia. }
  assert (Hv1 : v < Q * (m + 1)).
  { apply (Z.mul_lt_mono_pos_l BE); [lia|].
    rewrite Z.mul_assoc, <- HMQ. lia. }
  assert (Hum : u = Q * m).
  { destruct Hgap as [E|E].
    - subst BK. lia.
    - exfalso. assert (289 * Q <= BK * Q) by (apply Z.mul_le_mono_nonneg_r; lia).
      lia. }
  rewrite Hum, HMQ. ring.
Qed.

Section BoundaryStep.
Context {base : Z} {P : Params} (G : GoodParams base P).
Local Abbreviation M := (msdDivisor P).
Local Abbreviation S2 := (secondMsdDivisor P).

Lemma move_divide q a v :
  0 <= v -> (q * base | M) -> (q | v) -> (q * base | moveV base P a v).
Proof.
  intros Hv HqM Hq. pose proof (M_pos G). pose proof (S2_pos G).
  pose proof (base_pos G).
  assert (HqM' : (q | M)).
  { eapply Z.divide_trans; [|exact HqM]. apply Z.divide_mul_l, Z.divide_refl. }
  assert (HqS : (q | S2)).
  { apply (Z.mul_divide_cancel_r _ _ base); [lia|].
    rewrite <- (gp_M _ _ G). exact HqM. }
  destruct a; simpl; unfold settleV, deferV; rewrite !rem_mod by lia.
  - apply Z.mul_divide_mono_r. apply divide_mod_r; assumption.
  - apply Z.divide_add_r.
    + apply Z.divide_mul_r. exact HqM.
    + apply Z.mul_divide_mono_r. apply divide_mod_r; assumption.
Qed.

Lemma digits_norm n : forall c q,
  IntervalOk base P (c_lo c) (c_hi c) -> 0 < q ->
  (q * base ^ Z.of_nat n | M) -> (q | c_lo c) -> (q | c_hi c) ->
  let c' := (coreDigits base P n c).2 in
  c_lo c' / M < c_hi c' / M
  \/ ((q * base ^ Z.of_nat n | c_lo c')
      /\ (q * base ^ Z.of_nat n | c_hi c')
      /\ c_hi c' - c_lo c' = (c_hi c - c_lo c) * base ^ Z.of_nat n
      /\ ((0 < n)%nat -> c_pending c' = O)).
Proof.
  induction n as [|n IH]; intros c q Hok Hq HqM Hlo Hhi.
  - right. simpl. rewrite Z.mul_1_r. repeat split; auto; lia.
  - pose proof Hok as (H0 & Hle & Hhi'). pose proof (base_pos G).
    replace (Z.of_nat (S n)) with (Z.succ (Z.of_nat n)) in * by lia.
    rewrite Z.pow_succ_r in * by lia.
    cbn [coreDigits].
    destruct (action base P (c_lo c) (c_hi c)) as [a|] eqn:Ha.
    + destruct (move_facts G a _ _ Hok Ha) as (Hok' & Hw).
      assert (HqM1 : (q * base | M)).
      { eapply Z.divide_trans; [|exact HqM].
        rewrite Z.mul_assoc. apply Z.divide_mul_l, Z.divide_refl. }
      pose proof (move_divide q a (c_lo c) H0 HqM1 Hlo) as Hlo'.
      pose proof (move_divide q a (c_hi c) ltac:(lia) HqM1 Hhi) as Hhi''.
      specialize (IH (coreMove base P c a) (q * base)).
      assert (El : c_lo (coreMove base P c a) = moveV base P a (c_lo c))
        by (destruct a; reflexivity).
      assert (Eh : c_hi (coreMove base P c a) = moveV base P a (c_hi c))
        by (destruct a; reflexivity).
      rewrite El, Eh in IH.
      specialize (IH Hok' ltac:(lia)).
      rewrite <- Z.mul_assoc in IH. specialize (IH HqM Hlo' Hhi'').
      destruct (coreDigits base P n (coreMove base P c a)) as [out c'] eqn:Ec.
      cbn [fst snd] in *.
      destruct IH as [IH|(I1 & I2 & I3 & I4)]; [left; exact IH|].
      destruct n as [|n].
      * simpl in Ec. inversion Ec; subst c'. clear Ec.
        destruct a.
        -- right. rewrite El, Eh, Hw. simpl. rewrite Z.mul_1_r in *.
           repeat split; auto.
        -- left. rewrite El, Eh. simpl.
           apply (action_defer G) in Ha; try lia. destruct Ha as (A1 & A2 & A3).
           destruct (defer_facts G _ _ Hok A1 A2 A3) as (_ & _ & E1 & E2).
           rewrite E1, E2. lia.
      * right. repeat split; auto.
        -- rewrite I3, Hw. ring.
        -- intros _. apply I4. lia.
    + left. cbn [fst snd]. apply (action_none G) in Ha; try lia.
Qed.

Lemma pending_digits n : forall c,
  IntervalOk base P (c_lo c) (c_hi c) -> PendingOk P c ->
  PendingOk P (coreDigits base P n c).2.
Proof.
  induction n as [|n IH]; intros c Hok Hp; simpl; [exact Hp|].
  destruct (action base P (c_lo c) (c_hi c)) as [a|] eqn:Ha; [|exact Hp].
  specialize (IH _ (coreMove_ok G c a Hok Ha) (pending_move G c a Hok Ha)).
  destruct (coreDigits base P n (coreMove base P c a)). exact IH.
Qed.

Lemma boundary_init : Boundary base P (coreInit P base).
Proof.
  split; [apply (coreInit_ok G)|]. split.
  - left. unfold coreInit. simpl. pose proof (M_pos G).
    pose proof (gp_base _ _ G).
    rewrite Z.div_small by lia.
    assert (1 <= (M * base - 1) / M); [|lia].
    apply Z.div_le_lower_bound; nia.
  - simpl. lia.
Qed.

Lemma boundary_step c byte :
  Boundary base P c -> isByte byte -> Boundary base P (coreByte base P c byte).2.
Proof.
  intros HB Hb. pose proof HB as (Hc & Hnorm & Hpend).
  pose proof Hc as [Hok Hw]. pose proof Hok as (H0 & Hle & Hhi).
  destruct (coreByte_ok G c byte Hc Hb) as [Hc' _].
  pose proof (coreNarrow_ok G c byte Hc Hb) as Hok0.
  pose proof (pending_narrow G c byte HB Hb) as Hp0.
  pose proof (pending_digits (Z.to_nat (maxDigitsToEmit P)) _ Hok0 Hp0) as Hp'.
  pose proof (gp_E _ _ G) as HE. pose proof (base_pos G). pose proof (M_pos G).
  assert (HdivM : (1 * base ^ Z.of_nat (Z.to_nat (maxDigitsToEmit P)) | M)).
  { rewrite Z.mul_1_l, Z2Nat.id by lia.
    apply Z.mod_divide; [|exact (gp_div _ _ G)].
    apply Z.pow_nonzero; lia. }
  pose proof (digits_norm (Z.to_nat (maxDigitsToEmit P)) (coreNarrow c byte) 1
                Hok0 ltac:(lia) HdivM (Z.divide_1_l _) (Z.divide_1_l _)) as Hn.
  fold (coreByte base P c byte) in Hn, Hp'.
  set (c' := (coreByte base P c byte).2) in *.
  cbv zeta in Hn. rewrite Z.mul_1_l, Z2Nat.id in Hn by lia.
  pose proof Hc' as [(H0' & Hle' & Hhi') Hw'].
  assert (Hcases : c_lo c' / M < c_hi c' / M
                   \/ (c_lo c' mod M = 0 /\ c_pending c' = O)).
  { destruct Hn as [Hn|(D1 & D2 & D3 & D4)]; [left; exact Hn|].
    destruct (Z.lt_ge_cases (c_lo c' / M) (c_hi c' / M)) as [Hlt|Hge];
      [left; exact Hlt|right].
    split; [|apply D4; lia].
    assert (Hm : c_lo c' / M = c_hi c' / M).
    { assert (c_lo c' / M <= c_hi c' / M) by (apply Z.div_le_mono; lia). lia. }
    destruct (narrow_facts (c_lo c) (c_hi c) byte Hle Hb) as (_ & _ & N3 & _).
    cbn [coreNarrow c_lo c_hi] in D3.
    pose proof (Z.div_mod (c_lo c') M ltac:(lia)) as Dl.
    pose proof (Z.div_mod (c_hi c') M ltac:(lia)) as Dh.
    pose proof (Z.mod_pos_bound (c_lo c') M ltac:(lia)).
    pose proof (Z.mod_pos_bound (c_hi c') M ltac:(lia)).
    destruct D1 as [Q1 HQ1]. pose proof HdivM as [Q HQ].
    rewrite Z.mul_1_l, Z2Nat.id in HQ by lia.
    assert (HBE : base ^ maxDigitsToEmit P = base * base ^ (maxDigitsToEmit P - 1)).
    { replace (maxDigitsToEmit P) with (Z.succ (maxDigitsToEmit P - 1)) at 1 by lia.
      rewrite Z.pow_succ_r by lia. reflexivity. }
    unfold Wide in Hw.
    assert (Hlo : c_lo c' = M * (c_lo c' / M)).
    { apply (norm_arith base S2 M (base ^ (maxDigitsToEmit P - 1))
               (base ^ maxDigitsToEmit P) Q (c_lo c') (c_hi c')
               (narrowHi (c_lo c) (c_hi c) byte - narrowLo (c_lo c) (c_hi c) byte));
        try assumption; try lia.
      - pose proof (gp_base _ _ G); lia.
      - exact (gp_M _ _ G).
      - exact (gp_S _ _ G).
      - exact (gp_gap _ _ G).
      - exists Q1. exact HQ1. }
    lia. }
  split; [exact Hc'|]. split; [exact Hcases|].
  intros Hp. specialize (Hp' Hp).
  destruct Hcases as [Hlt|[_ Hz]]; lia.
Qed.

Lemma boundary_bytes bytes : forall c,
  Boundary base P c -> Forall isByte bytes ->
  Boundary base P (coreBytes base P c bytes).2.
Proof.
  induction bytes as [|x rest IH]; intros c HB Hb; simpl; [exact HB|].
  apply Forall_cons in Hb as [Hx Hrest].
  pose proof (boundary_step c x HB Hx) as HB1.
  destruct (coreByte base P c x) as [out1 c1]. cbn [fst snd] in *.
  specialize (IH c1 HB1 Hrest).
  destruct (coreBytes base P c1 rest) as [out2 c2]. exact IH.
Qed.

(** What the encoder goes on to write, read as a window, lies in the
    interval it has reached; and in the narrower one of the next byte. *)
Lemma fits_future R : forall c,
  Boundary base P c -> Forall isByte R -> Fits base P c (future base P c R).
Proof.
  induction R as [|x R IH]; intros c HB Hb.
  - unfold future. simpl. apply (fits_final G). exact HB.
  - apply Forall_cons in Hb as [Hx HR].
    pose proof HB as (Hc & _ & _). pose proof Hc as [(H0 & Hle & Hhi) _].
    apply (fits_narrow c x); [lia | exact Hx |].
    unfold future. cbn [coreBytes].
    pose proof (boundary_step c x HB Hx) as HB1.
    pose proof (fits_digits G (Z.to_nat (maxDigitsToEmit P)) (coreNarrow c x)) as Hd.
    fold (coreByte base P c x) in Hd.
    destruct (coreByte base P c x) as [out1 c1]. cbn [fst snd] in *.
    specialize (IH c1 HB1 HR). unfold future in IH.
    destruct (coreBytes base P c1 R) as [out2 c2]. cbn [fst snd] in *.
    rewrite <- app_assoc. apply Hd; [| |exact IH].
    + apply (coreNarrow_ok G); assumption.
    + apply (pending_narrow G); assumption.
Qed.

Lemma fits_future_narrow c x R :
  Boundary base P c -> isByte x -> Forall isByte R ->
  Fits base P (coreNarrow c x) (future base P c (x :: R)).
Proof.
  intros HB Hx HR. pose proof HB as (Hc & _ & _).
  unfold future. cbn [coreBytes].
  pose proof (boundary_step c x HB Hx) as HB1.
  pose proof (fits_digits G (Z.to_nat (maxDigitsToEmit P)) (coreNarrow c x)) as Hd.
  fold (coreByte base P c x) in Hd.
  destruct (coreByte base P c x) as [out1 c1]. cbn [fst snd] in *.
  pose proof (fits_future R c1 HB1 HR) as HF. unfold future in HF.
  destruct (coreBytes base P c1 R) as [out2 c2]. cbn [fst snd] in *.
  rewrite <- app_assoc. apply Hd; [| |exact HF].
  + apply (coreNarrow_ok G); assumption.
  + apply (pending_narrow G); assumption.
Qed.
End BoundaryStep.

(** ** The decoding table *)

Lemma buildTable_lookup_none alphabet i : forall (table : gmap Z Z) s,
  (forall k, (k < i)%nat -> alphabet !! k <> Some s) ->
  buildTable alphabet i table !! s = table !! s.
Proof.
  induction i as [|i IH]; intros table s Hno; simpl; [reflexivity|].
  destruct (alphabet !! i) as [c|] eqn:Ec.
  - rewrite IH by (intros k Hk; apply Hno; lia).
    apply lookup_insert_ne. intros ->. apply (Hno i); [lia | exact Ec].
  - apply IH. intros k Hk. apply Hno. lia.
Qed.

(** A symbol gets the smallest index it has in the alphabet: the loop runs
    downwards, and a later [set] replaces an earlier one. *)
Lemma buildTable_lookup_first alphabet i : forall (table : gmap Z Z) s j,
  (j < i)%nat -> alphabet !! j = Some s ->
  (forall k, (k < j)%nat -> alphabet !! k <> Some s) ->
  buildTable alphabet i table !! s = Some (Z.of_nat j).
Proof.
  induction i as [|i IH]; intros table s j Hj Hs Hfirst; [lia|]. simpl.
  destruct (Nat.eq_dec j i) as [->|Hne].
  - rewrite Hs. rewrite buildTable_lookup_none by exact Hfirst.
    apply lookup_insert_eq.
  - destruct (alphabet !! i) as [c|]; apply IH; auto; lia.
Qed.

Lemma buildTable_dom alphabet i : forall (table : gmap Z Z),
  (i <= length alphabet)%nat ->
  dom (buildTable alphabet i table) = list_to_set (take i alphabet) ∪ dom table.
Proof.
  induction i as [|i IH]; intros table Hi; simpl.
  - rewrite union_empty_l_L. reflexivity.
  - destruct (lookup_lt_is_Some_2 alphabet i ltac:(lia)) as [c Hc].
    rewrite Hc, IH by lia. rewrite dom_insert_L.
    rewrite (take_S_r _ _ _ Hc), list_to_set_snoc_L.
    rewrite (assoc_L (∪)). reflexivity.
Qed.

Lemma buildTable_size alphabet :
  NoDup alphabet ->
  Z.of_nat (size (buildTable alphabet (length alphabet) ∅)) = jsLength alphabet.
Proof.
  intros Hnd. unfold jsLength. f_equal.
  rewrite <- size_dom, buildTable_dom by lia.
  rewrite firstn_all, dom_empty_L, union_empty_r_L.
  apply size_list_to_set. exact Hnd.
Qed.

(** With distinct symbols the table is the inverse of the alphabet. *)
Lemma buildTable_symbolAt alphabet k :
  NoDup alphabet -> 0 <= k < jsLength alphabet ->
  buildTable alphabet (length alphabet) ∅ !! symbolAt alphabet k = Some k.
Proof.
  intros Hnd Hk. pose proof (charAt_symbolAt alphabet k Hk) as Hc.
  unfold charAt in Hc. destruct (0 <=? k) eqn:E; [|lia].
  unfold jsLength in Hk.
  rewrite (buildTable_lookup_first alphabet _ ∅ _ (Z.to_nat k)); [f_equal; lia|lia|exact Hc|].
  intros j Hj Hcj.
  pose proof (NoDup_lookup _ _ _ _ Hnd Hc Hcj). lia.
Qed.

(** ** The decoder's digit loop and its reads *)

Section DecodeDigits.
Context {base : Z} {P : Params} (G : GoodParams base P).
Local Abbreviation M := (msdDivisor P).
Local Abbreviation S2 := (secondMsdDivisor P).

Lemma decodeDigits_renorm n : forall st,
  let r := renorm base P n (dec_lo st) (dec_hi st) in
  decodeDigits base P n st
  = mkDec (yielded st) (bytesDecoded st) r.2.1 r.2.2 (dec_i st)
      (digitsToDecode st)
      (requestedDigits st + Z.of_nat (length r.1))
      (requestedDigitsKeepMsd st + Z.of_nat (defers r.1))
      (isLastDigit st).
Proof.
  induction n as [|n IH]; intros st.
  - simpl. rewrite !Z.add_0_r. destruct st; reflexivity.
  - cbn [decodeDigits renorm]. unfold action.
    destruct (dec_hi st / M - dec_lo st / M =? 1) eqn:E1.
    + destruct (_ && _) eqn:E2.
      * rewrite IH. cbn [dec_lo dec_hi yielded bytesDecoded dec_i
          digitsToDecode requestedDigits requestedDigitsKeepMsd isLastDigit
          moveV].
        destruct (renorm base P n _ _) as [acts r]. cbn [fst snd length defers].
        f_equal; lia.
      * simpl. rewrite !Z.add_0_r. destruct st; reflexivity.
    + destruct (dec_lo st / M =? dec_hi st / M) eqn:E3.
      * rewrite IH. cbn [dec_lo dec_hi yielded bytesDecoded dec_i
          digitsToDecode requestedDigits requestedDigitsKeepMsd isLastDigit
          moveV].
        destruct (renorm base P n _ _) as [acts r]. cbn [fst snd length defers].
        f_equal; lia.
      * simpl. rewrite !Z.add_0_r. destruct st; reflexivity.
Qed.

(** Once a digit is deferred, the loop only defers. *)
Lemma renorm_after_defer n : forall lo hi,
  IntervalOk base P lo hi -> hi / M = lo / M + 1 ->
  exists f, (renorm base P n lo hi).1 = replicate f Defer.
Proof.
  induction n as [|n IH]; intros lo hi Hok Hs; [exists O; reflexivity|].
  cbn [renorm]. pose proof Hok as (H0 & Hle & Hhi).
  destruct (action base P lo hi) as [a|] eqn:Ha; [|exists O; reflexivity].
  destruct a.
  - apply action_settle in Ha; try lia.
  - apply (action_defer G) in Ha; try lia. destruct Ha as (A1 & A2 & A3).
    destruct (defer_facts G lo hi Hok A1 A2 A3) as (Hok' & _ & E1 & E2).
    destruct (IH _ _ Hok' ltac:(cbn [moveV]; lia)) as [f Hf].
    cbn [moveV] in *.
    destruct (renorm base P n (deferV base P lo) (deferV base P hi)) as [acts r].
    cbn [fst] in *. exists (S f). rewrite Hf. reflexivity.
Qed.

Lemma renorm_sorted n : forall lo hi,
  IntervalOk base P lo hi ->
  exists s f, (renorm base P n lo hi).1 = replicate s Settle ++ replicate f Defer.
Proof.
  induction n as [|n IH]; intros lo hi Hok; [exists O, O; reflexivity|].
  cbn [renorm]. pose proof Hok as (H0 & Hle & Hhi).
  destruct (action base P lo hi) as [a|] eqn:Ha; [|exists O, O; reflexivity].
  destruct (move_facts G a lo hi Hok Ha) as [Hok' _].
  destruct a.
  - destruct (IH _ _ Hok') as (s & f & Hsf).
    destruct (renorm base P n _ _) as [acts r].
    cbn [fst] in *. exists (S s), f. rewrite Hsf. reflexivity.
  - pose proof Ha as Ha'.
    apply (action_defer G) in Ha; try lia. destruct Ha as (A1 & A2 & A3).
    destruct (defer_facts G lo hi Hok A1 A2 A3) as (_ & _ & E1 & E2).
    destruct (renorm_after_defer n _ _ Hok' ltac:(cbn [moveV]; lia)) as [f Hf].
    destruct (renorm base P n _ _) as [acts r].
    cbn [fst] in *. exists O, (S f). rewrite Hf. reflexivity.
Qed.

Lemma defers_sorted s f :
  defers (replicate s Settle ++ replicate f Defer) = f.
Proof.
  induction s as [|s IH]; simpl; [|exact IH].
  induction f as [|f IHf]; simpl; [reflexivity|]. rewrite IHf. reflexivity.
Qed.

(** The encoder's output and the places of the window move together. *)
Lemma coreDigits_pos n : forall c o,
  posMoves (renorm base P n (c_lo c) (c_hi c)).1 (o, c_pending c)
  = ((o + length (coreDigits base P n c).1)%nat, c_pending (coreDigits base P n c).2).
Proof.
  induction n as [|n IH]; intros c o.
  - simpl. f_equal. lia.
  - cbn [renorm coreDigits].
    destruct (action base P (c_lo c) (c_hi c)) as [a|] eqn:Ha;
      [|simpl; f_equal; lia].
    specialize (IH (coreMove base P c a)).
    replace (c_lo (coreMove base P c a)) with (moveV base P a (c_lo c)) in IH
      by (destruct a; reflexivity).
    replace (c_hi (coreMove base P c a)) with (moveV base P a (c_hi c)) in IH
      by (destruct a; reflexivity).
    destruct (renorm base P n _ _) as [acts r].
    destruct (coreDigits base P n (coreMove base P c a)) as [out c'].
    cbn [fst snd] in *. unfold posMoves in *. cbn [fold_left].
    destruct a; cbn [posMove fst snd coreMove c_pending coreEmit] in *.
    + rewrite IH. rewrite length_app. cbn [length]. rewrite length_replicate.
      f_equal. lia.
    + rewrite IH. reflexivity.
Qed.

Lemma posMoves_sum acts : forall o p,
  ((posMoves acts (o, p)).1 + (posMoves acts (o, p)).2 = o + p + length acts)%nat.
Proof.
  induction acts as [|a acts IH]; intros o p; [simpl; lia|].
  unfold posMoves in *. cbn [fold_left length].
  destruct a; cbn [posMove fst snd]; rewrite IH; lia.
Qed.
End DecodeDigits.

(** ** Reading the digits of a text *)

Section Reads.
Context {base : Z} {P : Params} (G : GoodParams base P).
Context (alphabet : list Z) (table : gmap Z Z).
Context (Hsym : forall k, inBase base k -> table !! symbolAt alphabet k = Some k).
Context (T : list Z) (HT : Forall (inBase base) T) (par : Z).
Local Abbreviation M := (msdDivisor P).
Local Abbreviation S2 := (secondMsdDivisor P).
Local Abbreviation N := (Z.to_nat (maxDigitsToDecode P)).
Local Abbreviation text := (symbolAt alphabet <$> (T ++ [par])).
Local Abbreviation endIndex := (jsLength T).

Lemma digitAt_lookup (l : list Z) k t : l !! k = Some t -> digitAt l k = t.
Proof. intros H. unfold digitAt. apply nth_lookup_Some. exact H. Qed.

Lemma digitAt_past (l : list Z) k : (length l <= k)%nat -> digitAt l k = 0.
Proof. intros H. unfold digitAt. apply nth_overflow. exact H. Qed.

Lemma decodeStep_read st :
  requestedDigits st > 0 -> 0 <= dec_i st ->
  decodeStep text table endIndex par base P st
  = Continue (readOne T endIndex base P st).
Proof.
  intros Hreq Hi. pose proof (gp_N _ _ G) as HN.
  unfold decodeStep, readOne.
  destruct (requestedDigits st >? 0) eqn:E; [|lia].
  unfold jsLength in *.
  destruct (dec_i st <? Z.of_nat (length T)) eqn:Ei.
  - assert (Hlt : (Z.to_nat (dec_i st) < length T)%nat) by lia.
    destruct (lookup_lt_is_Some_2 T _ Hlt) as [t Ht].
    unfold charAt. destruct (0 <=? dec_i st) eqn:E0; [|lia].
    rewrite list_lookup_fmap, lookup_app_l by exact Hlt.
    rewrite Ht. cbn [fmap option_fmap option_map].
    rewrite Hsym by (eapply Forall_lookup_1; eauto).
    rewrite (digitAt_lookup _ _ _ Ht).
    replace (dec_i st - Z.of_nat (length T) =? maxDigitsToDecode P - 2)
      with false by lia.
    rewrite orb_false_r. reflexivity.
  - rewrite digitAt_past by lia.
    destruct (dec_i st - Z.of_nat (length T) =? maxDigitsToDecode P - 2);
      [rewrite orb_true_r|rewrite orb_false_r]; reflexivity.
Qed.

Lemma decodeRun_reads n : forall fuel st,
  requestedDigits st = Z.of_nat n -> 0 <= dec_i st ->
  decodeRun (n + fuel) text table endIndex par base P st
  = decodeRun fuel text table endIndex par base P
      (readMany T endIndex base P n st).
Proof.
  induction n as [|n IH]; intros fuel st Hreq Hi; [reflexivity|].
  cbn [Nat.add decodeRun readMany].
  rewrite decodeStep_read by lia.
  apply IH.
  - unfold readOne, takeDigit.
    destruct (requestedDigits st =? requestedDigitsKeepMsd st); simpl; lia.
  - unfold readOne, takeDigit.
    destruct (requestedDigits st =? requestedDigitsKeepMsd st); simpl; lia.
Qed.

Lemma window_nonneg F p : Forall (inBase base) F -> 0 <= window base P F p.
Proof.
  intros HF. pose proof (window_bounds G F p HF). pose proof (M_pos G).
  unfold window.
  assert (0 <= hd 0 F).
  { destruct F as [|d F]; simpl; [lia|]. apply Forall_inv in HF.
    unfold inBase in HF. lia. }
  assert (0 <= hd 0 F * M) by (apply Z.mul_nonneg_nonneg; lia).
  lia.
Qed.

(** One read, at a place of the window before the end of the text. *)
Lemma readOne_pos a o p st :
  AtPos T base P o p st -> (o + p + 2 <= length T)%nat ->
  (requestedDigits st =? requestedDigitsKeepMsd st)
  = match a with Defer => true | Settle => false end ->
  let st' := readOne T endIndex base P st in
  AtPos T base P (posMove a (o, p)).1 (posMove a (o, p)).2 st'
  /\ yielded st' = yielded st /\ bytesDecoded st' = bytesDecoded st
  /\ dec_lo st' = dec_lo st /\ dec_hi st' = dec_hi st
  /\ requestedDigits st' = requestedDigits st - 1
  /\ requestedDigitsKeepMsd st'
     = requestedDigitsKeepMsd st - match a with Defer => 1 | Settle => 0 end.
Proof.
  intros (Hd & Hi & Hf) Hlen Hmode st'.
  pose proof (gp_N _ _ G) as HN. pose proof (M_pos G). pose proof (S2_pos G).
  assert (HF : Forall (inBase base) (drop o T)) by (apply Forall_drop; exact HT).
  pose proof (window_nonneg (drop o T) p HF) as Hw0.
  assert (Hdig : digitAt T (Z.to_nat (dec_i st)) = digitAt (drop o T) (p + N)).
  { rewrite digitAt_drop. f_equal. lia. }
  assert (Hflag : (isLastDigit st
                   || (dec_i st - endIndex =? maxDigitsToDecode P - 2))
                  = bool_decide (o + p + 2 = length T)%nat).
  { rewrite Hf. unfold jsLength.
    rewrite (bool_decide_eq_false_2 (o + p + 1 = length T)%nat) by lia.
    cbn [orb].
    destruct (bool_decide (o + p + 2 = length T)%nat) eqn:Eb.
    - apply bool_decide_eq_true in Eb. lia.
    - apply bool_decide_eq_false in Eb. lia. }
  subst st'. unfold readOne, takeDigit. rewrite Hmode, Hflag, Hdig, Hd.
  destruct a; cbn [posMove fst snd]; unfold AtPos; simpl.
  - rewrite rem_mod by lia.
    rewrite (window_shift G (drop o T) p HF), drop_drop.
    replace (o + S p)%nat with (o + p + 1)%nat by lia.
    replace (o + p + 1 + 0 + 1)%nat with (o + p + 2)%nat by lia.
    repeat split; try lia.
  - rewrite rem_mod by lia.
    rewrite (window_keep G (drop o T) p HF).
    replace (o + S p + 1)%nat with (o + p + 2)%nat by lia.
    repeat split; try lia.
Qed.

Lemma readMany_defers f : forall o p st,
  AtPos T base P o p st -> (o + p + 1 + f <= length T)%nat ->
  requestedDigits st = Z.of_nat f -> requestedDigitsKeepMsd st = Z.of_nat f ->
  let st' := readMany T endIndex base P f st in
  AtPos T base P o (p + f) st'
  /\ yielded st' = yielded st /\ bytesDecoded st' = bytesDecoded st
  /\ dec_lo st' = dec_lo st /\ dec_hi st' = dec_hi st
  /\ requestedDigits st' = 0 /\ requestedDigitsKeepMsd st' = 0.
Proof.
  induction f as [|f IH]; intros o p st Hat Hlen Hreq Hkeep.
  - simpl. rewrite Nat.add_0_r. split; [exact Hat|]. repeat split; try reflexivity; assumption.
  - cbn [readMany].
    destruct (readOne_pos Defer o p st Hat ltac:(lia)
                ltac:(apply Z.eqb_eq; lia))
      as (Hat' & E1 & E2 & E3 & E4 & E5 & E6).
    cbn [posMove fst snd] in Hat'.
    destruct (IH o (S p) _ Hat' ltac:(lia) ltac:(lia) ltac:(lia))
      as (Hat'' & F1 & F2 & F3 & F4 & F5 & F6).
    replace (p + S f)%nat with (S p + f)%nat by lia.
    split; [exact Hat''|]. repeat split; congruence.
Qed.

Lemma readMany_sorted s : forall f o p st,
  AtPos T base P o p st -> (o + p + 1 + s + f <= length T)%nat ->
  requestedDigits st = Z.of_nat (s + f) ->
  requestedDigitsKeepMsd st = Z.of_nat f ->
  let st' := readMany T endIndex base P (s + f) st in
  let op := posMoves (replicate s Settle ++ replicate f Defer) (o, p) in
  AtPos T base P op.1 op.2 st'
  /\ yielded st' = yielded st /\ bytesDecoded st' = bytesDecoded st
  /\ dec_lo st' = dec_lo st /\ dec_hi st' = dec_hi st
  /\ requestedDigits st' = 0 /\ requestedDigitsKeepMsd st' = 0.
Proof.
  induction s as [|s IH]; intros f o p st Hat Hlen Hreq Hkeep.
  - cbn [Nat.add replicate app].
    assert (Hpos : posMoves (replicate f Defer) (o, p) = (o, (p + f)%nat)).
    { clear. revert p. induction f as [|f IHf]; intros p.
      - simpl. f_equal. lia.
      - unfold posMoves in *. cbn [replicate fold_left posMove fst snd].
        rewrite IHf. f_equal. lia. }
    rewrite Hpos. cbn [fst snd].
    apply readMany_defers; auto; lia.
  - cbn [Nat.add readMany replicate app].
    destruct (readOne_pos Settle o p st Hat ltac:(lia)
                ltac:(apply Z.eqb_neq; lia))
      as (Hat' & E1 & E2 & E3 & E4 & E5 & E6).
    cbn [posMove fst snd] in Hat'.
    destruct (IH f _ _ _ Hat' ltac:(lia) ltac:(lia) ltac:(lia))
      as (Hat'' & F1 & F2 & F3 & F4 & F5 & F6).
    unfold posMoves in *. cbn [fold_left posMove fst snd].
    split; [exact Hat''|]. repeat split; congruence.
Qed.
End Reads.

(** ** The decoder follows the encoder *)

Lemma decode_byte lo hi byte d :
  lo <= hi -> isByte byte ->
  narrowLo lo hi byte <= d <= narrowHi lo hi byte ->
  256 * (d - lo) / (hi - lo + 1) = byte.
Proof.
  intros Hle Hb. unfold narrowLo, narrowHi. intros [H1 H2].
  set (W := hi - lo + 1) in *.
  assert (HW : 0 < W) by (unfold W; lia).
  replace (W * (byte + 1)) with (W * byte + W) in H2 by ring.
  pose proof (ceil256_bounds (W * byte)).
  pose proof (ceil256_bounds (W * byte + W)).
  symmetry. apply (Z.div_unique_pos _ _ _ (256 * (d - lo) - W * byte)); lia.
Qed.

Lemma decodeRun_more fuel : forall k text table endIndex par base P st o,
  decodeRun fuel text table endIndex par base P st = Some o ->
  decodeRun (fuel + k) text table endIndex par base P st = Some o.
Proof.
  induction fuel as [|fuel IH]; intros k text table endIndex par base P st o H;
    [discriminate|].
  cbn [Nat.add decodeRun] in *.
  destruct (decodeStep text table endIndex par base P st); [|exact H].
  apply IH. exact H.
Qed.

Lemma readMany_snoc T endIndex base P n : forall st,
  readMany T endIndex base P (S n) st
  = readOne T endIndex base P (readMany T endIndex base P n st).
Proof.
  induction n as [|n IH]; intros st; [reflexivity|].
  cbn [readMany] in *. rewrite <- IH. reflexivity.
Qed.

Section TwoBytes.
Context {base : Z} {P : Params} (G : GoodParams base P).
Local Abbreviation M := (msdDivisor P).
Local Abbreviation S2 := (secondMsdDivisor P).
Local Abbreviation E := (Z.to_nat (maxDigitsToEmit P)).

Lemma renorm_nil_action n lo hi :
  (renorm base P (S n) lo hi).1 = [] -> action base P lo hi = None.
Proof.
  cbn [renorm]. destruct (action base P lo hi) as [a|]; [|reflexivity].
  destruct (renorm base P n _ _). discriminate.
Qed.

Lemma coreDigits_nil n c :
  (renorm base P n (c_lo c) (c_hi c)).1 = [] -> coreDigits base P n c = ([], c).
Proof.
  destruct n as [|n]; [reflexivity|]. intros H.
  apply renorm_nil_action in H. cbn [coreDigits]. rewrite H. reflexivity.
Qed.

Lemma E_succ : exists n, E = S n.
Proof. pose proof (gp_E _ _ G). exists (Nat.pred E). lia. Qed.

(** Of two bytes in a row, one at least makes the digit loop move. *)
Lemma two_bytes_act c x1 x2 :
  CoreOk base P c -> isByte x1 -> isByte x2 ->
  (renorm base P E (c_lo (coreNarrow c x1)) (c_hi (coreNarrow c x1))).1 = [] ->
  (renorm base P E (c_lo (coreNarrow (coreNarrow c x1) x2))
     (c_hi (coreNarrow (coreNarrow c x1) x2))).1 = [] ->
  False.
Proof.
  intros Hc H1 H2 A1 A2. destruct E_succ as [n En]. rewrite En in *.
  pose proof Hc as [(H0 & Hle & Hhi) Hw].
  destruct (coreByte_ok G c x1 Hc H1) as [Hc1 _].
  unfold coreByte in Hc1. rewrite En, (coreDigits_nil (S n) _ A1) in Hc1.
  cbn [snd] in Hc1. pose proof Hc1 as [(H0' & Hle' & Hhi') Hw'].
  pose proof (coreNarrow_ok G _ x2 Hc1 H2) as (H0'' & Hle'' & Hhi'').
  apply renorm_nil_action in A2. apply (action_none G) in A2; try lia.
  destruct A2 as [_ A2].
  cbn [coreNarrow c_lo c_hi] in *.
  destruct (narrow_facts (c_lo c) (c_hi c) x1 Hle H1) as (_ & _ & _ & N1).
  destruct (narrow_facts _ _ x2 Hle' H2) as (_ & _ & _ & N2).
  pose proof (gp_base _ _ G) as Hb. pose proof (gp_M _ _ G) as HM.
  pose proof (S2_pos G).
  assert (M * base <= S2 * 65536).
  { rewrite HM. rewrite <- Z.mul_assoc.
    apply Z.mul_le_mono_nonneg_l; [lia|]. nia. }
  lia.
Qed.
End TwoBytes.

Section Simulation.
Context {base : Z} {P : Params} (G : GoodParams base P).
Context (alphabet : list Z) (table : gmap Z Z).
Context (Hsym : forall k, inBase base k -> table !! symbolAt alphabet k = Some k).
Context (T : list Z) (HT : Forall (inBase base) T) (par : Z).
Local Abbreviation M := (msdDivisor P).
Local Abbreviation S2 := (secondMsdDivisor P).
Local Abbreviation N := (Z.to_nat (maxDigitsToDecode P)).
Local Abbreviation E := (Z.to_nat (maxDigitsToEmit P)).
Local Abbreviation text := (symbolAt alphabet <$> (T ++ [par])).
Local Abbreviation endIndex := (jsLength T).

Lemma future_cons c x R :
  future base P c (x :: R)
  = (coreByte base P c x).1 ++ future base P (coreByte base P c x).2 R.
Proof.
  unfold future. cbn [coreBytes].
  destruct (coreByte base P c x) as [out1 c1]. cbn [fst snd].
  destruct (coreBytes base P c1 R) as [out2 c2]. cbn [fst snd].
  rewrite app_assoc. reflexivity.
Qed.

(** The byte part of a turn, with the flag down. *)
Lemma decodeStep_continue st :
  requestedDigits st = 0 -> isLastDigit st = false ->
  let byte := 256 * (digitsToDecode st - dec_lo st)
              / (dec_hi st - dec_lo st + 1) in
  let r := renorm base P E (narrowLo (dec_lo st) (dec_hi st) byte)
             (narrowHi (dec_lo st) (dec_hi st) byte) in
  decodeStep text table endIndex par base P st
  = Continue
      (mkDec (yielded st ++ [byte]) (bytesDecoded st + 1) r.2.1 r.2.2
         (dec_i st) (digitsToDecode st)
         (Z.of_nat (length r.1)) (requestedDigitsKeepMsd st + Z.of_nat (defers r.1))
         false).
Proof.
  intros Hreq Hflag byte r. unfold decodeStep.
  rewrite Hreq, Hflag. cbn [Z.gtb Z.compare].
  fold byte. rewrite decodeDigits_renorm.
  cbn [dec_lo dec_hi yielded bytesDecoded dec_i digitsToDecode
       requestedDigits requestedDigitsKeepMsd isLastDigit].
  fold r. rewrite Z.add_0_l. reflexivity.
Qed.

(** The byte part of a turn, with the flag up. *)
Lemma decodeStep_last st :
  requestedDigits st = 0 -> isLastDigit st = true ->
  let byte := 256 * (digitsToDecode st - dec_lo st)
              / (dec_hi st - dec_lo st + 1) in
  decodeStep text table endIndex par base P st
  = if negb (Z.rem (bytesDecoded st) 2 =? par)
    then Stop (Returned (yielded st ++ [byte]))
    else Stop (Returned (yielded st)).
Proof.
  intros Hreq Hflag byte. unfold decodeStep.
  rewrite Hreq, Hflag. cbn [Z.gtb Z.compare]. reflexivity.
Qed.

(** What is known after the encoder has taken one more byte. *)
Lemma byte_bookkeeping c x R o :
  Boundary base P c -> isByte x -> Forall isByte R ->
  drop o T = future base P c (x :: R) ->
  let c0 := coreNarrow c x in
  let acts := (renorm base P E (c_lo c0) (c_hi c0)).1 in
  let out1 := (coreByte base P c x).1 in
  let c1 := (coreByte base P c x).2 in
  Boundary base P c1
  /\ drop (o + length out1) T = future base P c1 R
  /\ posMoves acts (o, c_pending c) = ((o + length out1)%nat, c_pending c1)
  /\ (o + c_pending c + 1 + length acts <= length T)%nat
  /\ (o + c_pending c + 1 + length acts = length T ->
      length (future base P c1 R) = c_pending c1 + 1)%nat.
Proof.
  intros HB Hx HR Hdrop c0 acts out1 c1.
  pose proof (boundary_step G c x HB Hx) as HB1. fold c1 in HB1.
  rewrite future_cons in Hdrop. fold out1 c1 in Hdrop.
  pose proof (fits_future G R c1 HB1 HR) as (_ & HlenF & _).
  pose proof (@coreDigits_pos base P E c0 o) as Hpos.
  change (coreDigits base P E c0) with (coreByte base P c x) in Hpos.
  fold acts out1 c1 in Hpos.
  change (c_pending c0) with (c_pending c) in Hpos.
  pose proof (posMoves_sum acts o (c_pending c)) as Hsum.
  rewrite Hpos in Hsum. cbn [fst snd] in Hsum.
  assert (HlenT : (length T - o = length out1 + length (future base P c1 R))%nat).
  { rewrite <- length_drop, Hdrop, length_app. reflexivity. }
  split; [exact HB1|]. split; [|split; [exact Hpos|split; lia]].
  rewrite <- drop_drop, Hdrop.
  rewrite drop_app_length. reflexivity.
Qed.

Lemma decode_sim R : forall c Y st o,
  Boundary base P c -> Forall isByte R ->
  drop o T = future base P c R ->
  AtPos T base P o (c_pending c) st ->
  dec_lo st = c_lo c -> dec_hi st = c_hi c ->
  requestedDigits st = 0 -> requestedDigitsKeepMsd st = 0 ->
  yielded st = Y -> 0 <= bytesDecoded st ->
  par = (bytesDecoded st + jsLength R) mod 2 ->
  exists fuel,
    decodeRun fuel text table endIndex par base P st = Some (Returned (Y ++ R)).
Proof.
  induction R as [|x R IH];
    intros c Y st o HB HR Hdrop Hat Hlo Hhi Hreq Hkeep HY Hbd Hpar.
  - (* nothing left: the flag is up and the parity matches *)
    exists 1%nat. cbn [decodeRun].
    destruct Hat as (Hd & Hi & Hf).
    assert (HlenT : (o + c_pending c + 1 = length T)%nat).
    { assert (Hl : (length T - o = c_pending c + 1)%nat).
      { rewrite <- length_drop, Hdrop. unfold future. simpl.
        rewrite length_replicate. lia. }
      lia. }
    rewrite bool_decide_eq_true_2 in Hf by exact HlenT.
    rewrite (decodeStep_last st Hreq Hf).
    unfold jsLength in Hpar. cbn [length] in Hpar.
    replace (bytesDecoded st + Z.of_nat 0) with (bytesDecoded st) in Hpar by lia.
    rewrite Z.rem_mod_nonneg by lia.
    rewrite <- Hpar, Z.eqb_refl.
    cbn [negb]. rewrite app_nil_r, HY. reflexivity.
  - apply Forall_cons in HR as [Hx HR].
    pose proof HB as (Hc & _ & _). pose proof Hc as [(H0 & Hle & Hhi') Hw].
    destruct (byte_bookkeeping c x R o HB Hx HR Hdrop)
      as (HB1 & Hdrop1 & Hpos & Hlen & Hend).
    set (c0 := coreNarrow c x) in *.
    set (acts := (renorm base P E (c_lo c0) (c_hi c0)).1) in *.
    set (out1 := (coreByte base P c x).1) in *.
    set (c1 := (coreByte base P c x).2) in *.
    (* the byte the decoder computes *)
    pose proof (fits_future_narrow G c x R HB Hx HR) as (_ & _ & Hwin & _).
    rewrite <- Hdrop in Hwin. cbn [coreNarrow c_lo c_hi c_pending] in Hwin.
    pose proof Hat as (Hd & Hi & Hf).
    assert (Hbyte : 256 * (digitsToDecode st - dec_lo st)
                    / (dec_hi st - dec_lo st + 1) = x).
    { rewrite Hd, Hlo, Hhi. apply decode_byte; [lia | exact Hx | exact Hwin]. }
    destruct (decide (o + c_pending c + 1 = length T)%nat) as [Hlast|Hnot].
    + (* the flag is up: this is the last byte *)
      rewrite bool_decide_eq_true_2 in Hf by exact Hlast.
      assert (Hacts : acts = []) by (apply nil_length_inv; lia).
      pose proof (@coreDigits_nil base P E c0 Hacts) as Hnil.
      change (coreDigits base P E c0) with (coreByte base P c x) in Hnil.
      assert (Hc1 : c1 = c0) by (unfold c1; rewrite Hnil; reflexivity).
      assert (HRnil : R = []).
      { destruct R as [|x2 R2]; [reflexivity|exfalso].
        apply Forall_cons in HR as [Hx2 HR2].
        specialize (Hend ltac:(rewrite Hacts; simpl; lia)).
        destruct (byte_bookkeeping c1 x2 R2 (o + length out1) HB1 Hx2 HR2 Hdrop1)
          as (_ & _ & _ & Hlen2 & _).
        assert (HlT : (length T - (o + length out1)
                       = length (future base P c1 (x2 :: R2)))%nat)
          by (rewrite <- length_drop, Hdrop1; reflexivity).
        assert (Hout1 : out1 = []) by (unfold out1; rewrite Hnil; reflexivity).
        rewrite Hout1 in *. cbn [length] in *.
        assert (Ha2 : (renorm base P E (c_lo (coreNarrow c1 x2))
                         (c_hi (coreNarrow c1 x2))).1 = []).
        { assert (Hp1 : c_pending c1 = c_pending c) by (rewrite Hc1; reflexivity).
          apply nil_length_inv. lia. }
        rewrite Hc1 in Ha2.
        exact (two_bytes_act G c x x2 Hc Hx Hx2 Hacts Ha2). }
      subst R. exists 1%nat. cbn [decodeRun].
      rewrite (decodeStep_last st Hreq Hf), Hbyte.
      unfold jsLength in Hpar. cbn [length] in Hpar.
      rewrite Z.rem_mod_nonneg by lia.
      replace (bytesDecoded st mod 2 =? par) with false
        by (symmetry; apply Z.eqb_neq; dlia).
      cbn [negb]. rewrite HY. reflexivity.
    + (* the flag is down: yield, move the interval, read, go on *)
      rewrite bool_decide_eq_false_2 in Hf by exact Hnot.
      pose proof (decodeStep_continue st Hreq Hf) as Hstep.
      cbv zeta in Hstep. rewrite Hbyte, Hlo, Hhi in Hstep.
      change (narrowLo (c_lo c) (c_hi c) x) with (c_lo c0) in Hstep.
      change (narrowHi (c_lo c) (c_hi c) x) with (c_hi c0) in Hstep.
      fold acts in Hstep.
      destruct (@coreDigits_renorm base P E c0) as [El Eh].
      change (coreDigits base P E c0) with (coreByte base P c x) in El, Eh.
      fold c1 in El, Eh.
      rewrite <- El, <- Eh in Hstep.
      pose proof (coreNarrow_ok G c x Hc Hx) as Hok0.
      destruct (renorm_sorted G E _ _ Hok0) as (s & f & Hsf).
      fold c0 in Hsf. fold acts in Hsf.
      set (st1 := mkDec (yielded st ++ [x]) (bytesDecoded st + 1) (c_lo c1)
                    (c_hi c1) (dec_i st) (digitsToDecode st)
                    (Z.of_nat (length acts))
                    (requestedDigitsKeepMsd st + Z.of_nat (defers acts)) false)
        in *.
      assert (Hat1 : AtPos T base P o (c_pending c) st1).
      { unfold AtPos, st1. cbn. rewrite bool_decide_eq_false_2 by exact Hnot.
        auto. }
      assert (Hlacts : length acts = (s + f)%nat)
        by (rewrite Hsf, length_app, !length_replicate; reflexivity).
      destruct (readMany_sorted G T HT s f o (c_pending c) st1
                  Hat1 ltac:(lia)
                  ltac:(unfold st1; cbn; lia)
                  ltac:(unfold st1; cbn; rewrite Hkeep, Hsf, defers_sorted; lia))
        as (Hat2 & F1 & F2 & F3 & F4 & F5 & F6).
      rewrite <- Hsf, Hpos in Hat2. cbn [fst snd] in Hat2.
      set (st2 := readMany T endIndex base P (s + f) st1) in *.
      destruct (IH c1 (Y ++ [x]) st2 (o + length out1)%nat HB1 HR Hdrop1 Hat2)
        as [fuel Hfuel].
      * rewrite F3. reflexivity.
      * rewrite F4. reflexivity.
      * exact F5.
      * exact F6.
      * rewrite F1. unfold st1. cbn. rewrite HY. reflexivity.
      * rewrite F2. unfold st1. cbn. lia.
      * rewrite F2. unfold st1. cbn. rewrite Hpar. unfold jsLength.
        cbn [length]. f_equal. lia.
      * pose proof (gp_N _ _ G) as HN.
        exists (S ((s + f) + fuel)). cbn [decodeRun]. rewrite Hstep.
        rewrite (decodeRun_reads G alphabet table Hsym T HT par (s + f) fuel st1)
          by (unfold st1; cbn; lia).
        fold st2. rewrite Hfuel. rewrite <- app_assoc. reflexivity.
Qed.
End Simulation.

(** ** Round trip *)

Section InitialReads.
Context {base : Z} {P : Params} (G : GoodParams base P).
Context (T : list Z) (HT : Forall (inBase base) T).
Local Abbreviation M := (msdDivisor P).
Local Abbreviation N := (Z.to_nat (maxDigitsToDecode P)).
Local Abbreviation endIndex := (jsLength T).

(** The first reads fill the accumulator with the head of the text. *)
Lemma readMany_init j :
  (j <= N)%nat ->
  let st := readMany T endIndex base P j (decInit P base) in
  digitsToDecode st = num base (padTake j T)
  /\ dec_i st = Z.of_nat j
  /\ requestedDigits st = maxDigitsToDecode P - Z.of_nat j
  /\ requestedDigitsKeepMsd st = 0
  /\ isLastDigit st = bool_decide (length T + N - 2 < j)%nat
  /\ yielded st = [] /\ bytesDecoded st = 0
  /\ dec_lo st = 0 /\ dec_hi st = M * base - 1.
Proof.
  pose proof (gp_N _ _ G) as HN. pose proof (gp_base _ _ G) as Hb.
  pose proof (M_pos G) as HM.
  induction j as [|j IH]; intros Hj st.
  - subst st. cbn [readMany]. unfold decInit.
    cbn [digitsToDecode dec_i requestedDigits requestedDigitsKeepMsd
         isLastDigit yielded bytesDecoded dec_lo dec_hi].
    rewrite bool_decide_eq_false_2 by lia.
    unfold padTake. rewrite take_0.
    repeat split; try reflexivity; lia.
  - subst st. rewrite readMany_snoc.
    destruct (IH ltac:(lia)) as (Hd & Hi & Hreq & Hkeep & Hf & HY & Hbd & Hlo & Hhi).
    set (st := readMany T endIndex base P j (decInit P base)) in *.
    unfold readOne, takeDigit.
    replace (requestedDigits st =? requestedDigitsKeepMsd st) with false
      by (symmetry; apply Z.eqb_neq; lia).
    cbn [digitsToDecode dec_i requestedDigits requestedDigitsKeepMsd
         isLastDigit yielded bytesDecoded dec_lo dec_hi].
    assert (Hnum : 0 <= num base (padTake j T) < M).
    { pose proof (num_bounds base ltac:(lia) (padTake j T)
                    (padTake_inBase base ltac:(lia) _ _ HT)) as Hn.
      rewrite length_padTake in Hn.
      assert (base ^ Z.of_nat j <= M); [|lia].
      rewrite (M_pow G). apply Z.pow_le_mono_r; lia. }
    repeat split; try lia; try assumption.
    + rewrite Hd, Hi, rem_mod by lia. rewrite Z.mod_small by lia.
      rewrite padTake_S_snoc, num_snoc. f_equal. f_equal. lia.
    + rewrite Hf, Hi. unfold jsLength.
      destruct (bool_decide (length T + N - 2 < j)%nat) eqn:E1;
        destruct (bool_decide (length T + N - 2 < S j)%nat) eqn:E2;
        destruct (Z.of_nat j - Z.of_nat (length T) =? maxDigitsToDecode P - 2) eqn:E3;
        try reflexivity;
        try apply bool_decide_eq_true in E1; try apply bool_decide_eq_false in E1;
        try apply bool_decide_eq_true in E2; try apply bool_decide_eq_false in E2;
        lia.
Qed.

Lemma atPos_init :
  (1 <= length T)%nat ->
  AtPos T base P 0 0 (readMany T endIndex base P N (decInit P base)).
Proof.
  intros HlT. pose proof (gp_N _ _ G) as HN.
  destruct (readMany_init N ltac:(lia))
    as (Hd & Hi & _ & _ & Hf & _).
  unfold AtPos. rewrite drop_0, (window_zero G). split; [exact Hd|].
  split; [lia|]. rewrite Hf. apply bool_decide_ext. lia.
Qed.
End InitialReads.

Lemma encodeIndices_future base P bytes :
  encodeIndices base P bytes
  = future base P (coreInit P base) bytes ++ [Z.rem (jsLength bytes) 2].
Proof.
  unfold encodeIndices, future.
  destruct (coreBytes base P (coreInit P base) bytes) as [out c]. cbn [fst snd].
  rewrite app_assoc. reflexivity.
Qed.

(** The loops of [decode] on what [encode] wrote. *)
Lemma decodeRun_encoded alphabet bytes P :
  NoDup alphabet -> GoodParams (jsLength alphabet) P ->
  Forall isByte bytes ->
  exists fuel,
    decodeRun fuel
      (symbolAt alphabet <$> encodeIndices (jsLength alphabet) P bytes)
      (buildTable alphabet (length alphabet) ∅)
      (jsLength (future (jsLength alphabet) P (coreInit P (jsLength alphabet)) bytes))
      (Z.rem (jsLength bytes) 2) (jsLength alphabet) P
      (decInit P (jsLength alphabet))
    = Some (Returned bytes).
Proof.
  intros Hnd G Hb.
  set (base := jsLength alphabet) in *.
  set (table := buildTable alphabet (length alphabet) ∅).
  set (T := future base P (coreInit P base) bytes).
  set (par := Z.rem (jsLength bytes) 2).
  pose proof (gp_base _ _ G) as Hbase. pose proof (gp_N _ _ G) as HN.
  assert (Hsym : forall k, inBase base k -> table !! symbolAt alphabet k = Some k).
  { intros k Hk. apply buildTable_symbolAt; [exact Hnd | exact Hk]. }
  pose proof (fits_future G bytes _ (boundary_init G) Hb) as (HT & HlT & _).
  fold T in HT, HlT.
  assert (Hpar : par = (0 + jsLength bytes) mod 2)
    by (unfold par, jsLength; rewrite Z.rem_mod_nonneg by lia; f_equal; lia).
  destruct (readMany_init G T HT _ (Nat.le_refl (Z.to_nat (maxDigitsToDecode P))))
    as (_ & _ & R3 & R4 & _ & R6 & R7 & R8 & R9).
  destruct (decode_sim G alphabet table Hsym T HT par bytes (coreInit P base) []
              (readMany T (jsLength T) base P (Z.to_nat (maxDigitsToDecode P))
                 (decInit P base)) 0%nat)
    as [fuel Hfuel]; try assumption.
  - apply (boundary_init G).
  - rewrite drop_0. reflexivity.
  - apply (atPos_init G T HT). cbn [coreInit c_pending] in HlT. lia.
  - rewrite R3. lia.
  - rewrite R7. lia.
  - rewrite R7. exact Hpar.
  - exists (Z.to_nat (maxDigitsToDecode P) + fuel)%nat.
    rewrite encodeIndices_future. fold T par.
    rewrite (decodeRun_reads G alphabet table Hsym T HT par).
    + exact Hfuel.
    + unfold decInit. cbn. lia.
    + unfold decInit. cbn. lia.
Qed.

(** What [decode] does before its loops, on such a text. *)
Lemma decode_encoded_unfold alphabet bytes P fuel :
  NoDup alphabet -> GoodParams (jsLength alphabet) P ->
  calculateParams (jsLength alphabet) = Some P ->
  Forall isByte bytes ->
  decode fuel (symbolAt alphabet <$> encodeIndices (jsLength alphabet) P bytes)
    (buildTable alphabet (length alphabet) ∅)
  = decodeRun fuel
      (symbolAt alphabet <$> encodeIndices (jsLength alphabet) P bytes)
      (buildTable alphabet (length alphabet) ∅)
      (jsLength (future (jsLength alphabet) P (coreInit P (jsLength alphabet)) bytes))
      (Z.rem (jsLength bytes) 2) (jsLength alphabet) P
      (decInit P (jsLength alphabet)).
Proof.
  intros Hnd G HP Hb.
  set (base := jsLength alphabet) in *.
  set (table := buildTable alphabet (length alphabet) ∅).
  set (T := future base P (coreInit P base) bytes).
  set (par := Z.rem (jsLength bytes) 2).
  pose proof (gp_base _ _ G) as Hbase.
  assert (Hsym : forall k, inBase base k -> table !! symbolAt alphabet k = Some k).
  { intros k Hk. apply buildTable_symbolAt; [exact Hnd | exact Hk]. }
  assert (Hpar2 : 0 <= par < 2).
  { unfold par. rewrite Z.rem_mod_nonneg by (unfold jsLength; lia).
    apply Z.mod_pos_bound. lia. }
  assert (Hparb : inBase base par) by (unfold inBase; lia).
  rewrite encodeIndices_future. fold T par.
  unfold decode.
  assert (Hend : jsLength (symbolAt alphabet <$> T ++ [par]) - 1 = jsLength T).
  { unfold jsLength. rewrite length_fmap, length_app. simpl. lia. }
  rewrite Hend.
  assert (HlT : 0 <= jsLength T) by (unfold jsLength; lia).
  replace (jsLength T <? 0) with false by (symmetry; apply Z.ltb_ge; exact HlT).
  assert (Hch : charAt (symbolAt alphabet <$> T ++ [par]) (jsLength T)
                = Some (symbolAt alphabet par)).
  { unfold charAt.
    replace (0 <=? jsLength T) with true by (symmetry; apply Z.leb_le; exact HlT).
    unfold jsLength.
    rewrite Nat2Z.id, list_lookup_fmap, lookup_app_r by lia.
    rewrite Nat.sub_diag. reflexivity. }
  rewrite Hch, (Hsym par Hparb).
  destruct (Z.gtb_spec par 1) as [Hgt|Hle]; [exfalso; clearbody par; lia|].
  assert (Hsize : Z.of_nat (size table) = base)
    by (apply buildTable_size; exact Hnd).
  fold table. cbv zeta. rewrite Hsize, HP. reflexivity.
Qed.

Lemma decode_encoded alphabet bytes P :
  NoDup alphabet -> GoodParams (jsLength alphabet) P ->
  calculateParams (jsLength alphabet) = Some P ->
  Forall isByte bytes ->
  exists fuel,
    decode fuel (symbolAt alphabet <$> encodeIndices (jsLength alphabet) P bytes)
      (buildTable alphabet (length alphabet) ∅)
    = Some (Returned bytes).
Proof.
  intros Hnd G HP Hb.
  destruct (decodeRun_encoded alphabet bytes P Hnd G Hb) as [fuel Hfuel].
  exists fuel. rewrite decode_encoded_unfold by assumption. exact Hfuel.
Qed.

(** * The claims *)

(** ** Configuration *)

(** C3, as stated, fails: with the alphabet "aa" the table maps the symbol
    to index 0, while its last occurrence is at index 1. *)
Lemma decodingTable_not_last :
  lastIndexOf [97; 97] 97 1
  /\ newDecoder [97; 97] = inr (mkDecoder (buildTable [97; 97] 2 ∅))
  /\ buildTable [97; 97] 2 ∅ !! 97 = Some 0
  /\ buildTable [97; 97] 2 ∅ !! 97 <> Some (Z.of_nat 1).
Proof.
  split; [|split; [|split]].
  - split; [reflexivity|]. intros [|[|k]] H; try lia. discriminate.
  - reflexivity.
  - reflexivity.
  - discriminate.
Qed.

(** C3, amended: for every alphabet the decoder accepts, the table built at
    configuration time maps each symbol of the alphabet to the smallest
    index at which it occurs (the first occurrence wins). *)
Theorem decodingTable_first alphabet dec s i :
  newDecoder alphabet = inr dec ->
  firstIndexOf alphabet s i ->
  decodingTable dec !! s = Some (Z.of_nat i).
Proof.
  intros Hnew [Hs Hfirst]. unfold newDecoder in Hnew.
  destruct (jsLength alphabet <? MIN_ALPHABET_SIZE); [discriminate|].
  destruct (jsLength alphabet >? MAX_ALPHABET_SIZE); [discriminate|].
  inversion Hnew; subst dec. cbn [decodingTable].
  apply buildTable_lookup_first; [|exact Hs|].
  - apply lookup_lt_Some in Hs. exact Hs.
  - intros k Hk Hks. specialize (Hfirst k Hks). lia.
Qed.

Lemma decodingTable_first_witness :
  decodingTable (mkDecoder (buildTable [97; 98; 97] 3 ∅)) !! 97 = Some (Z.of_nat 0).
Proof.
  apply (decodingTable_first [97; 98; 97]).
  - reflexivity.
  - split; [reflexivity|]. intros k _. lia.
Defined.

(** C4, as stated, fails: for base 256 one digit reaches 256, and
    [maxDigitsToEmit] is 2. *)
Lemma maxDigitsToEmit_not_smallest :
  exists P,
    calculateParams 256 = Some P
    /\ maxDigitsToEmit P = 2
    /\ smallestDigitCount 256 1
    /\ ~ smallestDigitCount 256 (maxDigitsToEmit P).
Proof.
  eexists. split; [reflexivity|]. cbn [maxDigitsToEmit].
  split; [reflexivity|]. split.
  - split; [lia|]. split; [reflexivity|].
    intros j Hj. replace j with 0 by lia. reflexivity.
  - intros (_ & _ & H). specialize (H 1 ltac:(lia)). revert H. cbn. lia.
Qed.

(** C4, amended: for every base from 2 to 256 [calculateParams] returns,
    and its [maxDigitsToEmit] is one more than the smallest number of
    digits [k] with [base ^ k >= 256]. *)
Theorem maxDigitsToEmit_spec base :
  2 <= base <= 256 ->
  exists P,
    calculateParams base = Some P
    /\ smallestDigitCount base (maxDigitsToEmit P - 1).
Proof.
  intros Hb. destruct (calculateParams_good base Hb) as (P & HP & G).
  exists P. split; [exact HP|].
  pose proof (gp_E _ _ G). pose proof (gp_pow _ _ G). pose proof (gp_powmin _ _ G).
  split; [lia|]. split; [assumption|].
  intros j Hj.
  assert (base ^ j <= base ^ (maxDigitsToEmit P - 2))
    by (apply Z.pow_le_mono_r; lia).
  lia.
Qed.

Lemma maxDigitsToEmit_spec_witness :
  exists P,
    calculateParams 85 = Some P
    /\ smallestDigitCount 85 (maxDigitsToEmit P - 1).
Proof. apply (maxDigitsToEmit_spec 85). lia. Defined.

(** C5: an alphabet shorter than 2 or longer than 256 makes both
    constructors fail with a configuration error, so that no encoder or
    decoder exists to be called; every length from 2 to 256, the two ends
    included, makes both succeed. *)
Theorem alphabet_bounds alphabet :
  (jsLength alphabet < 2 \/ 256 < jsLength alphabet ->
   (exists e, newEncoder alphabet = inl e)
   /\ (exists e, newDecoder alphabet = inl e))
  /\ (2 <= jsLength alphabet <= 256 ->
      (exists enc, newEncoder alphabet = inr enc)
      /\ (exists dec, newDecoder alphabet = inr dec)).
Proof.
  unfold newEncoder, newDecoder, MIN_ALPHABET_SIZE, MAX_ALPHABET_SIZE.
  split; intros H.
  - destruct (jsLength alphabet <? 2) eqn:E1; [split; eauto|].
    destruct (jsLength alphabet >? 256) eqn:E2; [split; eauto|]. lia.
  - destruct (jsLength alphabet <? 2) eqn:E1; [lia|].
    destruct (jsLength alphabet >? 256) eqn:E2; [lia|]. split; eauto.
Qed.

Lemma alphabet_bounds_witness :
  ((exists e, newEncoder [48] = inl e) /\ (exists e, newDecoder [48] = inl e))
  /\ ((exists enc, newEncoder (replicate 257 48) = inl enc)
      /\ (exists dec, newDecoder (replicate 257 48) = inl dec))
  /\ ((exists enc, newEncoder [48; 49] = inr enc)
      /\ (exists dec, newDecoder [48; 49] = inr dec))
  /\ ((exists enc, newEncoder (seqZ 0 256) = inr enc)
      /\ (exists dec, newDecoder (seqZ 0 256) = inr dec)).
Proof.
  split; [|split; [|split]].
  - apply (alphabet_bounds [48]). left. vm_compute. reflexivity.
  - apply (alphabet_bounds (replicate 257 48)). right. vm_compute. reflexivity.
  - apply (alphabet_bounds [48; 49]). vm_compute. split; discriminate.
  - apply (alphabet_bounds (seqZ 0 256)). vm_compute. split; discriminate.
Defined.

(** ** Whitespace and malformed text *)

(** A turn that leaves the state as it was is repeated for ever. *)
Lemma decodeRun_stuck text table endIndex par base P st :
  decodeStep text table endIndex par base P st = Continue st ->
  forall fuel, decodeRun fuel text table endIndex par base P st = None.
Proof.
  intros H fuel. induction fuel as [|fuel IH]; [reflexivity|].
  cbn [decodeRun]. rewrite H. exact IH.
Qed.

(** The [continue] taken at a whitespace character that is no alphabet
    symbol does not move the cursor. *)
Lemma decodeStep_whitespace text table endIndex par base P st ch :
  requestedDigits st > 0 -> dec_i st < endIndex ->
  charAt text (dec_i st) = Some ch -> table !! ch = None ->
  isWhitespace ch = true ->
  decodeStep text table endIndex par base P st = Continue st.
Proof.
  intros Hreq Hi Hch Ht Hw. unfold decodeStep.
  replace (requestedDigits st >? 0) with true by lia.
  replace (dec_i st <? endIndex) with true by lia.
  rewrite Hch, Ht, Hw. reflexivity.
Qed.

Lemma decode_binary fuel text c :
  (0 <=? jsLength text - 1) = true ->
  charAt text (jsLength text - 1) = Some c -> (c = 48 \/ c = 49) ->
  decode fuel text binaryTable
  = decodeRun fuel text binaryTable (jsLength text - 1) (c - 48) 2
      binaryParams (decInit binaryParams 2).
Proof.
  intros Hlen Hc Hcc. unfold decode.
  replace (jsLength text - 1 <? 0) with false by lia.
  rewrite Hc. destruct Hcc as [-> | ->]; reflexivity.
Qed.

(** C2 fails on the code: "10" is what [encode] gives for no bytes and
    decodes to no bytes, but with a space put before it [decode] never
    ends. The [continue] of the whitespace branch skips the [++i]. *)
Theorem whitespace_before_text_hangs :
  encode (mkEncoder (codeUnits "01")) [] = Some (codeUnits "10")
  /\ decode 50 (codeUnits "10") binaryTable = Some (Returned [])
  /\ forall fuel, decode fuel (codeUnits " 10") binaryTable = None.
Proof.
  split; [vm_compute; reflexivity|]. split; [vm_compute; reflexivity|].
  intros fuel.
  rewrite (decode_binary fuel (codeUnits " 10") 48);
    [|reflexivity|reflexivity|left; reflexivity].
  apply decodeRun_stuck.
  apply (decodeStep_whitespace _ _ _ _ _ _ _ 32); reflexivity.
Qed.

(** C6 fails on the code for the same reason: in " x0" the character "x"
    is neither a symbol of the alphabet "01" nor whitespace, yet [decode]
    throws nothing, since it never gets past the space. *)
Theorem invalid_after_whitespace_never_throws :
  charAt (codeUnits " x0") 1 = Some 120
  /\ binaryTable !! 120 = None
  /\ isWhitespace 120 = false
  /\ forall fuel, decode fuel (codeUnits " x0") binaryTable = None.
Proof.
  split; [reflexivity|]. split; [vm_compute; reflexivity|].
  split; [vm_compute; reflexivity|].
  intros fuel.
  rewrite (decode_binary fuel (codeUnits " x0") 48);
    [|reflexivity|reflexivity|left; reflexivity].
  apply decodeRun_stuck.
  apply (decodeStep_whitespace _ _ _ _ _ _ _ 32); reflexivity.
Qed.

(** What does hold of the errors of [decode]: the empty text and a text
    with a bad last symbol throw before anything is yielded. *)
Lemma decode_empty_throws fuel table : decode fuel [] table = Some (Threw []).
Proof. reflexivity. Qed.

Lemma decode_bad_terminator_throws fuel text table :
  (forall c, charAt text (jsLength text - 1) = Some c ->
             match table !! c with Some v => 1 < v | None => True end) ->
  decode fuel text table = Some (Threw []).
Proof.
  intros H. unfold decode.
  destruct (jsLength text - 1 <? 0); [reflexivity|].
  destruct (charAt text (jsLength text - 1)) as [c|]; [|reflexivity].
  specialize (H c eq_refl).
  destruct (table !! c) as [v|]; [|reflexivity].
  replace (v >? 1) with true by lia. reflexivity.
Qed.

(** The byte part of a turn is: narrow, run the digit loop, count. *)
Lemma decodeStep_byte text table endIndex par base P st :
  requestedDigits st <= 0 -> isLastDigit st = false ->
  decodeStep text table endIndex par base P st
  = Continue
      (countByte
         (decodeDigits base P (Z.to_nat (maxDigitsToEmit P)) (decodeNarrowed st))).
Proof.
  intros Hreq Hf. unfold decodeStep, countByte, decodeNarrowed.
  replace (requestedDigits st >? 0) with false by lia.
  destruct (isLastDigit st); [discriminate|]. reflexivity.
Qed.

(** The cursor never goes below zero. *)
Lemma decodeStep_cursor text table endIndex par base P st st' :
  0 <= dec_i st ->
  decodeStep text table endIndex par base P st = Continue st' ->
  0 <= dec_i st'.
Proof.
  intros Hi H.
  destruct (Z.lt_ge_cases 0 (requestedDigits st)) as [Hreq|Hreq].
  - unfold decodeStep in H.
    replace (requestedDigits st >? 0) with true in H by lia.
    assert (Htake : forall d l, 0 <= dec_i (takeDigit base P st d l)).
    { intros d l. unfold takeDigit.
      destruct (requestedDigits st =? requestedDigitsKeepMsd st); simpl; lia. }
    destruct (dec_i st <? endIndex).
    + destruct (charAt text (dec_i st)) as [ch|]; [|discriminate].
      destruct (table !! ch) as [digit|].
      * inversion H. apply Htake.
      * destruct (isWhitespace ch); [|discriminate]. inversion H. subst. exact Hi.
    + inversion H. apply Htake.
  - destruct (isLastDigit st) eqn:Hf.
    + unfold decodeStep in H.
      replace (requestedDigits st >? 0) with false in H by lia.
      rewrite Hf in H. destruct (negb _); discriminate.
    + rewrite decodeStep_byte in H by (lia || assumption).
      inversion H. cbn [countByte dec_i]. rewrite decodeDigits_renorm.
      cbn [dec_i decodeNarrowed]. exact Hi.
Qed.

(** The loops throw only at a character before the last that is neither a
    key of the table nor whitespace. *)
Lemma decodeRun_throws_only_if fuel : forall text table par base P st ys,
  0 <= dec_i st ->
  decodeRun fuel text table (jsLength text - 1) par base P st = Some (Threw ys) ->
  exists i ch,
    0 <= i < jsLength text - 1 /\ charAt text i = Some ch
    /\ table !! ch = None /\ isWhitespace ch = false.
Proof.
  induction fuel as [|fuel IH]; intros text table par base P st ys Hi H;
    [discriminate|].
  cbn [decodeRun] in H.
  destruct (decodeStep text table (jsLength text - 1) par base P st)
    as [st1|o] eqn:Hs.
  - apply (IH text table par base P st1 ys); [|exact H].
    eapply decodeStep_cursor; eauto.
  - inversion H; subst o. clear H. unfold decodeStep in Hs.
    destruct (requestedDigits st >? 0).
    + destruct (dec_i st <? jsLength text - 1) eqn:Elt; [|discriminate].
      destruct (charAt text (dec_i st)) as [ch|] eqn:Ech.
      * destruct (table !! ch) as [digit|] eqn:Et; [discriminate|].
        destruct (isWhitespace ch) eqn:Ew; [discriminate|].
        exists (dec_i st), ch. repeat split; auto; lia.
      * exfalso. unfold charAt, jsLength in *.
        replace (0 <=? dec_i st) with true in Ech by lia.
        apply lookup_ge_None in Ech. lia.
    + destruct (isLastDigit st); [|discriminate].
      destruct (negb _); discriminate.
Qed.

(** [decode] throws only for the empty text, for a last symbol that is no
    key of the table or has a value above 1, or at such a character. *)
Lemma decode_throws_only_if fuel text table ys :
  decode fuel text table = Some (Threw ys) ->
  text = []
  \/ (exists c, charAt text (jsLength text - 1) = Some c
                /\ match table !! c with Some v => 1 < v | None => True end)
  \/ (exists i ch,
        0 <= i < jsLength text - 1 /\ charAt text i = Some ch
        /\ table !! ch = None /\ isWhitespace ch = false).
Proof.
  unfold decode. cbv zeta. intros H.
  destruct (jsLength text - 1 <? 0) eqn:E0.
  { left. unfold jsLength in E0. destruct text; [reflexivity|].
    exfalso. apply Z.ltb_lt in E0. cbn [length] in E0. lia. }
  destruct (charAt text (jsLength text - 1)) as [c|] eqn:Ec.
  2:{ exfalso. apply Z.ltb_ge in E0. unfold charAt, jsLength in *.
      replace (0 <=? Z.of_nat (length text) - 1) with true in Ec
        by (symmetry; apply Z.leb_le; lia).
      apply lookup_ge_None in Ec. lia. }
  destruct (table !! c) as [v|] eqn:Ev.
  2:{ right. left. exists c. rewrite Ev. auto. }
  destruct (v >? 1) eqn:E1.
  { right. left. exists c. rewrite Ev. split; [reflexivity|lia]. }
  destruct (calculateParams (Z.of_nat (size table))) as [P|]; [|discriminate].
  right. right.
  apply (decodeRun_throws_only_if fuel text table v (Z.of_nat (size table)) P
           (decInit P (Z.of_nat (size table))) ys); [|exact H].
  unfold decInit. cbn. lia.
Qed.

(** What a turn that goes on does to the cursor and the flag. *)
Lemma decodeStep_moves text table endIndex par base P st st' :
  decodeStep text table endIndex par base P st = Continue st' ->
  st' = st
  \/ (dec_i st < endIndex
      /\ (exists ch digit,
            charAt text (dec_i st) = Some ch /\ table !! ch = Some digit)
      /\ dec_i st' = dec_i st + 1 /\ isLastDigit st' = isLastDigit st)
  \/ (endIndex <= dec_i st /\ dec_i st' = dec_i st + 1)
  \/ (dec_i st' = dec_i st /\ isLastDigit st' = isLastDigit st).
Proof.
  intros H.
  destruct (Z.lt_ge_cases 0 (requestedDigits st)) as [Hreq|Hreq].
  - unfold decodeStep in H.
    replace (requestedDigits st >? 0) with true in H by lia.
    assert (Htake : forall d l,
      dec_i (takeDigit base P st d l) = dec_i st + 1
      /\ isLastDigit (takeDigit base P st d l) = l).
    { intros d l. unfold takeDigit.
      destruct (requestedDigits st =? requestedDigitsKeepMsd st); split; reflexivity. }
    destruct (dec_i st <? endIndex) eqn:Ei.
    + destruct (charAt text (dec_i st)) as [ch|] eqn:Ech; [|discriminate].
      destruct (table !! ch) as [digit|] eqn:Et.
      * inversion H. right. left.
        split; [lia|]. split; [exists ch, digit; auto|]. apply Htake.
      * destruct (isWhitespace ch); [|discriminate]. inversion H. left. reflexivity.
    + inversion H. right. right. left. split; [lia|]. apply Htake.
  - right. right. right. destruct (isLastDigit st) eqn:Hf.
    + unfold decodeStep in H.
      replace (requestedDigits st >? 0) with false in H by lia.
      rewrite Hf in H. destruct (negb _); discriminate.
    + rewrite decodeStep_byte in H by (lia || assumption).
      inversion H. cbn [countByte dec_i isLastDigit].
      rewrite decodeDigits_renorm. cbn [dec_i isLastDigit decodeNarrowed].
      split; [reflexivity | exact Hf].
Qed.

(** The loops return only after the cursor has passed every character
    before the last, each of them a key of the table. *)
Lemma decodeRun_returns_keys fuel : forall text table endIndex par base P st ys,
  0 <= dec_i st ->
  (forall j, 0 <= j < Z.min (dec_i st) endIndex ->
             exists ch digit, charAt text j = Some ch /\ table !! ch = Some digit) ->
  (isLastDigit st = true -> endIndex <= dec_i st) ->
  decodeRun fuel text table endIndex par base P st = Some (Returned ys) ->
  forall j, 0 <= j < endIndex ->
            exists ch digit, charAt text j = Some ch /\ table !! ch = Some digit.
Proof.
  induction fuel as [|fuel IH];
    intros text table endIndex par base P st ys Hi Hkeys Hflag H; [discriminate|].
  cbn [decodeRun] in H.
  destruct (decodeStep text table endIndex par base P st) as [st1|o] eqn:Hs.
  - apply decodeStep_moves in Hs.
    destruct Hs as [->|[(Hlt & (ch & digit & Hch & Ht) & Hi1 & Hf1)
                       |[(Hge & Hi1)|(Hi1 & Hf1)]]].
    + exact (IH _ _ _ _ _ _ _ _ Hi Hkeys Hflag H).
    + apply (IH text table endIndex par base P st1 ys); [lia| | |exact H].
      * intros j Hj. destruct (Z.eq_dec j (dec_i st)) as [->|Hne].
        -- exists ch, digit. auto.
        -- apply Hkeys. lia.
      * intros Hf. rewrite Hf1 in Hf. specialize (Hflag Hf). lia.
    + apply (IH text table endIndex par base P st1 ys); [lia| | |exact H].
      * intros j Hj. apply Hkeys. lia.
      * intros _. lia.
    + apply (IH text table endIndex par base P st1 ys); [lia| | |exact H].
      * intros j Hj. apply Hkeys. lia.
      * intros Hf. rewrite Hf1 in Hf. specialize (Hflag Hf). lia.
  - inversion H; subst o. clear H. unfold decodeStep in Hs.
    destruct (requestedDigits st >? 0).
    + destruct (dec_i st <? endIndex); [|discriminate].
      destruct (charAt text (dec_i st)) as [ch|]; [|discriminate].
      destruct (table !! ch); [discriminate|].
      destruct (isWhitespace ch); discriminate.
    + destruct (isLastDigit st); [|discriminate].
      specialize (Hflag eq_refl).
      intros j Hj. apply Hkeys. lia.
Qed.

(** [decode] returns only on a text all of whose characters before the
    last are keys of the table: no text with any other character in it,
    whitespace or not, is ever decoded. *)
Lemma decode_returns_only_keys fuel text table ys :
  decode fuel text table = Some (Returned ys) ->
  forall j, 0 <= j < jsLength text - 1 ->
            exists ch digit, charAt text j = Some ch /\ table !! ch = Some digit.
Proof.
  unfold decode. cbv zeta. intros H.
  destruct (jsLength text - 1 <? 0); [discriminate|].
  destruct (charAt text (jsLength text - 1)) as [c|]; [|discriminate].
  destruct (table !! c) as [v|]; [|discriminate].
  destruct (v >? 1); [discriminate|].
  destruct (calculateParams (Z.of_nat (size table))) as [P|]; [|discriminate].
  apply (decodeRun_returns_keys fuel text table (jsLength text - 1) v
           (Z.of_nat (size table)) P (decInit P (Z.of_nat (size table))) ys);
    try exact H.
  - unfold decInit. cbn. lia.
  - unfold decInit. cbn [dec_i]. intros j Hj. lia.
  - unfold decInit. cbn. discriminate.
Qed.

(** C10: a character that is a key of the table is taken as a digit, with
    the value the table gives it, whether or not it is whitespace: the turn
    goes on in the state whose accumulator has that value shifted in, by
    the rule for a deferred place or by the plain one, with the cursor
    moved on and one requested digit used up; nothing else changes. *)
Theorem alphabet_before_whitespace text table endIndex par base P st ch digit :
  requestedDigits st > 0 -> dec_i st < endIndex ->
  charAt text (dec_i st) = Some ch ->
  table !! ch = Some digit -> isWhitespace ch = true ->
  decodeStep text table endIndex par base P st
  = Continue
      (mkDec (yielded st) (bytesDecoded st) (dec_lo st) (dec_hi st)
         (dec_i st + 1)
         (if requestedDigits st =? requestedDigitsKeepMsd st
          then digitsToDecode st / msdDivisor P * msdDivisor P
               + Z.rem (digitsToDecode st) (secondMsdDivisor P) * base + digit
          else Z.rem (digitsToDecode st) (msdDivisor P) * base + digit)
         (requestedDigits st - 1)
         (if requestedDigits st =? requestedDigitsKeepMsd st
          then requestedDigitsKeepMsd st - 1
          else requestedDigitsKeepMsd st)
         (isLastDigit st)).
Proof.
  intros Hreq Hi Hch Ht Hw.
  unfold decodeStep.
  replace (requestedDigits st >? 0) with true by lia.
  replace (dec_i st <? endIndex) with true by lia.
  rewrite Hch, Ht. unfold takeDigit.
  destruct (requestedDigits st =? requestedDigitsKeepMsd st); reflexivity.
Qed.

Lemma alphabet_before_whitespace_witness :
  decodeStep (codeUnits "  x") (buildTable (codeUnits "x ") 2 ∅) 2 0 2
    binaryParams (mkDec [] 0 0 1099511627775 1 1 39 0 false)
  = Continue (mkDec [] 0 0 1099511627775 2 3 38 0 false).
Proof.
  apply (alphabet_before_whitespace (codeUnits "  x")
           (buildTable (codeUnits "x ") 2 ∅) 2 0 2 binaryParams
           (mkDec [] 0 0 1099511627775 1 1 39 0 false) 32 1).
  - vm_compute. reflexivity.
  - vm_compute. reflexivity.
  - vm_compute. reflexivity.
  - vm_compute. reflexivity.
  - vm_compute. reflexivity.
Defined.

(** ** The encoder's output *)

Lemma newEncoder_inv alphabet enc :
  newEncoder alphabet = inr enc ->
  2 <= jsLength alphabet <= 256 /\ enc = mkEncoder alphabet.
Proof.
  unfold newEncoder, MIN_ALPHABET_SIZE, MAX_ALPHABET_SIZE. intros H.
  destruct (jsLength alphabet <? 2) eqn:E1; [discriminate|].
  destruct (jsLength alphabet >? 256) eqn:E2; [discriminate|].
  inversion H. split; [lia | reflexivity].
Qed.

Lemma newDecoder_inv alphabet dec :
  newDecoder alphabet = inr dec ->
  2 <= jsLength alphabet <= 256
  /\ dec = mkDecoder (buildTable alphabet (length alphabet) ∅).
Proof.
  unfold newDecoder, MIN_ALPHABET_SIZE, MAX_ALPHABET_SIZE. intros H.
  destruct (jsLength alphabet <? 2) eqn:E1; [discriminate|].
  destruct (jsLength alphabet >? 256) eqn:E2; [discriminate|].
  inversion H. split; [lia | reflexivity].
Qed.

(** C9: on bytes, [encode] returns, every index at which it reads its table
    lies in [0, base), and every character of the text is a symbol of the
    alphabet. *)
Theorem encode_symbols alphabet enc bytes :
  newEncoder alphabet = inr enc -> Forall isByte bytes ->
  exists P indices,
    calculateParams (jsLength alphabet) = Some P
    /\ indices = encodeIndices (jsLength alphabet) P bytes
    /\ Forall (inBase (jsLength alphabet)) indices
    /\ encode enc bytes = Some (symbolAt alphabet <$> indices)
    /\ Forall (fun ch => ch ∈ alphabet) (symbolAt alphabet <$> indices).
Proof.
  intros Hnew Hb. apply newEncoder_inv in Hnew as [Hlen ->].
  destruct (encode_indices alphabet bytes Hlen Hb) as (P & HP & G & Henc).
  exists P, (encodeIndices (jsLength alphabet) P bytes).
  pose proof (encodeIndices_inBase G bytes Hb) as Hin.
  split; [exact HP|]. split; [reflexivity|]. split; [exact Hin|].
  split; [exact Henc|].
  apply Forall_fmap. eapply Forall_impl; [exact Hin|].
  intros k Hk. apply symbolAt_elem. exact Hk.
Qed.

Lemma encode_symbols_witness :
  exists P indices,
    calculateParams (jsLength (codeUnits "01")) = Some P
    /\ indices = encodeIndices (jsLength (codeUnits "01")) P [0; 255; 255]
    /\ Forall (inBase (jsLength (codeUnits "01"))) indices
    /\ encode (mkEncoder (codeUnits "01")) [0; 255; 255]
       = Some (symbolAt (codeUnits "01") <$> indices)
    /\ Forall (fun ch => ch ∈ codeUnits "01")
         (symbolAt (codeUnits "01") <$> indices).
Proof.
  apply (encode_symbols (codeUnits "01") (mkEncoder (codeUnits "01")) [0; 255; 255]).
  - reflexivity.
  - repeat constructor; unfold isByte; lia.
Defined.

(** C7: after the loop over the bytes, [encode] appends the symbol of the
    leading digit of [hi], then as many copies of the symbol at index 0 as
    there are pending digits, then the symbol at index [length mod 2],
    which is therefore the last character of the text. *)
Theorem encode_ending alphabet enc bytes :
  newEncoder alphabet = inr enc -> Forall isByte bytes ->
  exists P st msdSym zeroSym paritySym,
    calculateParams (jsLength alphabet) = Some P
    /\ encodeBytes alphabet (jsLength alphabet) P
         (encInit P (jsLength alphabet)) bytes = Some st
    /\ bytesEncoded st = jsLength bytes
    /\ charAt alphabet (enc_hi st / msdDivisor P) = Some msdSym
    /\ charAt alphabet 0 = Some zeroSym
    /\ charAt alphabet (jsLength bytes mod 2) = Some paritySym
    /\ encode enc bytes
       = Some (result st ++ [msdSym] ++ replicate (digitsToAdd st) zeroSym
                 ++ [paritySym])
    /\ (forall text, encode enc bytes = Some text -> last text = Some paritySym).
Proof.
  intros Hnew Hb. apply newEncoder_inv in Hnew as [Hlen ->].
  destruct (calculateParams_good _ Hlen) as (P & HP & G).
  set (base := jsLength alphabet) in *.
  pose proof (encodeBytes_core G alphabet eq_refl bytes [] 0 _ (coreInit_ok G) Hb)
    as Hbytes.
  change (encOf [] 0 (coreInit P base)) with (encInit P base) in Hbytes.
  destruct (coreBytes_ok G bytes _ (coreInit_ok G) Hb) as [Hc _].
  set (c := (coreBytes base P (coreInit P base) bytes).2) in *.
  set (out := (coreBytes base P (coreInit P base) bytes).1) in *.
  rewrite app_nil_l, Z.add_0_l in Hbytes.
  pose proof Hc as [Hok _].
  assert (Hpar : 0 <= jsLength bytes mod 2 < base).
  { pose proof (Z.mod_pos_bound (jsLength bytes) 2 ltac:(lia)). lia. }
  assert (Hrem : Z.rem (jsLength bytes) 2 = jsLength bytes mod 2)
    by (apply Z.rem_mod_nonneg; unfold jsLength; lia).
  assert (Henc : encode (mkEncoder alphabet) bytes
                 = Some ((symbolAt alphabet <$> out)
                         ++ [symbolAt alphabet (c_hi c / msdDivisor P)]
                         ++ replicate (c_pending c) (symbolAt alphabet 0)
                         ++ [symbolAt alphabet (jsLength bytes mod 2)])).
  { unfold encode. cbn [encodingTable]. fold base. rewrite HP, Hbytes.
    rewrite (encodeFinish_core G alphabet eq_refl _ c _ Hc)
      by (unfold jsLength; lia).
    unfold coreFinish. rewrite Hrem.
    rewrite fmap_app, fmap_cons, fmap_replicate. reflexivity. }
  exists P, (encOf (symbolAt alphabet <$> out) (jsLength bytes) c).
  exists (symbolAt alphabet (c_hi c / msdDivisor P)), (symbolAt alphabet 0),
    (symbolAt alphabet (jsLength bytes mod 2)).
  split; [exact HP|]. split; [exact Hbytes|]. split; [reflexivity|].
  split; [apply charAt_symbolAt; apply (msd_inBase G _ _ Hok)|].
  split; [apply charAt_symbolAt; fold base; lia|].
  split; [apply charAt_symbolAt; exact Hpar|].
  split; [exact Henc|].
  intros text Ht. rewrite Henc in Ht. inversion Ht as [Ht'].
  replace ((symbolAt alphabet <$> out)
           ++ [symbolAt alphabet (c_hi c / msdDivisor P)]
           ++ replicate (c_pending c) (symbolAt alphabet 0)
           ++ [symbolAt alphabet (jsLength bytes mod 2)])
    with (((symbolAt alphabet <$> out)
           ++ [symbolAt alphabet (c_hi c / msdDivisor P)]
           ++ replicate (c_pending c) (symbolAt alphabet 0))
          ++ [symbolAt alphabet (jsLength bytes mod 2)])
    by (rewrite <- !app_assoc; reflexivity).
  apply last_snoc.
Qed.

Lemma encode_ending_witness :
  exists P st msdSym zeroSym paritySym,
    calculateParams (jsLength DEFAULT_ALPHABET) = Some P
    /\ encodeBytes DEFAULT_ALPHABET (jsLength DEFAULT_ALPHABET) P
         (encInit P (jsLength DEFAULT_ALPHABET)) [7; 0; 0] = Some st
    /\ bytesEncoded st = jsLength [7; 0; 0]
    /\ charAt DEFAULT_ALPHABET (enc_hi st / msdDivisor P) = Some msdSym
    /\ charAt DEFAULT_ALPHABET 0 = Some zeroSym
    /\ charAt DEFAULT_ALPHABET (jsLength [7; 0; 0] mod 2) = Some paritySym
    /\ encode (mkEncoder DEFAULT_ALPHABET) [7; 0; 0]
       = Some (result st ++ [msdSym] ++ replicate (digitsToAdd st) zeroSym
                 ++ [paritySym])
    /\ (forall text, encode (mkEncoder DEFAULT_ALPHABET) [7; 0; 0] = Some text ->
                     last text = Some paritySym).
Proof.
  apply (encode_ending DEFAULT_ALPHABET (mkEncoder DEFAULT_ALPHABET) [7; 0; 0]).
  - reflexivity.
  - repeat constructor; unfold isByte; lia.
Defined.

(** ** Round trip *)

Lemma decode_more fuel k text table o :
  decode fuel text table = Some o -> decode (fuel + k) text table = Some o.
Proof.
  unfold decode. cbv zeta.
  destruct (jsLength text - 1 <? 0); [auto|].
  destruct (charAt text (jsLength text - 1)) as [c|]; [|auto].
  destruct (table !! c) as [v|]; [|auto].
  destruct (v >? 1); [auto|].
  destruct (calculateParams (Z.of_nat (size table))) as [P|]; [|auto].
  apply decodeRun_more.
Qed.

(** C1: for an alphabet of distinct symbols that the constructors accept
    (2 to 256 symbols) and for every list of bytes, [encode] returns a text,
    [decode] of that text ends, and it has yielded exactly the bytes. *)
Theorem roundtrip alphabet enc dec bytes :
  NoDup alphabet ->
  newEncoder alphabet = inr enc -> newDecoder alphabet = inr dec ->
  Forall isByte bytes ->
  exists text,
    encode enc bytes = Some text
    /\ exists fuel0, forall fuel, (fuel0 <= fuel)%nat ->
         decoderDecode fuel dec text = Some (Returned bytes).
Proof.
  intros Hnd Henc Hdec Hb.
  apply newEncoder_inv in Henc as [Hlen ->].
  apply newDecoder_inv in Hdec as [_ ->].
  destruct (encode_indices alphabet bytes Hlen Hb) as (P & HP & G & He).
  exists (symbolAt alphabet <$> encodeIndices (jsLength alphabet) P bytes).
  split; [exact He|].
  destruct (decode_encoded alphabet bytes P Hnd G HP Hb) as [fuel0 Hfuel].
  exists fuel0. intros fuel Hge.
  unfold decoderDecode. cbn [decodingTable].
  replace fuel with (fuel0 + (fuel - fuel0))%nat by lia.
  apply decode_more. exact Hfuel.
Qed.

Lemma roundtrip_witness :
  exists text,
    encode (mkEncoder DEFAULT_ALPHABET) [0; 0; 255; 0] = Some text
    /\ exists fuel0, forall fuel, (fuel0 <= fuel)%nat ->
         decoderDecode fuel
           (mkDecoder (buildTable DEFAULT_ALPHABET (length DEFAULT_ALPHABET) ∅))
           text
         = Some (Returned [0; 0; 255; 0]).
Proof.
  apply (roundtrip DEFAULT_ALPHABET (mkEncoder DEFAULT_ALPHABET)
           (mkDecoder (buildTable DEFAULT_ALPHABET (length DEFAULT_ALPHABET) ∅))).
  - apply (bool_decide_unpack (NoDup DEFAULT_ALPHABET)). vm_compute. exact I.
  - reflexivity.
  - reflexivity.
  - repeat constructor; unfold isByte; lia.
Defined.

(** ** The interval invariant *)

Lemma encodeByte_narrowed table base P st byte :
  encodeByte table base P st byte
  = match encodeDigits table base P (Z.to_nat (maxDigitsToEmit P))
            (encodeNarrowed st byte) with
    | None => None
    | Some st' =>
      Some (mkEnc (result st') (bytesEncoded st' + 1) (enc_lo st') (enc_hi st')
              (digitsToAdd st') (digitsToAddHiMsd st'))
    end.
Proof. reflexivity. Qed.

(** A turn of the decoder either keeps the interval and what was yielded,
    or is the byte part. *)
Lemma decodeStep_cases text table endIndex par base P st st' :
  decodeStep text table endIndex par base P st = Continue st' ->
  (dec_lo st' = dec_lo st /\ dec_hi st' = dec_hi st /\ yielded st' = yielded st)
  \/ (requestedDigits st <= 0 /\ isLastDigit st = false
      /\ st' = countByte
                 (decodeDigits base P (Z.to_nat (maxDigitsToEmit P))
                    (decodeNarrowed st))).
Proof.
  intros H.
  destruct (Z.lt_ge_cases 0 (requestedDigits st)) as [Hreq|Hreq].
  - left. unfold decodeStep in H.
    replace (requestedDigits st >? 0) with true in H by lia.
    assert (Htake : forall d l,
      dec_lo (takeDigit base P st d l) = dec_lo st
      /\ dec_hi (takeDigit base P st d l) = dec_hi st
      /\ yielded (takeDigit base P st d l) = yielded st).
    { intros d l. unfold takeDigit.
      destruct (requestedDigits st =? requestedDigitsKeepMsd st); auto. }
    destruct (dec_i st <? endIndex).
    + destruct (charAt text (dec_i st)) as [ch|]; [|discriminate].
      destruct (table !! ch) as [digit|].
      * inversion H. apply Htake.
      * destruct (isWhitespace ch); [|discriminate]. inversion H. auto.
    + inversion H. apply Htake.
  - right. destruct (isLastDigit st) eqn:Hf.
    + unfold decodeStep in H.
      replace (requestedDigits st >? 0) with false in H by lia.
      rewrite Hf in H. destruct (negb _); discriminate.
    + rewrite decodeStep_byte in H by (lia || assumption).
      inversion H. auto.
Qed.

Lemma decodeIter_yielded k : forall text table endIndex par base P st st',
  decodeIter k text table endIndex par base P st = Some st' ->
  exists ys, yielded st' = yielded st ++ ys.
Proof.
  induction k as [|k IH]; intros text table endIndex par base P st st' H.
  - inversion H. exists []. rewrite app_nil_r. reflexivity.
  - cbn [decodeIter] in H.
    destruct (decodeStep text table endIndex par base P st) as [st1|] eqn:Hs;
      [|discriminate].
    destruct (IH _ _ _ _ _ _ _ _ H) as [ys Hys].
    apply decodeStep_cases in Hs.
    destruct Hs as [(_ & _ & Hy)|(_ & _ & ->)].
    + exists ys. rewrite Hys, Hy. reflexivity.
    + rewrite Hys. cbn [countByte yielded].
      rewrite decodeDigits_renorm. cbn [yielded decodeNarrowed].
      eexists. rewrite <- app_assoc. reflexivity.
Qed.

Section DecodeInterval.
Context {base : Z} {P : Params} (G : GoodParams base P).

Lemma decInit_ok : DecOk base P (decInit P base).
Proof. exact (coreInit_ok G). Qed.

Lemma decodeNarrowed_ok st :
  DecOk base P st -> Forall isByte (yielded (decodeNarrowed st)) ->
  IntervalOk base P (dec_lo (decodeNarrowed st)) (dec_hi (decodeNarrowed st))
  /\ (forall j,
        IntervalOk base P (dec_lo (decodeDigits base P j (decodeNarrowed st)))
          (dec_hi (decodeDigits base P j (decodeNarrowed st))))
  /\ DecOk base P
       (countByte
          (decodeDigits base P (Z.to_nat (maxDigitsToEmit P)) (decodeNarrowed st))).
Proof.
  intros [Hok Hw] Hy. cbn [decodeNarrowed yielded] in Hy.
  apply Forall_app in Hy as [_ Hb]. apply Forall_inv in Hb.
  set (byte := 256 * (digitsToDecode st - dec_lo st)
               / (dec_hi st - dec_lo st + 1)) in *.
  pose proof (gp_S _ _ G) as HS.
  assert (Hok0 : IntervalOk base P (narrowLo (dec_lo st) (dec_hi st) byte)
                   (narrowHi (dec_lo st) (dec_hi st) byte)).
  { apply narrow_ok; auto. unfold Wide in Hw. lia. }
  split; [exact Hok0|]. split.
  - intros j. rewrite decodeDigits_renorm. cbn [dec_lo dec_hi decodeNarrowed].
    apply (renorm_ok G). exact Hok0.
  - unfold DecOk. cbn [countByte dec_lo dec_hi].
    rewrite decodeDigits_renorm. cbn [dec_lo dec_hi decodeNarrowed].
    apply (byte_step_ok G); assumption.
Qed.

Lemma decodeIter_ok k : forall text table endIndex par st st',
  DecOk base P st ->
  decodeIter k text table endIndex par base P st = Some st' ->
  Forall isByte (yielded st') -> DecOk base P st'.
Proof.
  induction k as [|k IH]; intros text table endIndex par st st' Hok H Hy.
  - inversion H. subst. exact Hok.
  - cbn [decodeIter] in H.
    destruct (decodeStep text table endIndex par base P st) as [st1|] eqn:Hs;
      [|discriminate].
    apply (IH text table endIndex par st1 st'); [|exact H|exact Hy].
    destruct (decodeIter_yielded _ _ _ _ _ _ _ _ _ H) as [ys Hys].
    apply decodeStep_cases in Hs.
    destruct Hs as [(E1 & E2 & _)|(_ & _ & ->)].
    + unfold DecOk. rewrite E1, E2. exact Hok.
    + apply decodeNarrowed_ok; [exact Hok|].
      rewrite Hys in Hy. apply Forall_app in Hy as [Hy _].
      cbn [countByte yielded] in Hy. rewrite decodeDigits_renorm in Hy.
      exact Hy.
Qed.
End DecodeInterval.

(** What a run has yielded at any of its states is the beginning of what
    it has yielded at its end. *)
Lemma decodeStep_stop_yielded text table endIndex par base P st o :
  decodeStep text table endIndex par base P st = Stop o ->
  exists ys, outcomeBytes o = yielded st ++ ys.
Proof.
  unfold decodeStep. intros H.
  destruct (requestedDigits st >? 0).
  - destruct (dec_i st <? endIndex); [|discriminate].
    destruct (charAt text (dec_i st)) as [ch|].
    + destruct (table !! ch); [discriminate|].
      destruct (isWhitespace ch); [discriminate|].
      inversion H. exists []. rewrite app_nil_r. reflexivity.
    + inversion H. exists []. rewrite app_nil_r. reflexivity.
  - destruct (isLastDigit st); [|discriminate].
    destruct (negb _); inversion H; cbn [outcomeBytes].
    + eexists. reflexivity.
    + exists []. rewrite app_nil_r. reflexivity.
Qed.

Lemma decodeIter_run k : forall fuel text table endIndex par base P st0 st o,
  decodeIter k text table endIndex par base P st0 = Some st ->
  decodeRun fuel text table endIndex par base P st0 = Some o ->
  decodeRun (fuel - k) text table endIndex par base P st = Some o.
Proof.
  induction k as [|k IH]; intros fuel text table endIndex par base P st0 st o Hi Hr.
  - inversion Hi; subst. rewrite Nat.sub_0_r. exact Hr.
  - destruct fuel as [|fuel]; [discriminate|].
    cbn [decodeIter decodeRun] in *.
    destruct (decodeStep text table endIndex par base P st0) as [st1|];
      [|discriminate].
    cbn [Nat.sub]. apply (IH _ _ _ _ _ _ _ st1); assumption.
Qed.

Lemma decodeRun_yielded fuel : forall text table endIndex par base P st o,
  decodeRun fuel text table endIndex par base P st = Some o ->
  exists ys, outcomeBytes o = yielded st ++ ys.
Proof.
  induction fuel as [|fuel IH]; intros text table endIndex par base P st o H;
    [discriminate|].
  cbn [decodeRun] in H.
  destruct (decodeStep text table endIndex par base P st) as [st1|o1] eqn:Hs.
  - destruct (IH _ _ _ _ _ _ _ _ H) as [ys Hys].
    assert (Hit : decodeIter 1 text table endIndex par base P st = Some st1)
      by (cbn [decodeIter]; rewrite Hs; reflexivity).
    destruct (decodeIter_yielded _ _ _ _ _ _ _ _ _ Hit) as [ys1 Hys1].
    exists (ys1 ++ ys). rewrite Hys, Hys1, app_assoc. reflexivity.
  - inversion H; subst o1. eapply decodeStep_stop_yielded. exact Hs.
Qed.

Lemma decodeIter_snoc k : forall text table endIndex par base P st0 st st',
  decodeIter k text table endIndex par base P st0 = Some st ->
  decodeStep text table endIndex par base P st = Continue st' ->
  decodeIter (S k) text table endIndex par base P st0 = Some st'.
Proof.
  induction k as [|k IH]; intros text table endIndex par base P st0 st st' Hi Hs.
  - inversion Hi; subst. cbn [decodeIter]. rewrite Hs. reflexivity.
  - cbn [decodeIter] in Hi.
    destruct (decodeStep text table endIndex par base P st0) as [st1|] eqn:Hs0;
      [|discriminate].
    specialize (IH _ _ _ _ _ _ _ _ _ Hi Hs).
    change (decodeIter (S (S k)) text table endIndex par base P st0)
      with (match decodeStep text table endIndex par base P st0 with
            | Stop _ => None
            | Continue st2 =>
              decodeIter (S k) text table endIndex par base P st2
            end).
    rewrite Hs0. exact IH.
Qed.

Lemma encoded_endIndex alphabet base P bytes :
  jsLength (symbolAt alphabet <$> encodeIndices base P bytes) - 1
  = jsLength (future base P (coreInit P base) bytes).
Proof.
  rewrite encodeIndices_future. unfold jsLength.
  rewrite length_fmap, length_app. cbn [length]. lia.
Qed.

(** On a text that [encode] wrote for bytes, all that [decode] yields, and
    all it narrows by, are those bytes. *)
Lemma yields_on_encoded alphabet bytes P k st :
  NoDup alphabet -> GoodParams (jsLength alphabet) P ->
  Forall isByte bytes ->
  decodeIter k
    (symbolAt alphabet <$> encodeIndices (jsLength alphabet) P bytes)
    (buildTable alphabet (length alphabet) ∅)
    (jsLength (symbolAt alphabet <$> encodeIndices (jsLength alphabet) P bytes) - 1)
    (jsLength bytes mod 2) (jsLength alphabet) P
    (decInit P (jsLength alphabet)) = Some st ->
  Forall isByte (yielded st)
  /\ (requestedDigits st <= 0 -> isLastDigit st = false ->
      Forall isByte (yielded (decodeNarrowed st))).
Proof.
  intros Hnd G Hb Hit.
  destruct (decodeRun_encoded alphabet bytes P Hnd G Hb) as [fuel Hfuel].
  rewrite <- (encoded_endIndex alphabet) in Hfuel.
  rewrite Z.rem_mod_nonneg in Hfuel by (unfold jsLength; lia).
  assert (Hall : forall k' st',
    decodeIter k' (symbolAt alphabet <$> encodeIndices (jsLength alphabet) P bytes)
      (buildTable alphabet (length alphabet) ∅)
      (jsLength (symbolAt alphabet <$> encodeIndices (jsLength alphabet) P bytes) - 1)
      (jsLength bytes mod 2) (jsLength alphabet) P
      (decInit P (jsLength alphabet)) = Some st' ->
    Forall isByte (yielded st')).
  { intros k' st' Hit'.
    pose proof (decodeIter_run _ _ _ _ _ _ _ _ _ _ _ Hit' Hfuel) as Hrest.
    destruct (decodeRun_yielded _ _ _ _ _ _ _ _ _ Hrest) as [ys Hys].
    cbn [outcomeBytes] in Hys. rewrite Hys in Hb.
    apply Forall_app in Hb as [Hb _]. exact Hb. }
  split; [exact (Hall k st Hit)|].
  intros Hreq Hf.
  pose proof (decodeIter_snoc _ _ _ _ _ _ _ _ _ _ Hit
                (decodeStep_byte _ _ _ _ _ _ st Hreq Hf)) as Hnext.
  apply Hall in Hnext. cbn [countByte yielded] in Hnext.
  rewrite decodeDigits_renorm in Hnext. exact Hnext.
Qed.

(** C8, as stated, fails for [decode]: the text of 48 ones closed by a
    zero is made of symbols of the alphabet "01" and has a valid last
    symbol; [decode] ends on it without an error, after yielding 256, and
    passes through a state whose [hi] is above [msdDivisor * base - 1]. *)
Lemma interval_escapes_in_decode :
  calculateParams 2 = Some binaryParams
  /\ decode 200 (replicate 48 49 ++ [48]) binaryTable
     = Some (Returned [255; 256; 0; 0; 0; 254])
  /\ exists st,
       decodeIter 50 (replicate 48 49 ++ [48]) binaryTable 48 0 2 binaryParams
         (decInit binaryParams 2) = Some st
       /\ msdDivisor binaryParams * 2 - 1 < dec_hi st
       /\ ~ IntervalOk 2 binaryParams (dec_lo st) (dec_hi st).
Proof.
  split; [reflexivity|]. split; [vm_compute; reflexivity|].
  eexists. split; [vm_compute; reflexivity|].
  cbn [dec_lo dec_hi]. split; [reflexivity|].
  unfold IntervalOk. cbn [msdDivisor binaryParams]. lia.
Qed.

(** C8, amended: throughout every [encode] call on bytes, and throughout
    every [decode] call for as long as every value yielded is a byte, the
    interval satisfies [0 <= lo <= hi <= msdDivisor * base - 1] at the
    start of each round of the byte loop, after each narrowing and after
    each round of the digit loop; and on a text that [encode] wrote for
    bytes with an alphabet of distinct symbols, every value that [decode]
    yields or narrows by is a byte. *)
Theorem interval_invariant base P :
  2 <= base <= 256 -> calculateParams base = Some P ->
  (forall table pre byte,
      jsLength table = base -> Forall isByte pre -> isByte byte ->
      exists st,
        encodeBytes table base P (encInit P base) pre = Some st
        /\ IntervalOk base P (enc_lo st) (enc_hi st)
        /\ IntervalOk base P (enc_lo (encodeNarrowed st byte))
             (enc_hi (encodeNarrowed st byte))
        /\ forall j, exists st',
             encodeDigits table base P j (encodeNarrowed st byte) = Some st'
             /\ IntervalOk base P (enc_lo st') (enc_hi st'))
  /\ (forall text table endIndex par k st,
        decodeIter k text table endIndex par base P (decInit P base) = Some st ->
        Forall isByte (yielded st) ->
        IntervalOk base P (dec_lo st) (dec_hi st)
        /\ (requestedDigits st <= 0 -> isLastDigit st = false ->
            Forall isByte (yielded (decodeNarrowed st)) ->
            IntervalOk base P (dec_lo (decodeNarrowed st))
              (dec_hi (decodeNarrowed st))
            /\ forall j,
                 IntervalOk base P
                   (dec_lo (decodeDigits base P j (decodeNarrowed st)))
                   (dec_hi (decodeDigits base P j (decodeNarrowed st)))))
  /\ (forall alphabet bytes k st,
        NoDup alphabet -> jsLength alphabet = base -> Forall isByte bytes ->
        decodeIter k (symbolAt alphabet <$> encodeIndices base P bytes)
          (buildTable alphabet (length alphabet) ∅)
          (jsLength (symbolAt alphabet <$> encodeIndices base P bytes) - 1)
          (jsLength bytes mod 2) base P (decInit P base) = Some st ->
        Forall isByte (yielded st)
        /\ (requestedDigits st <= 0 -> isLastDigit st = false ->
            Forall isByte (yielded (decodeNarrowed st)))).
Proof.
  intros Hb HP. destruct (calculateParams_good base Hb) as (P' & HP' & G).
  rewrite HP in HP'. inversion HP'; subst P'. clear HP'.
  split; [|split].
  - intros table pre byte Htable Hpre Hbyte.
    pose proof (encodeBytes_core G table Htable pre [] 0 _ (coreInit_ok G) Hpre)
      as Hbytes.
    change (encOf [] 0 (coreInit P base)) with (encInit P base) in Hbytes.
    destruct (coreBytes_ok G pre _ (coreInit_ok G) Hpre) as [Hc _].
    set (c := (coreBytes base P (coreInit P base) pre).2) in *.
    eexists. split; [exact Hbytes|].
    pose proof Hc as [Hok _].
    pose proof (coreNarrow_ok G c byte Hc Hbyte) as Hok0.
    split; [exact Hok|]. split; [exact Hok0|].
    intros j. eexists. split.
    + apply (encodeDigits_core G table Htable j _ _ (coreNarrow c byte) Hok0).
    + cbn [encOf enc_lo enc_hi].
      destruct (@coreDigits_renorm base P j (coreNarrow c byte)) as [E1 E2].
      rewrite E1, E2. apply (renorm_ok G). exact Hok0.
  - intros text table endIndex par k st Hiter Hy.
    pose proof (decodeIter_ok G k text table endIndex par _ st (decInit_ok G)
                  Hiter Hy) as Hok.
    split; [exact (proj1 Hok)|].
    intros _ _ Hy'.
    destruct (decodeNarrowed_ok G st Hok Hy') as (H1 & H2 & _).
    split; assumption.
  - intros alphabet bytes k st Hnd Hlen Hbytes Hiter. subst base.
    exact (yields_on_encoded alphabet bytes P k st Hnd G Hbytes Hiter).
Qed.

Lemma interval_invariant_witness :
  (forall table pre byte,
      jsLength table = 2 -> Forall isByte pre -> isByte byte ->
      exists st,
        encodeBytes table 2 binaryParams (encInit binaryParams 2) pre = Some st
        /\ IntervalOk 2 binaryParams (enc_lo st) (enc_hi st)
        /\ IntervalOk 2 binaryParams (enc_lo (encodeNarrowed st byte))
             (enc_hi (encodeNarrowed st byte))
        /\ forall j, exists st',
             encodeDigits table 2 binaryParams j (encodeNarrowed st byte) = Some st'
             /\ IntervalOk 2 binaryParams (enc_lo st') (enc_hi st'))
  /\ (forall text table endIndex par k st,
        decodeIter k text table endIndex par 2 binaryParams
          (decInit binaryParams 2) = Some st ->
        Forall isByte (yielded st) ->
        IntervalOk 2 binaryParams (dec_lo st) (dec_hi st)
        /\ (requestedDigits st <= 0 -> isLastDigit st = false ->
            Forall isByte (yielded (decodeNarrowed st)) ->
            IntervalOk 2 binaryParams (dec_lo (decodeNarrowed st))
              (dec_hi (decodeNarrowed st))
            /\ forall j,
                 IntervalOk 2 binaryParams
                   (dec_lo (decodeDigits 2 binaryParams j (decodeNarrowed st)))
                   (dec_hi (decodeDigits 2 binaryParams j (decodeNarrowed st)))))
  /\ (forall alphabet bytes k st,
        NoDup alphabet -> jsLength alphabet = 2 -> Forall isByte bytes ->
        decodeIter k (symbolAt alphabet <$> encodeIndices 2 binaryParams bytes)
          (buildTable alphabet (length alphabet) ∅)
          (jsLength (symbolAt alphabet <$> encodeIndices 2 binaryParams bytes) - 1)
          (jsLength bytes mod 2) 2 binaryParams (decInit binaryParams 2) = Some st ->
        Forall isByte (yielded st)
        /\ (requestedDigits st <= 0 -> isLastDigit st = false ->
            Forall isByte (yielded (decodeNarrowed st)))).
Proof.
  apply (interval_invariant 2 binaryParams).
  - lia.
  - reflexivity.
Defined.

(** * Further properties of the code *)

(** ** StringBuilder *)

Lemma StringBuilder_add_toString sb str :
  StringBuilder_toString (StringBuilder_add sb str)
  = StringBuilder_toString sb ++ str.
Proof.
  unfold StringBuilder_toString, StringBuilder_add. cbv zeta.
  destruct (currChunkLength sb >=? 1024); cbn [chunks currChunk].
  - rewrite app_nil_l, !concat_app. cbn [concat]. rewrite !app_nil_r.
    rewrite <- app_assoc. reflexivity.
  - rewrite app_assoc, concat_app. cbn [concat]. rewrite app_nil_r. reflexivity.
Qed.

Lemma StringBuilder_add_length sb str :
  currChunkLength sb = jsLength (concat (currChunk sb)) ->
  currChunkLength (StringBuilder_add sb str)
  = jsLength (concat (currChunk (StringBuilder_add sb str))).
Proof.
  unfold StringBuilder_add, jsLength. cbv zeta. intros H.
  destruct (currChunkLength sb >=? 1024); cbn [currChunk currChunkLength].
  - cbn. rewrite app_nil_r. reflexivity.
  - rewrite concat_app, length_app. cbn [concat]. rewrite app_nil_r.
    unfold jsLength in H. lia.
Qed.

Lemma StringBuilder_adds strs : forall sb,
  StringBuilder_toString (fold_left StringBuilder_add strs sb)
  = StringBuilder_toString sb ++ concat strs.
Proof.
  induction strs as [|s strs IH]; intros sb; cbn [fold_left concat].
  - rewrite app_nil_r. reflexivity.
  - rewrite IH, StringBuilder_add_toString, <- app_assoc. reflexivity.
Qed.

Lemma StringBuilder_adds_length strs : forall sb,
  currChunkLength sb = jsLength (concat (currChunk sb)) ->
  currChunkLength (fold_left StringBuilder_add strs sb)
  = jsLength (concat (currChunk (fold_left StringBuilder_add strs sb))).
Proof.
  induction strs as [|s strs IH]; intros sb H; cbn [fold_left]; [exact H|].
  apply IH, StringBuilder_add_length, H.
Qed.

(** X1: whatever the chunking, the text of a builder is the strings added
    to it, in order; its length counter is the length of the open chunk.
    Built from single characters, as [encode] does, it is the list of the
    characters added. *)
Theorem StringBuilder_text strs :
  let sb := fold_left StringBuilder_add strs StringBuilder_new in
  StringBuilder_toString sb = concat strs
  /\ currChunkLength sb = jsLength (concat (currChunk sb))
  /\ forall chars,
       StringBuilder_toString
         (fold_left (fun b ch => StringBuilder_add b [ch]) chars StringBuilder_new)
       = chars.
Proof.
  cbv zeta. split; [|split].
  - rewrite StringBuilder_adds. reflexivity.
  - apply StringBuilder_adds_length. reflexivity.
  - intros chars.
    assert (H : forall sb,
      StringBuilder_toString
        (fold_left (fun b ch => StringBuilder_add b [ch]) chars sb)
      = StringBuilder_toString sb ++ chars).
    { induction chars as [|c chars IH]; intros sb; cbn [fold_left].
      - rewrite app_nil_r. reflexivity.
      - rewrite IH, StringBuilder_add_toString, <- app_assoc. reflexivity. }
    rewrite H. reflexivity.
Qed.

(** ** calculateParams *)

Lemma all_bases (f : Z -> bool) base :
  forallb f (seqZ 2 255) = true -> 2 <= base <= 256 -> f base = true.
Proof.
  intros H Hb. rewrite forallb_forall in H. apply H.
  apply list_elem_of_In, elem_of_seqZ. lia.
Qed.

(** X2: for every base from 2 to 256 the interval of the coder has
    [base ^ maxDigitsToDecode] values, the largest power of the base that
    is at most 2^40, and [msdDivisor] and [secondMsdDivisor] are the weights
    of its first and second digit. *)
Theorem calculateParams_precision base :
  2 <= base <= 256 ->
  exists P,
    calculateParams base = Some P
    /\ msdDivisor P * base = base ^ maxDigitsToDecode P
    /\ secondMsdDivisor P * base = msdDivisor P
    /\ base ^ maxDigitsToDecode P <= 2 ^ 40
    /\ 2 ^ 40 < base ^ (maxDigitsToDecode P + 1).
Proof.
  intros Hb.
  pose (f := fun b =>
    match calculateParams b with
    | Some P =>
      (msdDivisor P * b =? b ^ maxDigitsToDecode P)
      && (secondMsdDivisor P * b =? msdDivisor P)
      && (b ^ maxDigitsToDecode P <=? 2 ^ 40)
      && (2 ^ 40 <? b ^ (maxDigitsToDecode P + 1))
    | None => false
    end).
  assert (Hall : forallb f (seqZ 2 255) = true) by (vm_compute; reflexivity).
  pose proof (all_bases f base Hall Hb) as H. unfold f in H.
  destruct (calculateParams base) as [P|]; [|discriminate].
  exists P. split; [reflexivity|].
  repeat (apply andb_prop in H; destruct H as [H ?]).
  repeat split; lia.
Qed.

Lemma calculateParams_precision_witness :
  exists P,
    calculateParams 85 = Some P
    /\ msdDivisor P * 85 = 85 ^ maxDigitsToDecode P
    /\ secondMsdDivisor P * 85 = msdDivisor P
    /\ 85 ^ maxDigitsToDecode P <= 2 ^ 40
    /\ 2 ^ 40 < 85 ^ (maxDigitsToDecode P + 1).
Proof. apply (calculateParams_precision 85). lia. Defined.

(** ** The decoding table *)

Lemma buildTable_lookup_inv alphabet i : forall (table : gmap Z Z) s v,
  buildTable alphabet i table !! s = Some v ->
  table !! s = Some v
  \/ exists j, (j < i)%nat /\ alphabet !! j = Some s /\ v = Z.of_nat j.
Proof.
  induction i as [|i IH]; intros table s v H; cbn [buildTable] in H; [left; exact H|].
  destruct (alphabet !! i) as [c|] eqn:Ec.
  - apply IH in H. destruct H as [H|(j & Hj & Hs & Hv)].
    + destruct (Z.eq_dec c s) as [->|Hne].
      * rewrite lookup_insert_eq in H. inversion H. right. exists i. auto.
      * rewrite lookup_insert_ne in H by exact Hne. left. exact H.
    + right. exists j. split; [lia|auto].
  - apply IH in H. destruct H as [H|(j & Hj & Hs & Hv)]; [left; exact H|].
    right. exists j. split; [lia|auto].
Qed.

Lemma size_list_to_set_le (l : list Z) :
  (size (list_to_set l : gset Z) <= length l)%nat.
Proof.
  induction l as [|x l IH]; cbn [list_to_set length].
  - rewrite size_empty. lia.
  - pose proof (size_union_alt ({[x]} : gset Z) (list_to_set l)) as H.
    pose proof (subseteq_size (list_to_set l ∖ {[x]}) (list_to_set l : gset Z)
                  (subseteq_difference_l _ _ _ (reflexivity _))) as H1.
    rewrite size_singleton in H. lia.
Qed.

Lemma size_list_to_set_NoDup (l : list Z) :
  size (list_to_set l : gset Z) = length l -> NoDup l.
Proof.
  induction l as [|x l IH]; cbn [list_to_set length]; intros H; [constructor|].
  pose proof (size_list_to_set_le l) as Hle.
  destruct (decide (x ∈ l)) as [Hin|Hin].
  - exfalso.
    assert (Heq : ({[x]} ∪ list_to_set l : gset Z) = list_to_set l)
      by (apply set_eq; intros y; rewrite elem_of_union, elem_of_singleton,
            !elem_of_list_to_set; split; [intros [->|?]; assumption | auto]).
    rewrite Heq in H. lia.
  - rewrite size_union in H
      by (intros y; rewrite elem_of_singleton, elem_of_list_to_set;
          intros -> ?; contradiction).
    rewrite size_singleton in H.
    constructor; [exact Hin | apply IH; lia].
Qed.

Lemma decodingTable_dom alphabet :
  dom (buildTable alphabet (length alphabet) ∅) = list_to_set alphabet.
Proof.
  rewrite buildTable_dom by lia.
  rewrite firstn_all, dom_empty_L, union_empty_r_L. reflexivity.
Qed.

(** X3: the keys of a Decoder's table are the symbols of its alphabet and
    every value is an index at which its key stands; the size of the table,
    which [decode] takes as its base, is at most the length of the alphabet,
    which [encode] takes as its base, and the two are equal exactly when the
    symbols are distinct. *)
Theorem decodingTable_keys alphabet dec :
  newDecoder alphabet = inr dec ->
  (forall c, is_Some (decodingTable dec !! c) <-> c ∈ alphabet)
  /\ (forall c v, decodingTable dec !! c = Some v ->
                  0 <= v < jsLength alphabet /\ charAt alphabet v = Some c)
  /\ 1 <= Z.of_nat (size (decodingTable dec)) <= jsLength alphabet
  /\ (Z.of_nat (size (decodingTable dec)) = jsLength alphabet <-> NoDup alphabet).
Proof.
  intros Hdec. unfold newDecoder in Hdec.
  destruct (jsLength alphabet <? MIN_ALPHABET_SIZE) eqn:Hmin; [discriminate|].
  destruct (jsLength alphabet >? MAX_ALPHABET_SIZE); [discriminate|].
  inversion Hdec; subst dec; clear Hdec. cbn [decodingTable].
  unfold MIN_ALPHABET_SIZE in Hmin.
  assert (Hsize : size (buildTable alphabet (length alphabet) ∅)
                  = size (list_to_set alphabet : gset Z))
    by (rewrite <- size_dom, decodingTable_dom; reflexivity).
  split; [|split; [|split]].
  - intros c. rewrite <- elem_of_dom, decodingTable_dom, elem_of_list_to_set.
    reflexivity.
  - intros c v H. apply buildTable_lookup_inv in H.
    destruct H as [H|(j & Hj & Hs & ->)]; [rewrite lookup_empty in H; discriminate|].
    unfold jsLength, charAt. split; [lia|].
    replace (0 <=? Z.of_nat j) with true by lia.
    rewrite Nat2Z.id. exact Hs.
  - rewrite Hsize. pose proof (size_list_to_set_le alphabet) as Hle.
    unfold jsLength. split; [|lia].
    destruct alphabet as [|x l]; [cbn in Hmin; discriminate|].
    cbn [list_to_set].
    pose proof (subseteq_size ({[x]} : gset Z) ({[x]} ∪ list_to_set l)
                  (union_subseteq_l _ _)) as H1.
    rewrite size_singleton in H1. lia.
  - rewrite Hsize. unfold jsLength. split.
    + intros H. apply size_list_to_set_NoDup. lia.
    + intros H. rewrite size_list_to_set by exact H. reflexivity.
Qed.

Lemma decodingTable_keys_witness :
  (forall c, is_Some (decodingTable (mkDecoder (buildTable [97; 98; 97] 3 ∅)) !! c)
             <-> c ∈ [97; 98; 97])
  /\ (forall c v,
        decodingTable (mkDecoder (buildTable [97; 98; 97] 3 ∅)) !! c = Some v ->
        0 <= v < jsLength [97; 98; 97] /\ charAt [97; 98; 97] v = Some c)
  /\ 1 <= Z.of_nat (size (decodingTable (mkDecoder (buildTable [97; 98; 97] 3 ∅))))
     <= jsLength [97; 98; 97]
  /\ (Z.of_nat (size (decodingTable (mkDecoder (buildTable [97; 98; 97] 3 ∅))))
      = jsLength [97; 98; 97] <-> NoDup [97; 98; 97]).
Proof. apply (decodingTable_keys [97; 98; 97]). reflexivity. Defined.

(** ** What [decode] returns *)

Lemma takeDigit_count base P st digit l :
  yielded (takeDigit base P st digit l) = yielded st
  /\ bytesDecoded (takeDigit base P st digit l) = bytesDecoded st.
Proof.
  unfold takeDigit.
  destruct (requestedDigits st =? requestedDigitsKeepMsd st); split; reflexivity.
Qed.

(** The counter [bytesDecoded] is the number of bytes yielded. *)
Lemma decodeStep_count text table endIndex par base P st st' :
  jsLength (yielded st) = bytesDecoded st ->
  decodeStep text table endIndex par base P st = Continue st' ->
  jsLength (yielded st') = bytesDecoded st'.
Proof.
  intros Hc H.
  destruct (Z.lt_ge_cases 0 (requestedDigits st)) as [Hreq|Hreq].
  - unfold decodeStep in H.
    replace (requestedDigits st >? 0) with true in H by lia.
    destruct (dec_i st <? endIndex).
    + destruct (charAt text (dec_i st)) as [ch|]; [|discriminate].
      destruct (table !! ch) as [digit|].
      * inversion H.
        destruct (takeDigit_count base P st digit (isLastDigit st)) as [-> ->].
        exact Hc.
      * destruct (isWhitespace ch); [|discriminate]. inversion H; subst. exact Hc.
    + inversion H.
      match goal with |- context [takeDigit base P st 0 ?l] =>
        destruct (takeDigit_count base P st 0 l) as [-> ->] end.
      exact Hc.
  - destruct (isLastDigit st) eqn:Hf.
    + unfold decodeStep in H.
      replace (requestedDigits st >? 0) with false in H by lia.
      rewrite Hf in H. destruct (negb _); discriminate.
    + rewrite decodeStep_byte in H by (lia || assumption).
      inversion H. cbn [countByte yielded bytesDecoded].
      rewrite decodeDigits_renorm. cbn [yielded bytesDecoded decodeNarrowed].
      unfold jsLength in *. rewrite length_app. cbn [length]. lia.
Qed.

Lemma decodeStep_return_parity text table endIndex par base P st ys :
  0 <= par <= 1 ->
  jsLength (yielded st) = bytesDecoded st ->
  decodeStep text table endIndex par base P st = Stop (Returned ys) ->
  jsLength ys mod 2 = par.
Proof.
  intros Hpar Hc H. unfold decodeStep in H.
  assert (Hbd : 0 <= bytesDecoded st) by (rewrite <- Hc; unfold jsLength; lia).
  destruct (requestedDigits st >? 0).
  - destruct (dec_i st <? endIndex); [|discriminate].
    destruct (charAt text (dec_i st)) as [ch|]; [|discriminate].
    destruct (table !! ch); [discriminate|].
    destruct (isWhitespace ch); discriminate.
  - cbv zeta in H. destruct (isLastDigit st); [|discriminate].
    rewrite Z.rem_mod_nonneg in H by lia.
    destruct (bytesDecoded st mod 2 =? par) eqn:E; cbn [negb] in H;
      inversion H; subst ys; clear H.
    + rewrite Hc. lia.
    + unfold jsLength in *. rewrite length_app. cbn [length].
      rewrite Nat2Z.inj_add, Hc. change (Z.of_nat 1) with 1.
      apply Z.eqb_neq in E. dlia.
Qed.

Lemma decodeRun_return_parity fuel : forall text table endIndex par base P st ys,
  0 <= par <= 1 ->
  jsLength (yielded st) = bytesDecoded st ->
  decodeRun fuel text table endIndex par base P st = Some (Returned ys) ->
  jsLength ys mod 2 = par.
Proof.
  induction fuel as [|fuel IH]; intros text table endIndex par base P st ys Hpar Hc H;
    [discriminate|].
  cbn [decodeRun] in H.
  destruct (decodeStep text table endIndex par base P st) as [st1|o] eqn:Hs.
  - apply (IH text table endIndex par base P st1 ys Hpar); [|exact H].
    exact (decodeStep_count _ _ _ _ _ _ _ _ Hc Hs).
  - inversion H; subst o.
    exact (decodeStep_return_parity _ _ _ _ _ _ _ _ Hpar Hc Hs).
Qed.

(** X4: whatever the text, when [decode] returns, the number of bytes it
    has yielded has the parity that the last symbol of the text names. *)
Theorem decode_count_parity alphabet dec fuel text ys :
  newDecoder alphabet = inr dec ->
  decoderDecode fuel dec text = Some (Returned ys) ->
  exists c par,
    charAt text (jsLength text - 1) = Some c
    /\ decodingTable dec !! c = Some par
    /\ jsLength ys mod 2 = par.
Proof.
  intros Hdec H. apply newDecoder_inv in Hdec as [_ ->].
  unfold decoderDecode in H. cbn [decodingTable] in H.
  unfold decode in H. cbv zeta in H.
  destruct (jsLength text - 1 <? 0); [discriminate|].
  destruct (charAt text (jsLength text - 1)) as [c|]; [|discriminate].
  destruct (buildTable alphabet (length alphabet) ∅ !! c) as [par|] eqn:Ec;
    [|discriminate].
  destruct (par >? 1) eqn:Hp; [discriminate|].
  destruct (calculateParams _) as [P|]; [|discriminate].
  exists c, par. split; [reflexivity|]. split; [exact Ec|].
  apply buildTable_lookup_inv in Ec.
  destruct Ec as [Ec|(j & _ & _ & Hj)]; [rewrite lookup_empty in Ec; discriminate|].
  assert (Hpar : 0 <= par <= 1).
  { rewrite Z.gtb_ltb in Hp. apply Z.ltb_ge in Hp. lia. }
  apply (decodeRun_return_parity _ _ _ _ _ _ _ _ _ Hpar) in H;
    [exact H | reflexivity].
Qed.

Lemma decode_count_parity_witness :
  exists c par,
    charAt (codeUnits "10") (jsLength (codeUnits "10") - 1) = Some c
    /\ decodingTable (mkDecoder binaryTable) !! c = Some par
    /\ jsLength [] mod 2 = par.
Proof.
  apply (decode_count_parity (codeUnits "01") (mkDecoder binaryTable) 50
           (codeUnits "10") []); vm_compute; reflexivity.
Defined.

(** ** Texts that [decode] does not get through *)

(** X5: on a text with a valid last symbol whose other characters are all
    symbols of the alphabet or whitespace, at least one of them whitespace
    that is no symbol, [decode] neither returns nor throws: it stays on the
    first such character for ever. *)
Theorem decode_stuck_on_whitespace fuel text table c par :
  charAt text (jsLength text - 1) = Some c ->
  table !! c = Some par -> par <= 1 ->
  (forall j ch, 0 <= j < jsLength text - 1 -> charAt text j = Some ch ->
                is_Some (table !! ch) \/ isWhitespace ch = true) ->
  (exists j ch, 0 <= j < jsLength text - 1 /\ charAt text j = Some ch
                /\ table !! ch = None) ->
  decode fuel text table = None.
Proof.
  intros Hc Hpar Hle Hall (j & ch & Hj & Hch & Hno).
  destruct (decode fuel text table) as [[ys|ys]|] eqn:Hd; [| |reflexivity]; exfalso.
  - destruct (decode_returns_only_keys _ _ _ _ Hd j Hj) as (ch' & digit & Hch' & Hk).
    congruence.
  - apply decode_throws_only_if in Hd.
    destruct Hd as [->|[(c' & Hc' & Hbad)|(i & bad & Hi & Hb & Hnk & Hnw)]].
    + unfold jsLength in Hj. cbn [length] in Hj. lia.
    + rewrite Hc in Hc'. inversion Hc'; subst c'. rewrite Hpar in Hbad. lia.
    + destruct (Hall i bad Hi Hb) as [[v Hv]|Hw]; congruence.
Qed.

Lemma decode_stuck_on_whitespace_witness :
  decode 1000 (codeUnits "1 0 0") binaryTable = None.
Proof.
  apply (decode_stuck_on_whitespace 1000 (codeUnits "1 0 0") binaryTable 48 0).
  - reflexivity.
  - reflexivity.
  - lia.
  - intros j ch Hj Hch. change (jsLength (codeUnits "1 0 0") - 1) with 4 in Hj.
    assert (Hcases : j = 0 \/ j = 1 \/ j = 2 \/ j = 3) by lia.
    destruct Hcases as [-> | [-> | [-> | ->]]]; vm_compute in Hch; inversion Hch;
      first [left; vm_compute; eexists; reflexivity | right; vm_compute; reflexivity].
  - exists 1, 32. split; [vm_compute; split; congruence|].
    split; vm_compute; reflexivity.
Defined.

Lemma decodeRun_initial_throw text table endIndex par base P j bad :
  j < endIndex ->
  charAt text j = Some bad -> table !! bad = None -> isWhitespace bad = false ->
  forall n st fuel,
    (n < fuel)%nat -> dec_i st + Z.of_nat n = j ->
    Z.of_nat n < requestedDigits st ->
    (forall i, dec_i st <= i < j ->
               exists ch digit, charAt text i = Some ch /\ table !! ch = Some digit) ->
    decodeRun fuel text table endIndex par base P st = Some (Threw (yielded st)).
Proof.
  intros Hj Hbad Hnk Hnw.
  induction n as [|n IH]; intros st fuel Hfuel Hi Hreq Hkeys;
    (destruct fuel as [|fuel]; [lia|]); cbn [decodeRun]; unfold decodeStep;
    replace (requestedDigits st >? 0) with true by lia;
    replace (dec_i st <? endIndex) with true by lia.
  - replace (dec_i st) with j by lia. rewrite Hbad, Hnk, Hnw. reflexivity.
  - destruct (Hkeys (dec_i st) ltac:(lia)) as (ch & digit & Hch & Hk).
    rewrite Hch, Hk.
    assert (Htake : dec_i (takeDigit base P st digit (isLastDigit st)) = dec_i st + 1
                    /\ requestedDigits (takeDigit base P st digit (isLastDigit st))
                       = requestedDigits st - 1
                    /\ yielded (takeDigit base P st digit (isLastDigit st)) = yielded st).
    { unfold takeDigit.
      destruct (requestedDigits st =? requestedDigitsKeepMsd st);
        repeat split; reflexivity. }
    destruct Htake as (Hi1 & Hr1 & Hy1).
    rewrite (IH (takeDigit base P st digit (isLastDigit st)) fuel); try lia.
    + rewrite Hy1. reflexivity.
    + intros i Hir. apply Hkeys. lia.
Qed.

(** X6: when the first character that is no symbol of the alphabet is no
    whitespace either and stands among the first [maxDigitsToDecode]
    characters, before the last, [decode] throws before it yields a byte. *)
Theorem decode_throws_early text table c par P j bad fuel :
  charAt text (jsLength text - 1) = Some c ->
  table !! c = Some par -> par <= 1 ->
  calculateParams (Z.of_nat (size table)) = Some P ->
  0 <= j < jsLength text - 1 -> j < maxDigitsToDecode P ->
  (forall i, 0 <= i < j ->
             exists ch digit, charAt text i = Some ch /\ table !! ch = Some digit) ->
  charAt text j = Some bad -> table !! bad = None -> isWhitespace bad = false ->
  (Z.to_nat j < fuel)%nat ->
  decode fuel text table = Some (Threw []).
Proof.
  intros Hc Hpar Hle HP Hj HjN Hkeys Hbad Hnk Hnw Hfuel.
  unfold decode. cbv zeta.
  replace (jsLength text - 1 <? 0) with false by lia.
  rewrite Hc, Hpar. replace (par >? 1) with false by lia. rewrite HP.
  apply (decodeRun_initial_throw text table (jsLength text - 1) par
           (Z.of_nat (size table)) P j bad ltac:(lia) Hbad Hnk Hnw
           (Z.to_nat j) (decInit P (Z.of_nat (size table))) fuel Hfuel);
    unfold decInit; cbn [dec_i requestedDigits]; try lia.
  intros i Hi. apply Hkeys. lia.
Qed.

Lemma decode_throws_early_witness :
  decode 3 (codeUnits "01x10") binaryTable = Some (Threw []).
Proof.
  apply (decode_throws_early (codeUnits "01x10") binaryTable 48 0 binaryParams 2 120 3).
  - reflexivity.
  - reflexivity.
  - lia.
  - reflexivity.
  - vm_compute. split; congruence.
  - vm_compute. reflexivity.
  - intros i Hi. assert (Hcases : i = 0 \/ i = 1) by lia.
    destruct Hcases as [->| ->]; vm_compute; eexists _, _; split; reflexivity.
  - reflexivity.
  - reflexivity.
  - reflexivity.
  - vm_compute. lia.
Defined.

(** ** An alphabet of one repeated symbol *)

(** With base 1 the first loop of [calculateParams] never ends. *)
Lemma msdLoop_base_one fuel : forall m n,
  m <= 0x10000000000 -> msdLoop fuel 1 m n = None.
Proof.
  induction fuel as [|fuel IH]; intros m n Hm; cbn [msdLoop];
    replace (m <=? 0x10000000000) with true by lia; [reflexivity|].
  rewrite Z.mul_1_r. apply IH. exact Hm.
Qed.

Lemma encode_last_symbol enc bytes text :
  encode enc bytes = Some text ->
  exists ch, last text = Some ch /\ ch ∈ encodingTable enc.
Proof.
  unfold encode. cbv zeta. intros H.
  destruct (calculateParams _) as [P|]; [|discriminate].
  destruct (encodeBytes _ _ _ _ _) as [st|]; [|discriminate].
  unfold encodeFinish in H.
  destruct (add (result st) _) as [r1|]; [|discriminate].
  match type of H with
  | match ?r2 with _ => _ end = _ => destruct r2 as [r|]; [|discriminate]
  end.
  unfold add in H.
  destruct (charAt (encodingTable enc) (Z.rem (bytesEncoded st) 2)) as [ch|] eqn:Ech;
    [|discriminate].
  inversion H. exists ch. split; [apply last_snoc|].
  unfold charAt in Ech. destruct (0 <=? _); [|discriminate].
  apply (list_elem_of_lookup_2 _ _ _ Ech).
Qed.

(** X7: a Decoder made from an alphabet that repeats one symbol has a table
    of size 1, and [calculateParams] does not return for base 1: [decode]
    never ends on a text whose last character is that symbol, which every
    text the Encoder of the same alphabet produces is. *)
Theorem one_symbol_decoder_hangs alphabet enc dec c :
  newEncoder alphabet = inr enc -> newDecoder alphabet = inr dec ->
  (forall x, x ∈ alphabet -> x = c) ->
  size (decodingTable dec) = 1%nat
  /\ (forall fuel, msdLoop fuel 1 1 0 = None)
  /\ (forall text fuel,
        last text = Some c -> decoderDecode fuel dec text = None)
  /\ (forall bytes text fuel,
        encode enc bytes = Some text -> decoderDecode fuel dec text = None).
Proof.
  intros Henc Hdec Hall.
  apply newEncoder_inv in Henc as [Hlen ->].
  apply newDecoder_inv in Hdec as [_ ->]. cbn [decodingTable].
  destruct alphabet as [|x l]; [unfold jsLength in Hlen; cbn [length] in Hlen; lia|].
  assert (x = c) by (apply Hall; left). subst x.
  assert (Hsize : size (buildTable (c :: l) (length (c :: l)) ∅) = 1%nat).
  { rewrite <- size_dom, decodingTable_dom.
    assert (Heq : (list_to_set (c :: l) : gset Z) = {[c]}).
    { apply set_eq. intros y. rewrite elem_of_list_to_set, elem_of_singleton.
      split; [apply Hall | intros ->; left]. }
    rewrite Heq. apply size_singleton. }
  assert (Hhang : forall text fuel,
            last text = Some c ->
            decoderDecode fuel (mkDecoder (buildTable (c :: l) (length (c :: l)) ∅)) text
            = None).
  { intros text fuel Hlast. unfold decoderDecode, decode. cbn [decodingTable]. cbv zeta.
    assert (Hc : charAt text (jsLength text - 1) = Some c /\ 0 <= jsLength text - 1).
    { destruct text as [|t text' _] using rev_ind; [discriminate|].
      rewrite last_snoc in Hlast. inversion Hlast; subst t.
      unfold charAt, jsLength. rewrite length_app. cbn [length].
      replace (Z.of_nat (length text' + 1) - 1) with (Z.of_nat (length text'))
        by lia.
      split; [|lia].
      replace (0 <=? Z.of_nat (length text')) with true
        by (symmetry; apply Z.leb_le; lia).
      rewrite Nat2Z.id. rewrite lookup_app_r by lia.
      rewrite Nat.sub_diag. reflexivity. }
    destruct Hc as [Hc Hnn].
    replace (jsLength text - 1 <? 0) with false by lia. rewrite Hc.
    rewrite (buildTable_lookup_first (c :: l) _ ∅ c 0);
      [|cbn [length]; lia|reflexivity|intros k Hk; lia].
    cbn [Z.of_nat]. replace (0 >? 1) with false by reflexivity.
    rewrite Hsize. reflexivity. }
  split; [exact Hsize|]. split; [|split].
  - intros fuel. apply msdLoop_base_one. lia.
  - exact Hhang.
  - intros bytes text fuel He.
    apply encode_last_symbol in He as (ch & Hlast & Hin).
    cbn [encodingTable] in Hin. apply Hall in Hin. subst ch.
    apply Hhang. exact Hlast.
Qed.

Lemma one_symbol_decoder_hangs_witness :
  size (decodingTable (mkDecoder (buildTable [97; 97] 2 ∅))) = 1%nat
  /\ (forall fuel, msdLoop fuel 1 1 0 = None)
  /\ (forall text fuel,
        last text = Some 97 ->
        decoderDecode fuel (mkDecoder (buildTable [97; 97] 2 ∅)) text = None)
  /\ (forall bytes text fuel,
        encode (mkEncoder [97; 97]) bytes = Some text ->
        decoderDecode fuel (mkDecoder (buildTable [97; 97] 2 ∅)) text = None).
Proof.
  apply (one_symbol_decoder_hangs [97; 97]); [reflexivity|reflexivity|].
  intros x Hx. apply elem_of_cons in Hx as [->|Hx]; [reflexivity|].
  apply elem_of_cons in Hx as [->|Hx]; [reflexivity|].
  apply elem_of_nil in Hx. contradiction.
Defined.

(** ** What [encode] returns *)

(** X8: with an alphabet of distinct symbols, two byte sequences with the
    same encoded text are the same sequence. *)
Theorem encode_injective alphabet enc bytes1 bytes2 :
  NoDup alphabet -> newEncoder alphabet = inr enc ->
  Forall isByte bytes1 -> Forall isByte bytes2 ->
  encode enc bytes1 = encode enc bytes2 ->
  bytes1 = bytes2.
Proof.
  intros Hnd Henc Hb1 Hb2 Heq.
  apply newEncoder_inv in Henc as [Hlen ->].
  destruct (encode_indices alphabet bytes1 Hlen Hb1) as (P & HP & G & He1).
  destruct (encode_indices alphabet bytes2 Hlen Hb2) as (P' & HP' & _ & He2).
  rewrite HP in HP'. inversion HP'; subst P'. clear HP'.
  rewrite He1, He2 in Heq. inversion Heq as [Htext]. clear Heq.
  destruct (decode_encoded alphabet bytes1 P Hnd G HP Hb1) as (f1 & Hd1).
  destruct (decode_encoded alphabet bytes2 P Hnd G HP Hb2) as (f2 & Hd2).
  apply (decode_more f1 f2) in Hd1. apply (decode_more f2 f1) in Hd2.
  rewrite Htext in Hd1. rewrite (Nat.add_comm f2 f1) in Hd2.
  congruence.
Qed.

Lemma encode_injective_witness :
  [0; 255] = [0; 255].
Proof.
  apply (encode_injective DEFAULT_ALPHABET (mkEncoder DEFAULT_ALPHABET)).
  - apply (bool_decide_unpack (NoDup DEFAULT_ALPHABET)). vm_compute. exact I.
  - reflexivity.
  - repeat constructor; unfold isByte; lia.
  - repeat constructor; unfold isByte; lia.
  - reflexivity.
Defined.

(** ** The length of the encoded text *)

Lemma secondMsdDivisor_large base P :
  2 <= base <= 256 -> calculateParams base = Some P ->
  131072 <= secondMsdDivisor P.
Proof.
  intros Hb HP.
  pose (f := fun b =>
    match calculateParams b with
    | Some Q => 131072 <=? secondMsdDivisor Q
    | None => false
    end).
  assert (Hall : forallb f (seqZ 2 255) = true) by (vm_compute; reflexivity).
  pose proof (all_bases f base Hall Hb) as H. unfold f in H.
  rewrite HP in H. lia.
Qed.

Section EncodeSize.
Variables (base : Z) (P : Params).
Hypothesis G : GoodParams base P.
Hypothesis HS : 131072 <= secondMsdDivisor P.

(** Every round of the digit loop appends its digit or defers it. *)
Lemma coreDigits_count n c :
  (length (coreDigits base P n c).1 + c_pending (coreDigits base P n c).2
   = c_pending c + length (renorm base P n (c_lo c) (c_hi c)).1)%nat.
Proof.
  pose proof (coreDigits_pos (base:=base) (P:=P) n c 0) as H.
  pose proof (posMoves_sum (renorm base P n (c_lo c) (c_hi c)).1 0 (c_pending c))
    as Hs.
  rewrite H in Hs. cbn [fst snd] in Hs. lia.
Qed.

(** A byte divides the width of the interval by 256 to 257, and every
    digit multiplies it by the base. *)
Lemma coreByte_size c byte :
  CoreOk base P c -> isByte byte ->
  exists d : nat,
    (length (coreByte base P c byte).1 + c_pending (coreByte base P c byte).2
     = c_pending c + d)%nat
    /\ 256 * (c_hi (coreByte base P c byte).2 - c_lo (coreByte base P c byte).2)
       <= base ^ Z.of_nat d * (c_hi c - c_lo c)
    /\ base ^ Z.of_nat d * (c_hi c - c_lo c)
       <= 257 * (c_hi (coreByte base P c byte).2 - c_lo (coreByte base P c byte).2).
Proof.
  intros Hc Hb.
  pose proof (coreNarrow_ok G c byte Hc Hb) as Hok1.
  destruct Hc as [(H0 & Hle & Htop) Hw]. unfold Wide in Hw.
  destruct (narrow_facts (c_lo c) (c_hi c) byte Hle Hb) as (_ & _ & Hn3 & Hn4).
  unfold coreByte.
  set (n := Z.to_nat (maxDigitsToEmit P)).
  set (c1 := coreNarrow c byte) in *.
  destruct (renorm_width G n (c_lo c1) (c_hi c1) Hok1) as (Hwid & _ & _).
  destruct (coreDigits_renorm (base:=base) (P:=P) n c1) as [Hlo Hhi].
  cbv zeta in Hwid, Hlo, Hhi.
  exists (length (renorm base P n (c_lo c1) (c_hi c1)).1).
  split; [rewrite coreDigits_count; reflexivity|].
  rewrite Hlo, Hhi, Hwid.
  pose proof (base_pos G) as Hbase.
  assert (HB : 0 <= base ^ Z.of_nat (length (renorm base P n (c_lo c1) (c_hi c1)).1))
    by (apply Z.pow_nonneg; lia).
  revert HB.
  generalize (base ^ Z.of_nat (length (renorm base P n (c_lo c1) (c_hi c1)).1)).
  intros B HB.
  change (c_hi c1 - c_lo c1)
    with (narrowHi (c_lo c) (c_hi c) byte - narrowLo (c_lo c) (c_hi c) byte).
  revert Hn3 Hn4.
  generalize (narrowHi (c_lo c) (c_hi c) byte - narrowLo (c_lo c) (c_hi c) byte).
  intros U1 Hn3 Hn4.
  split.
  - replace (256 * (U1 * B)) with (B * (256 * U1)) by ring.
    apply Z.mul_le_mono_nonneg_l; lia.
  - replace (257 * (U1 * B)) with (B * (257 * U1)) by ring.
    apply Z.mul_le_mono_nonneg_l; lia.
Qed.

Lemma coreBytes_size bytes : forall c,
  CoreOk base P c -> Forall isByte bytes ->
  exists d : nat,
    (length (coreBytes base P c bytes).1 + c_pending (coreBytes base P c bytes).2
     = c_pending c + d)%nat
    /\ 256 ^ jsLength bytes
       * (c_hi (coreBytes base P c bytes).2 - c_lo (coreBytes base P c bytes).2)
       <= base ^ Z.of_nat d * (c_hi c - c_lo c)
    /\ base ^ Z.of_nat d * (c_hi c - c_lo c)
       <= 257 ^ jsLength bytes
          * (c_hi (coreBytes base P c bytes).2 - c_lo (coreBytes base P c bytes).2).
Proof.
  induction bytes as [|b rest IH]; intros c Hc Hbytes.
  - exists O. cbn [coreBytes fst snd length]. unfold jsLength. cbn [length].
    change (Z.of_nat 0) with 0. rewrite !Z.pow_0_r. split; lia.
  - apply Forall_cons in Hbytes as [Hb Hrest].
    destruct (coreByte_size c b Hc Hb) as (d1 & Hn1 & Hl1 & Hu1).
    destruct (coreByte_ok G c b Hc Hb) as [Hc1 _].
    cbn [coreBytes].
    destruct (coreByte base P c b) as [out1 c1]. cbn [fst snd] in *.
    destruct (IH c1 Hc1 Hrest) as (d2 & Hn2 & Hl2 & Hu2).
    destruct (coreBytes base P c1 rest) as [out2 c2]. cbn [fst snd] in *.
    exists (d1 + d2)%nat. rewrite length_app.
    split; [lia|].
    replace (jsLength (b :: rest)) with (jsLength rest + 1)
      by (unfold jsLength; cbn [length]; lia).
    assert (Hk : 0 <= jsLength rest) by (unfold jsLength; lia).
    rewrite !Z.pow_add_r, !Z.pow_1_r by lia.
    rewrite Nat2Z.inj_add, Z.pow_add_r by lia.
    pose proof (base_pos G) as Hbase.
    assert (HB1 : 0 <= base ^ Z.of_nat d1) by (apply Z.pow_nonneg; lia).
    assert (HB2 : 0 <= base ^ Z.of_nat d2) by (apply Z.pow_nonneg; lia).
    set (B1 := base ^ Z.of_nat d1) in *. set (B2 := base ^ Z.of_nat d2) in *.
    set (K := 256 ^ jsLength rest) in *. set (K' := 257 ^ jsLength rest) in *.
    set (U := c_hi c - c_lo c) in *. set (U1 := c_hi c1 - c_lo c1) in *.
    set (U2 := c_hi c2 - c_lo c2) in *.
    split.
    + apply (Z.le_trans _ (256 * (B2 * U1))).
      * replace (K * 256 * U2) with (256 * (K * U2)) by ring. lia.
      * replace (256 * (B2 * U1)) with (B2 * (256 * U1)) by ring.
        replace (B1 * B2 * U) with (B2 * (B1 * U)) by ring.
        apply Z.mul_le_mono_nonneg_l; assumption.
    + apply (Z.le_trans _ (257 * (B2 * U1))).
      * replace (B1 * B2 * U) with (B2 * (B1 * U)) by ring.
        replace (257 * (B2 * U1)) with (B2 * (257 * U1)) by ring.
        apply Z.mul_le_mono_nonneg_l; assumption.
      * replace (K' * 257 * U2) with (257 * (K' * U2)) by ring. lia.
Qed.

(** The digits of the text: two more than the rounds of the digit loop. *)
Lemma encodeIndices_size bytes :
  Forall isByte bytes ->
  256 ^ jsLength bytes < base ^ jsLength (encodeIndices base P bytes)
  /\ base ^ (jsLength (encodeIndices base P bytes) - 2) <= 257 ^ jsLength bytes.
Proof.
  intros Hbytes.
  destruct (coreBytes_size bytes (coreInit P base) (coreInit_ok G) Hbytes)
    as (d & Hn & Hl & Hu).
  destruct (coreBytes_ok G bytes (coreInit P base) (coreInit_ok G) Hbytes)
    as [[(H0 & Hle & Htop) Hw] _].
  unfold encodeIndices, coreFinish, Wide in *.
  destruct (coreBytes base P (coreInit P base) bytes) as [out c].
  cbn [fst snd coreInit c_lo c_hi c_pending] in *.
  assert (Hlen : jsLength (out ++ (c_hi c / msdDivisor P :: replicate (c_pending c) 0)
                             ++ [Z.rem (jsLength bytes) 2])
                 = Z.of_nat d + 2).
  { unfold jsLength. rewrite !length_app. cbn [length].
    rewrite length_replicate. lia. }
  rewrite Hlen. replace (Z.of_nat d + 2 - 2) with (Z.of_nat d) by lia.
  pose proof (base_pos G) as Hbase. pose proof (gp_M _ _ G) as HM.
  assert (HB : 0 < base ^ Z.of_nat d) by (apply Z.pow_pos_nonneg; lia).
  assert (HK : 0 < 256 ^ jsLength bytes)
    by (apply Z.pow_pos_nonneg; unfold jsLength; lia).
  assert (HK' : 0 < 257 ^ jsLength bytes)
    by (apply Z.pow_pos_nonneg; unfold jsLength; lia).
  rewrite Z.pow_add_r by lia. change (base ^ 2) with (Z.pow base 2).
  rewrite Z.pow_2_r.
  set (B := base ^ Z.of_nat d) in *. set (K := 256 ^ jsLength bytes) in *.
  set (K' := 257 ^ jsLength bytes) in *. set (U := c_hi c - c_lo c) in *.
  set (S2 := secondMsdDivisor P) in *. set (M := msdDivisor P) in *.
  replace (M * base - 1 - 0) with (M * base - 1) in * by lia.
  split.
  - destruct (Z.lt_ge_cases K (B * (base * base))) as [Hlt|Hge]; [exact Hlt|].
    exfalso.
    assert (H1 : B * (base * base) * S2 <= K * S2)
      by (apply Z.mul_le_mono_nonneg_r; lia).
    assert (H2 : K * (S2 + 1) <= K * U)
      by (apply Z.mul_le_mono_nonneg_l; lia).
    assert (H3 : B * (M * base - 1) = B * (base * base) * S2 - B)
      by (rewrite HM; ring).
    lia.
  - assert (H1 : K' * U <= K' * (M * base - 1))
      by (apply Z.mul_le_mono_nonneg_l; lia).
    assert (H2 : B * (M * base - 1) <= K' * (M * base - 1)) by lia.
    apply Z.mul_le_mono_pos_r in H2; [exact H2|].
    pose proof (M_pos G). fold M in H. nia.
Qed.
End EncodeSize.

(** X9: the encoded text of [k] bytes in base [b] has more than
    [k * log_b 256] characters and at most [k * log_b 257 + 2]: its length
    [n] satisfies [256 ^ k < b ^ n] and [b ^ (n - 2) <= 257 ^ k]. *)
Theorem encode_size alphabet enc bytes :
  newEncoder alphabet = inr enc -> Forall isByte bytes ->
  exists text,
    encode enc bytes = Some text
    /\ 256 ^ jsLength bytes < jsLength alphabet ^ jsLength text
    /\ jsLength alphabet ^ (jsLength text - 2) <= 257 ^ jsLength bytes.
Proof.
  intros Henc Hbytes. apply newEncoder_inv in Henc as [Hlen ->].
  destruct (encode_indices alphabet bytes Hlen Hbytes) as (P & HP & G & He).
  pose proof (secondMsdDivisor_large _ _ Hlen HP) as HS.
  eexists. split; [exact He|].
  replace (jsLength (symbolAt alphabet <$> encodeIndices (jsLength alphabet) P bytes))
    with (jsLength (encodeIndices (jsLength alphabet) P bytes))
    by (unfold jsLength; rewrite length_fmap; reflexivity).
  apply encodeIndices_size; assumption.
Qed.

Lemma encode_size_witness :
  exists text,
    encode (mkEncoder DEFAULT_ALPHABET) [1; 2; 3] = Some text
    /\ 256 ^ jsLength [1; 2; 3] < jsLength DEFAULT_ALPHABET ^ jsLength text
    /\ jsLength DEFAULT_ALPHABET ^ (jsLength text - 2) <= 257 ^ jsLength [1; 2; 3].
Proof.
  apply (encode_size DEFAULT_ALPHABET); [reflexivity|].
  repeat constructor; unfold isByte; lia.
Defined.

(** X10: the text of the empty byte sequence is the last symbol of the
    alphabet followed by the first. *)
Theorem encode_empty alphabet enc :
  newEncoder alphabet = inr enc ->
  exists lastSym firstSym,
    charAt alphabet (jsLength alphabet - 1) = Some lastSym
    /\ charAt alphabet 0 = Some firstSym
    /\ encode enc [] = Some [lastSym; firstSym].
Proof.
  intros Henc. apply newEncoder_inv in Henc as [Hlen ->].
  destruct (encode_indices alphabet [] Hlen (Forall_nil_2 _)) as (P & HP & G & He).
  exists (symbolAt alphabet (jsLength alphabet - 1)), (symbolAt alphabet 0).
  split; [apply charAt_symbolAt; lia|]. split; [apply charAt_symbolAt; lia|].
  rewrite He. f_equal.
  unfold encodeIndices, coreFinish. cbn [coreBytes coreInit c_hi c_pending replicate].
  pose proof (M_pos G) as HM.
  replace ((msdDivisor P * jsLength alphabet - 1) / msdDivisor P)
    with (jsLength alphabet - 1)
    by (apply (Z.div_unique_pos _ _ _ (msdDivisor P - 1)); lia).
  reflexivity.
Qed.

Lemma encode_empty_witness :
  exists lastSym firstSym,
    charAt DEFAULT_ALPHABET (jsLength DEFAULT_ALPHABET - 1) = Some lastSym
    /\ charAt DEFAULT_ALPHABET 0 = Some firstSym
    /\ encode (mkEncoder DEFAULT_ALPHABET) [] = Some [lastSym; firstSym].
Proof. apply (encode_empty DEFAULT_ALPHABET). reflexivity. Defined.

(** ** The default alphabet *)

(** X11: the default alphabet has 85 distinct symbols, none of them
    whitespace, so an Encoder and a Decoder made without an alphabet
    round-trip every byte sequence, and the text has no whitespace in it. *)
Theorem default_alphabet_roundtrip bytes :
  Forall isByte bytes ->
  jsLength DEFAULT_ALPHABET = 85
  /\ NoDup DEFAULT_ALPHABET
  /\ exists enc dec text,
       newEncoder DEFAULT_ALPHABET = inr enc
       /\ newDecoder DEFAULT_ALPHABET = inr dec
       /\ encode enc bytes = Some text
       /\ Forall (fun ch => isWhitespace ch = false) text
       /\ exists fuel0, forall fuel, (fuel0 <= fuel)%nat ->
            decoderDecode fuel dec text = Some (Returned bytes).
Proof.
  intros Hbytes.
  assert (Hnd : NoDup DEFAULT_ALPHABET).
  { apply (bool_decide_unpack (NoDup DEFAULT_ALPHABET)). vm_compute. exact I. }
  assert (Hws : Forall (fun ch => isWhitespace ch = false) DEFAULT_ALPHABET).
  { apply Forall_forall. intros ch Hch.
    assert (Hall : forallb (fun ch => negb (isWhitespace ch)) DEFAULT_ALPHABET = true)
      by (vm_compute; reflexivity).
    rewrite forallb_forall in Hall. apply list_elem_of_In in Hch.
    apply Hall in Hch. destruct (isWhitespace ch); [discriminate|reflexivity]. }
  assert (Hlen : 2 <= jsLength DEFAULT_ALPHABET <= 256) by (vm_compute; split; congruence).
  split; [reflexivity|]. split; [exact Hnd|].
  destruct (encode_indices DEFAULT_ALPHABET bytes Hlen Hbytes) as (P & HP & G & He).
  destruct (decode_encoded DEFAULT_ALPHABET bytes P Hnd G HP Hbytes) as (fuel0 & Hd).
  exists (mkEncoder DEFAULT_ALPHABET),
         (mkDecoder (buildTable DEFAULT_ALPHABET (length DEFAULT_ALPHABET) ∅)).
  eexists. split; [reflexivity|]. split; [reflexivity|]. split; [exact He|].
  split.
  - apply Forall_fmap. apply Forall_forall. intros k Hk. cbn.
    pose proof (encodeIndices_inBase G bytes Hbytes) as Hin.
    rewrite Forall_forall in Hin, Hws.
    apply Hws, symbolAt_elem, Hin, Hk.
  - exists fuel0. intros fuel Hfuel. unfold decoderDecode. cbn [decodingTable].
    replace fuel with (fuel0 + (fuel - fuel0))%nat by lia.
    apply decode_more. exact Hd.
Qed.

Lemma default_alphabet_roundtrip_witness :
  jsLength DEFAULT_ALPHABET = 85
  /\ NoDup DEFAULT_ALPHABET
  /\ exists enc dec text,
       newEncoder DEFAULT_ALPHABET = inr enc
       /\ newDecoder DEFAULT_ALPHABET = inr dec
       /\ encode enc [104; 105] = Some text
       /\ Forall (fun ch => isWhitespace ch = false) text
       /\ exists fuel0, forall fuel, (fuel0 <= fuel)%nat ->
            decoderDecode fuel dec text = Some (Returned [104; 105]).
Proof.
  apply (default_alphabet_roundtrip [104; 105]).
  repeat constructor; unfold isByte; lia.
Defined.

(** ** The interval between two bytes *)

(** X12: before each byte [encode] holds an interval of more than 131072
    values; the sub-intervals of the 256 byte values tile it, the first
    starting at [lo], each starting right after the one before, the last
    ending at [hi], and each holds more than 510 values. *)
Theorem encode_subintervals alphabet enc pre :
  newEncoder alphabet = inr enc -> Forall isByte pre ->
  exists P st,
    calculateParams (jsLength alphabet) = Some P
    /\ encodeBytes alphabet (jsLength alphabet) P
         (encInit P (jsLength alphabet)) pre = Some st
    /\ 131072 < enc_hi st - enc_lo st
    /\ enc_lo (encodeNarrowed st 0) = enc_lo st
    /\ enc_hi (encodeNarrowed st 255) = enc_hi st
    /\ (forall b, enc_lo (encodeNarrowed st (b + 1))
                  = enc_hi (encodeNarrowed st b) + 1)
    /\ (forall b, isByte b ->
                  510 <= enc_hi (encodeNarrowed st b) - enc_lo (encodeNarrowed st b)).
Proof.
  intros Henc Hpre. apply newEncoder_inv in Henc as [Hlen _].
  destruct (calculateParams_good _ Hlen) as (P & HP & G).
  pose proof (secondMsdDivisor_large _ _ Hlen HP) as HS.
  pose proof (encodeBytes_core G alphabet eq_refl pre [] 0 (coreInit P (jsLength alphabet))
                (coreInit_ok G) Hpre) as He.
  destruct (coreBytes_ok G pre _ (coreInit_ok G) Hpre) as [[(H0 & Hle & Htop) Hw] _].
  unfold Wide in Hw.
  set (c := (coreBytes (jsLength alphabet) P (coreInit P (jsLength alphabet)) pre).2) in *.
  exists P. eexists. split; [exact HP|]. split; [exact He|].
  unfold encodeNarrowed, encOf. cbn [enc_lo enc_hi].
  split; [lia|]. split; [|split; [|split]].
  - rewrite Z.mul_0_r. change (ceil256 0) with 0. lia.
  - change (255 + 1) with 256.
    assert (Hc : ceil256 ((c_hi c - c_lo c + 1) * 256) = c_hi c - c_lo c + 1).
    { unfold ceil256. rewrite <- Z.mul_opp_l, Z.div_mul by lia. lia. }
    rewrite Hc. lia.
  - intros b. lia.
  - intros b Hb.
    destruct (narrow_facts (c_lo c) (c_hi c) b Hle Hb) as (_ & _ & Hn3 & _).
    unfold narrowLo, narrowHi in Hn3. lia.
Qed.

Lemma encode_subintervals_witness :
  exists P st,
    calculateParams (jsLength (codeUnits "01")) = Some P
    /\ encodeBytes (codeUnits "01") (jsLength (codeUnits "01")) P
         (encInit P (jsLength (codeUnits "01"))) [7; 7] = Some st
    /\ 131072 < enc_hi st - enc_lo st
    /\ enc_lo (encodeNarrowed st 0) = enc_lo st
    /\ enc_hi (encodeNarrowed st 255) = enc_hi st
    /\ (forall b, enc_lo (encodeNarrowed st (b + 1))
                  = enc_hi (encodeNarrowed st b) + 1)
    /\ (forall b, isByte b ->
                  510 <= enc_hi (encodeNarrowed st b) - enc_lo (encodeNarrowed st b)).
Proof.
  apply (encode_subintervals (codeUnits "01") (mkEncoder (codeUnits "01")));
    [reflexivity|].
  repeat constructor; unfold isByte; lia.
Defined.

(** ** How [decode] follows [encode] *)

(** X13: the byte that [decode] computes undoes the narrowing of [encode].
    With no digit left to read, on the interval that [encode] has, when the
    digits read lie in the sub-interval that [encode] chose for a byte, the
    turn of [decode] computes that byte: before the last digit it yields
    the byte, runs its digit loop from that same sub-interval and counts the
    byte; at the last digit it returns, after yielding the byte when the
    count of bytes has not the parity of the text. *)
Theorem decode_inverts_narrowing text table endIndex par base P est dst byte :
  requestedDigits dst <= 0 ->
  dec_lo dst = enc_lo est -> dec_hi dst = enc_hi est ->
  enc_lo est <= enc_hi est -> isByte byte ->
  enc_lo (encodeNarrowed est byte) <= digitsToDecode dst
    <= enc_hi (encodeNarrowed est byte) ->
  (isLastDigit dst = false ->
   decodeStep text table endIndex par base P dst
   = Continue
       (countByte
          (decodeDigits base P (Z.to_nat (maxDigitsToEmit P))
             (mkDec (yielded dst ++ [byte]) (bytesDecoded dst)
                (enc_lo (encodeNarrowed est byte))
                (enc_hi (encodeNarrowed est byte))
                (dec_i dst) (digitsToDecode dst) (requestedDigits dst)
                (requestedDigitsKeepMsd dst) false))))
  /\ (isLastDigit dst = true ->
      decodeStep text table endIndex par base P dst
      = Stop (Returned (if Z.rem (bytesDecoded dst) 2 =? par
                        then yielded dst
                        else yielded dst ++ [byte]))).
Proof.
  intros Hreq Hlo Hhi Hle Hb Hd.
  unfold encodeNarrowed in *. cbn [enc_lo enc_hi] in *.
  pose proof (decode_byte (enc_lo est) (enc_hi est) byte (digitsToDecode dst)
                Hle Hb Hd) as Hbyte.
  split; intros Hlast.
  - rewrite decodeStep_byte by assumption.
    unfold decodeNarrowed. rewrite Hlo, Hhi, Hbyte, Hlast. reflexivity.
  - unfold decodeStep.
    replace (requestedDigits dst >? 0) with false by lia.
    cbv zeta. rewrite Hlast, Hlo, Hhi, Hbyte.
    destruct (Z.rem (bytesDecoded dst) 2 =? par); reflexivity.
Qed.

Lemma decode_inverts_narrowing_witness :
  (isLastDigit (mkDec [] 0 0 1099511627775 40 549755813888 0 0 false) = false ->
   decodeStep (49 :: replicate 47 48 ++ [48]) binaryTable 48 0 2 binaryParams
     (mkDec [] 0 0 1099511627775 40 549755813888 0 0 false)
   = Continue
       (countByte
          (decodeDigits 2 binaryParams (Z.to_nat (maxDigitsToEmit binaryParams))
             (mkDec ([] ++ [128]) 0
                (enc_lo (encodeNarrowed (encInit binaryParams 2) 128))
                (enc_hi (encodeNarrowed (encInit binaryParams 2) 128))
                40 549755813888 0 0 false))))
  /\ (isLastDigit (mkDec [] 0 0 1099511627775 40 549755813888 0 0 false) = true ->
      decodeStep (49 :: replicate 47 48 ++ [48]) binaryTable 48 0 2 binaryParams
        (mkDec [] 0 0 1099511627775 40 549755813888 0 0 false)
      = Stop (Returned (if Z.rem 0 2 =? 0 then [] else [] ++ [128]))).
Proof.
  apply (decode_inverts_narrowing (49 :: replicate 47 48 ++ [48]) binaryTable 48 0 2
           binaryParams (encInit binaryParams 2)
           (mkDec [] 0 0 1099511627775 40 549755813888 0 0 false) 128).
  - cbn. lia.
  - reflexivity.
  - reflexivity.
  - cbn. lia.
  - unfold isByte. lia.
  - vm_compute. split; congruence.
Defined.

(** X14: the two copies of the digit loop agree: from the same interval
    they reach the same interval, and [decode] asks for as many digits as
    [encode] has appended or deferred. *)
Theorem digit_loops_agree base P table n est dst :
  2 <= base <= 256 -> calculateParams base = Some P ->
  jsLength table = base ->
  IntervalOk base P (enc_lo est) (enc_hi est) ->
  dec_lo dst = enc_lo est -> dec_hi dst = enc_hi est ->
  exists est',
    encodeDigits table base P n est = Some est'
    /\ dec_lo (decodeDigits base P n dst) = enc_lo est'
    /\ dec_hi (decodeDigits base P n dst) = enc_hi est'
    /\ requestedDigits (decodeDigits base P n dst) - requestedDigits dst
       = (jsLength (result est') + Z.of_nat (digitsToAdd est'))
         - (jsLength (result est) + Z.of_nat (digitsToAdd est)).
Proof.
  intros Hb HP Htable Hok Hlo Hhi.
  destruct (calculateParams_good _ Hb) as (P' & HP' & G).
  rewrite HP in HP'. inversion HP'; subst P'. clear HP'.
  destruct est as [r k lo hi pend ref]. cbn [enc_lo enc_hi result digitsToAdd] in *.
  pose proof (encodeDigits_core G table Htable n r k (mkCore lo hi pend ref) Hok) as He.
  unfold encOf in He at 1. cbn [c_lo c_hi c_pending c_ref] in He.
  eexists. split; [exact He|].
  rewrite decodeDigits_renorm. cbn [dec_lo dec_hi requestedDigits].
  cbn [encOf enc_lo enc_hi result digitsToAdd].
  destruct (coreDigits_renorm (base:=base) (P:=P) n (mkCore lo hi pend ref))
    as [Hl Hh].
  cbv zeta in Hl, Hh. cbn [c_lo c_hi] in Hl, Hh.
  pose proof (coreDigits_count base P n (mkCore lo hi pend ref)) as Hc.
  cbn [c_lo c_hi c_pending] in Hc.
  rewrite Hlo, Hhi, Hl, Hh. split; [reflexivity|]. split; [reflexivity|].
  unfold jsLength. rewrite length_app, length_fmap. lia.
Qed.

Lemma digit_loops_agree_witness :
  exists est',
    encodeDigits (codeUnits "01") 2 binaryParams 9
      (mkEnc [] 0 0 4294967295 O 0) = Some est'
    /\ dec_lo (decodeDigits 2 binaryParams 9 (mkDec [] 0 0 4294967295 0 0 0 0 false))
       = enc_lo est'
    /\ dec_hi (decodeDigits 2 binaryParams 9 (mkDec [] 0 0 4294967295 0 0 0 0 false))
       = enc_hi est'
    /\ requestedDigits
         (decodeDigits 2 binaryParams 9 (mkDec [] 0 0 4294967295 0 0 0 0 false))
       - requestedDigits (mkDec [] 0 0 4294967295 0 0 0 0 false)
       = (jsLength (result est') + Z.of_nat (digitsToAdd est'))
         - (jsLength (result (mkEnc [] 0 0 4294967295 O 0))
            + Z.of_nat (digitsToAdd (mkEnc [] 0 0 4294967295 O 0))).
Proof.
  apply (digit_loops_agree 2 binaryParams (codeUnits "01") 9
           (mkEnc [] 0 0 4294967295 O 0) (mkDec [] 0 0 4294967295 0 0 0 0 false)).
  - lia.
  - reflexivity.
  - reflexivity.
  - unfold IntervalOk. cbn. lia.
  - reflexivity.
  - reflexivity.
Defined.

(** ** The shortest texts *)

Lemma decode_single alphabet P par k :
  NoDup alphabet -> GoodParams (jsLength alphabet) P ->
  calculateParams (jsLength alphabet) = Some P ->
  par = 0 \/ par = 1 ->
  decode (Z.to_nat (maxDigitsToDecode P) + S k) [symbolAt alphabet par]
    (buildTable alphabet (length alphabet) ∅)
  = Some (Returned (if par =? 0 then [] else [0])).
Proof.
  intros Hnd G HP Hpar.
  set (base := jsLength alphabet) in *.
  set (table := buildTable alphabet (length alphabet) ∅).
  pose proof (gp_base _ _ G) as Hbase. pose proof (gp_N _ _ G) as HN.
  pose proof (M_pos G) as HM.
  assert (Hsym : forall j, inBase base j -> table !! symbolAt alphabet j = Some j).
  { intros j Hj. apply buildTable_symbolAt; [exact Hnd | exact Hj]. }
  assert (Hparb : inBase base par) by (unfold inBase; lia).
  assert (HT : Forall (inBase base) []) by constructor.
  unfold decode. cbv zeta.
  change (jsLength [symbolAt alphabet par] - 1) with 0.
  change (0 <? 0) with false. cbv iota.
  change (charAt [symbolAt alphabet par] 0) with (Some (symbolAt alphabet par)).
  cbv iota. fold table. rewrite (Hsym par Hparb).
  replace (par >? 1) with false by lia.
  assert (Hsize : Z.of_nat (size table) = base)
    by (apply buildTable_size; exact Hnd).
  rewrite Hsize, HP.
  pose proof (decodeRun_reads G alphabet table Hsym [] HT par
                (Z.to_nat (maxDigitsToDecode P)) (S k) (decInit P base)) as Hreads.
  change (symbolAt alphabet <$> [] ++ [par]) with [symbolAt alphabet par] in Hreads.
  change (jsLength []) with 0 in Hreads.
  rewrite Hreads by (unfold decInit; cbn [requestedDigits dec_i]; lia).
  destruct (readMany_init G [] HT _ (Nat.le_refl (Z.to_nat (maxDigitsToDecode P))))
    as (R1 & _ & R3 & _ & R5 & R6 & R7 & R8 & R9).
  change (jsLength []) with 0 in *.
  set (st := readMany [] 0 base P (Z.to_nat (maxDigitsToDecode P)) (decInit P base)) in *.
  rewrite padTake_nil, num_replicate_zero in R1.
  assert (Hlast : isLastDigit st = true).
  { rewrite R5. apply bool_decide_eq_true. cbn [length]. lia. }
  cbn [decodeRun].
  pose proof (decodeStep_last (base:=base) (P:=P) alphabet table [] par st
                ltac:(lia) Hlast) as Hstep.
  cbv zeta in Hstep.
  change (symbolAt alphabet <$> [] ++ [par]) with [symbolAt alphabet par] in Hstep.
  change (jsLength []) with 0 in Hstep.
  rewrite Hstep, R1, R6, R7, R8, R9.
  replace (256 * (0 - 0) / (msdDivisor P * base - 1 - 0 + 1)) with 0
    by (rewrite Z.sub_diag, Z.mul_0_r, Z.div_0_l; lia).
  destruct Hpar as [-> | ->]; reflexivity.
Qed.

(** X15: [decode] takes a text of one character: the first symbol of the
    alphabet alone gives no bytes, the second alone gives one zero byte,
    though [encode] writes no text of fewer than two characters. *)
Theorem decode_one_character alphabet dec s0 s1 :
  NoDup alphabet -> newDecoder alphabet = inr dec ->
  charAt alphabet 0 = Some s0 -> charAt alphabet 1 = Some s1 ->
  exists fuel0, forall fuel, (fuel0 <= fuel)%nat ->
    decoderDecode fuel dec [s0] = Some (Returned [])
    /\ decoderDecode fuel dec [s1] = Some (Returned [0]).
Proof.
  intros Hnd Hdec H0 H1. apply newDecoder_inv in Hdec as [Hlen ->].
  destruct (calculateParams_good _ Hlen) as (P & HP & G).
  assert (Hs0 : s0 = symbolAt alphabet 0) by (unfold symbolAt; rewrite H0; reflexivity).
  assert (Hs1 : s1 = symbolAt alphabet 1) by (unfold symbolAt; rewrite H1; reflexivity).
  subst s0 s1.
  exists (Z.to_nat (maxDigitsToDecode P) + 1)%nat. intros fuel Hfuel.
  unfold decoderDecode. cbn [decodingTable].
  replace fuel
    with (Z.to_nat (maxDigitsToDecode P)
          + S (fuel - (Z.to_nat (maxDigitsToDecode P) + 1)))%nat by lia.
  split.
  - rewrite (decode_single alphabet P 0) by (assumption || (left; reflexivity)).
    reflexivity.
  - rewrite (decode_single alphabet P 1) by (assumption || (right; reflexivity)).
    reflexivity.
Qed.

Lemma decode_one_character_witness :
  exists fuel0, forall fuel, (fuel0 <= fuel)%nat ->
    decoderDecode fuel (mkDecoder binaryTable) [48] = Some (Returned [])
    /\ decoderDecode fuel (mkDecoder binaryTable) [49] = Some (Returned [0]).
Proof.
  apply (decode_one_character (codeUnits "01") (mkDecoder binaryTable) 48 49).
  - apply (bool_decide_unpack (NoDup (codeUnits "01"))). vm_compute. exact I.
  - reflexivity.
  - reflexivity.
  - reflexivity.
Defined.

(** ** Encoding a longer input *)

Lemma encodeBytes_app table base P bytes1 : forall st bytes2,
  encodeBytes table base P st (bytes1 ++ bytes2)
  = match encodeBytes table base P st bytes1 with
    | Some st1 => encodeBytes table base P st1 bytes2
    | None => None
    end.
Proof.
  induction bytes1 as [|b rest IH]; intros st bytes2; cbn [encodeBytes app];
    [reflexivity|].
  destruct (encodeByte table base P st b); [apply IH | reflexivity].
Qed.

(** X16: [encode] works online: the characters it has appended once a
    prefix of the bytes is processed are the beginning of the text of the
    whole input, whatever bytes follow. *)
Theorem encode_online alphabet enc bytes1 bytes2 :
  newEncoder alphabet = inr enc ->
  Forall isByte bytes1 -> Forall isByte bytes2 ->
  exists P st text,
    calculateParams (jsLength alphabet) = Some P
    /\ encodeBytes alphabet (jsLength alphabet) P
         (encInit P (jsLength alphabet)) bytes1 = Some st
    /\ encode enc (bytes1 ++ bytes2) = Some text
    /\ result st `prefix_of` text.
Proof.
  intros Henc Hb1 Hb2. apply newEncoder_inv in Henc as [Hlen ->].
  destruct (calculateParams_good _ Hlen) as (P & HP & G).
  set (base := jsLength alphabet) in *.
  pose proof (encodeBytes_core G alphabet eq_refl bytes1 [] 0 (coreInit P base)
                (coreInit_ok G) Hb1) as He1.
  destruct (coreBytes_ok G bytes1 _ (coreInit_ok G) Hb1) as [Hc1 _].
  set (c1 := (coreBytes base P (coreInit P base) bytes1).2) in *.
  set (r1 := [] ++ (symbolAt alphabet <$> (coreBytes base P (coreInit P base) bytes1).1))
    in *.
  pose proof (encodeBytes_core G alphabet eq_refl bytes2 r1 (0 + jsLength bytes1) c1
                Hc1 Hb2) as He2.
  destruct (coreBytes_ok G bytes2 _ Hc1 Hb2) as [Hc2 _].
  set (c2 := (coreBytes base P c1 bytes2).2) in *.
  pose proof (encodeFinish_core G alphabet eq_refl
                (r1 ++ (symbolAt alphabet <$> (coreBytes base P c1 bytes2).1))
                c2 (0 + jsLength bytes1 + jsLength bytes2) Hc2
                ltac:(unfold jsLength; lia)) as Hf.
  exists P. eexists. eexists. split; [exact HP|]. split; [exact He1|].
  split.
  - unfold encode. cbn [encodingTable]. cbv zeta. fold base. rewrite HP.
    change (encInit P base) with (encOf [] 0 (coreInit P base)).
    rewrite encodeBytes_app, He1, He2. exact Hf.
  - cbn [encOf result]. rewrite <- app_assoc. apply prefix_app_r. reflexivity.
Qed.

Lemma encode_online_witness :
  exists P st text,
    calculateParams (jsLength DEFAULT_ALPHABET) = Some P
    /\ encodeBytes DEFAULT_ALPHABET (jsLength DEFAULT_ALPHABET) P
         (encInit P (jsLength DEFAULT_ALPHABET)) [1; 2; 3; 4] = Some st
    /\ encode (mkEncoder DEFAULT_ALPHABET) ([1; 2; 3; 4] ++ [5; 6]) = Some text
    /\ result st `prefix_of` text.
Proof.
  apply (encode_online DEFAULT_ALPHABET (mkEncoder DEFAULT_ALPHABET));
    [reflexivity| |]; repeat constructor; unfold isByte; lia.
Defined.

(** ** The alphabet only names the digits *)

(** X17: two Encoders whose alphabets have the same length write, for the
    same bytes, texts with the same digit values: each text is the list of
    the symbols its own alphabet has at those indices. *)
Theorem encode_alphabet_renaming alphabet1 alphabet2 enc1 enc2 bytes :
  newEncoder alphabet1 = inr enc1 -> newEncoder alphabet2 = inr enc2 ->
  jsLength alphabet1 = jsLength alphabet2 -> Forall isByte bytes ->
  exists indices,
    Forall (inBase (jsLength alphabet1)) indices
    /\ encode enc1 bytes = Some (symbolAt alphabet1 <$> indices)
    /\ encode enc2 bytes = Some (symbolAt alphabet2 <$> indices).
Proof.
  intros H1 H2 Hlen Hbytes.
  apply newEncoder_inv in H1 as [Hl1 ->]. apply newEncoder_inv in H2 as [Hl2 ->].
  destruct (encode_indices alphabet1 bytes Hl1 Hbytes) as (P & HP & G & He1).
  destruct (encode_indices alphabet2 bytes Hl2 Hbytes) as (P' & HP' & _ & He2).
  rewrite <- Hlen in HP', He2. rewrite HP in HP'. inversion HP'; subst P'.
  exists (encodeIndices (jsLength alphabet1) P bytes).
  split; [apply (encodeIndices_inBase G); exact Hbytes|].
  split; assumption.
Qed.

Lemma encode_alphabet_renaming_witness :
  exists indices,
    Forall (inBase (jsLength (codeUnits "01"))) indices
    /\ encode (mkEncoder (codeUnits "01")) [200; 3]
       = Some (symbolAt (codeUnits "01") <$> indices)
    /\ encode (mkEncoder (codeUnits "ab")) [200; 3]
       = Some (symbolAt (codeUnits "ab") <$> indices).
Proof.
  apply (encode_alphabet_renaming (codeUnits "01") (codeUnits "ab"));
    [reflexivity|reflexivity|reflexivity|].
  repeat constructor; unfold isByte; lia.
Defined.

(** ** Why [decode] throws *)

(** X18: [decode] throws for three reasons only: the text is empty, its
    last character is no symbol of digit value 0 or 1, or a character
    before the last is neither a symbol nor whitespace; for the first two
    it has yielded nothing. *)
Theorem decode_error_causes fuel text table ys :
  decode fuel text table = Some (Threw ys) ->
  (ys = []
   /\ (text = []
       \/ exists c, charAt text (jsLength text - 1) = Some c
                    /\ match table !! c with Some v => 1 < v | None => True end))
  \/ (exists i ch,
        0 <= i < jsLength text - 1 /\ charAt text i = Some ch
        /\ table !! ch = None /\ isWhitespace ch = false).
Proof.
  intros H. pose proof (decode_throws_only_if _ _ _ _ H) as Hcause.
  destruct Hcause as [->|[(c & Hc & Hbad)|Hchar]]; [left|left|right; exact Hchar].
  - rewrite decode_empty_throws in H. inversion H. split; [reflexivity|].
    left. reflexivity.
  - rewrite decode_bad_terminator_throws in H.
    + inversion H. split; [reflexivity|]. right. exists c. split; assumption.
    + intros c' Hc'. rewrite Hc in Hc'. inversion Hc'; subst c'. exact Hbad.
Qed.

Lemma decode_error_causes_witness :
  ([] = ([] : list Z)
   /\ (codeUnits "012" = []
       \/ exists c, charAt (codeUnits "012") (jsLength (codeUnits "012") - 1) = Some c
                    /\ match binaryTable !! c with Some v => 1 < v | None => True end))
  \/ (exists i ch,
        0 <= i < jsLength (codeUnits "012") - 1 /\ charAt (codeUnits "012") i = Some ch
        /\ binaryTable !! ch = None /\ isWhitespace ch = false).
Proof.
  apply (decode_error_causes 1 (codeUnits "012") binaryTable []). reflexivity.
Defined.
